(** * Windowed reductions of jax._src.lax.windowed_reductions

    A shallow embedding of the shape arithmetic, the monoid fast path, the
    differentiation and batching rules and the bit packing of
    [jax/_src/lax/windowed_reductions.py], with the properties the
    specification states about them. *)

From Stdlib Require Import ZArith List Bool Lia SpecFloat.
Import ListNotations.
Open Scope Z_scope.

(** ** Exceptions and fallible computations *)

Inductive exception : Type :=
| TypeError
| ValueError
| NotImplementedError
| AssertionError
| ZeroDivisionError
| IndexError
| StopIteration.

Inductive result (A : Type) : Type :=
| Ok (a : A)
| Raise (e : exception).
Arguments Ok {A} a.
Arguments Raise {A} e.

Definition bind {A B : Type} (m : result A) (k : A -> result B) : result B :=
  match m with
  | Ok a => k a
  | Raise e => Raise e
  end.

Definition result_map {A B : Type} (f : A -> B) (r : result A) : result B :=
  match r with
  | Ok a => Ok (f a)
  | Raise e => Raise e
  end.

Notation "x <- m ;; k" := (bind m (fun x => k))
  (at level 61, m at next level, right associativity).
Notation "' p <- m ;; k" := (bind m (fun x => let p := x in k))
  (at level 61, p pattern, m at next level, right associativity).

(** ** Scalars of one dtype

    The operations of a dtype that the file under study uses: its constants
    ([lax._zero], [lax._get_max_identity], [lax._get_min_identity], the
    infinities of [np.inf]), Python's [==] on scalars, the scalar meaning of
    [lax.add], [lax.max], [lax.min], [lax.bitwise_or] and of the comparison
    primitives. *)

Class Dtype (T : Type) : Type := {
  zero : T;
  neg_inf : T;
  pos_inf : T;
  max_identity : T;
  min_identity : T;
  is_number : bool;
  is_bool : bool;
  eqv : T -> T -> bool;
  sadd : T -> T -> T;
  smax : T -> T -> T;
  smin : T -> T -> T;
  sor : T -> T -> T;
  sge : T -> T -> bool;
  sle : T -> T -> bool;
  sgt : T -> T -> bool;
  slt : T -> T -> bool
}.

(** ** Arrays

    An array is its shape and its element at every multi-index; only the
    elements at indices within the shape are part of the value. *)

Record array (T : Type) : Type := mk_array {
  shape : list Z;
  get : list Z -> T
}.
Arguments mk_array {T} shape get.
Arguments shape {T} a.
Arguments get {T} a idx.

Definition ndim {T : Type} (a : array T) : nat := length (shape a).

Definition range (n : Z) : list Z := map Z.of_nat (seq 0 (Z.to_nat n)).

(** The multi-indices of a shape in row-major order. *)
Fixpoint indices (s : list Z) : list (list Z) :=
  match s with
  | [] => [[]]
  | n :: rest => flat_map (fun i => map (cons i) (indices rest)) (range n)
  end.

Fixpoint in_bounds (s idx : list Z) : bool :=
  match s, idx with
  | [], [] => true
  | n :: s', i :: idx' => (0 <=? i) && (i <? n) && in_bounds s' idx'
  | _, _ => false
  end.

Fixpoint index_eqb (i j : list Z) : bool :=
  match i, j with
  | [], [] => true
  | x :: i', y :: j' => (x =? y) && index_eqb i' j'
  | _, _ => false
  end.

(** The elements of an array in row-major order. *)
Definition to_list {T : Type} (a : array T) : list T :=
  map (get a) (indices (shape a)).

(** A rank-1 array from its elements. *)
Definition of_list {T : Type} (default : T) (xs : list T) : array T :=
  mk_array [Z.of_nat (length xs)]
           (fun idx => match idx with
                       | [i] => nth (Z.to_nat i) xs default
                       | _ => default
                       end).

(** A rank-0 array. *)
Definition scalar {T : Type} (x : T) : array T := mk_array [] (fun _ => x).

(** Two arrays hold the same value: same shape, same element at every index
    of the shape. *)
Definition array_eq {T : Type} (a b : array T) : Prop :=
  shape a = shape b /\
  forall idx, in_bounds (shape a) idx = true -> get a idx = get b idx.

Fixpoint map2 {A B C : Type} (f : A -> B -> C) (xs : list A) (ys : list B)
  : list C :=
  match xs, ys with
  | x :: xs', y :: ys' => f x y :: map2 f xs' ys'
  | _, _ => []
  end.

(** Python's [l[:b] + (x,) + l[b:]]. *)
Definition insert_at {A : Type} (b : nat) (x : A) (l : list A) : list A :=
  firstn b l ++ x :: skipn b l.

(** Python's [l[:b] + l[b+1:]]. *)
Definition remove_at {A : Type} (b : nat) (l : list A) : list A :=
  firstn b l ++ skipn (S b) l.

(** The sub-array at position [t] of axis [b]. *)
Definition take {T : Type} (b : nat) (t : Z) (a : array T) : array T :=
  mk_array (remove_at b (shape a)) (fun idx => get a (insert_at b t idx)).

(** ** Helpers of the repository that live outside the file under study *)

Module util.

(** Modelled from the spec: [util.unzip2] (jax/_src/util.py, not under
    src/) splits a sequence of pairs into the sequence of first and the
    sequence of second components; the spec's step "add padding lo/hi per
    dimension" reads the two off the padding pairs. *)
Fixpoint unzip2 {A B : Type} (xys : list (A * B)) : list A * list B :=
  match xys with
  | [] => ([], [])
  | (x, y) :: rest => let (xs, ys) := unzip2 rest in (x :: xs, y :: ys)
  end.

(** Modelled from the spec: [util.safe_zip] / [util.safe_map] (not under
    src/) pair sequences element by element and refuse sequences of
    different lengths. *)
Fixpoint safe_map2 {A B C : Type} (f : A -> B -> result C)
         (xs : list A) (ys : list B) : result (list C) :=
  match xs, ys with
  | [], [] => Ok []
  | x :: xs', y :: ys' =>
      z <- f x y ;; zs <- safe_map2 f xs' ys' ;; Ok (z :: zs)
  | _, _ => Raise AssertionError
  end.

Fixpoint safe_map3 {A B C D : Type} (f : A -> B -> C -> result D)
         (xs : list A) (ys : list B) (zs : list C) : result (list D) :=
  match xs, ys, zs with
  | [], [], [] => Ok []
  | x :: xs', y :: ys', z :: zs' =>
      w <- f x y z ;; ws <- safe_map3 f xs' ys' zs' ;; Ok (w :: ws)
  | _, _, _ => Raise AssertionError
  end.

End util.

Module core.

(** Modelled from the spec: [core.dilate_shape]'s per-dimension rule (not
    under src/): "dilating by d inserts d-1 zero-extent gaps between
    elements (dilated(n,d) = 1 + (n-1)*d for n>0, else 0)". *)
Definition dilate_dim (d dilation : Z) : Z :=
  if 0 <? d then 1 + dilation * (d - 1) else 0.

(** Modelled from the spec: [core.sum_shapes] (not under src/) adds shapes
    dimension by dimension ("add padding lo/hi per dimension to the
    operand extents"). *)
Definition sum_shapes (s lo hi : list Z) : result (list Z) :=
  util.safe_map3 (fun d l h => Ok (d + l + h)) s lo hi.

(** Python's floor division; a zero divisor raises. *)
Definition floordiv (a b : Z) : result Z :=
  if b =? 0 then Raise ZeroDivisionError else Ok (a / b).

(** Modelled from the spec: [core.stride_shape] (not under src/):
    "stride_shape(padded_extent, dilated_window_extent, stride) =
    floor((padded_extent - dilated_window_extent) / stride) + 1, clamped":
    an extent that is zero or smaller than the window gives the extent 0,
    and nothing is divided then. *)
Definition stride_dim (d window_size window_stride : Z) : result Z :=
  if (d =? 0) || (d <? window_size) then Ok 0
  else q <- floordiv (d - window_size) window_stride ;; Ok (q + 1).

Definition stride_shape (s window_size window_stride : list Z)
  : result (list Z) :=
  util.safe_map3 stride_dim s window_size window_stride.

(** A value as [core.get_aval] sees it when a function of the file is
    called: known at that point ([ConcreteArray], a constant) or traced
    ([ShapedArray], only its shape known); either way it evaluates to an
    array. *)
Record value (T : Type) : Type := mk_value {
  is_concrete : bool;
  runtime : array T
}.
Arguments mk_value {T} is_concrete runtime.
Arguments is_concrete {T} v.
Arguments runtime {T} v.

Inductive aval (T : Type) : Type :=
| ConcreteArray (val : array T)
| ShapedArray (aval_shape : list Z).
Arguments ConcreteArray {T} val.
Arguments ShapedArray {T} aval_shape.

Definition get_aval {T : Type} (x : value T) : aval T :=
  if is_concrete x then ConcreteArray (runtime x)
  else ShapedArray (shape (runtime x)).

End core.

Module lax.

(** Modelled from the spec: [lax._dilate_shape] (jax/_src/lax/lax.py, not
    under src/) applies the dilation rule of the spec to every dimension.
    The dilations are "each >= 1": a dilation that is not positive is a
    TypeError; a dilation sequence shorter than the shape is completed
    with leading ones, a longer one is refused by the pairing. *)
Definition _dilate_shape (shape dilation : list Z) : result (list Z) :=
  if negb (forallb (fun d => 0 <? d) dilation) then Raise TypeError
  else
    let dilation :=
      repeat 1 (length shape - length dilation) ++ dilation in
    util.safe_map2 (fun d k => Ok (core.dilate_dim d k)) shape dilation.

(** Modelled from the spec: [lax._check_shapelike] (not under src/)
    refuses a sequence with a negative entry and, when [non_zero_shape]
    is set, with an entry below one ("any window or stride entry is <= 0"
    is a TypeError-equivalent validation error). *)
Definition _check_shapelike (non_zero_shape : bool) (obj : list Z)
  : result unit :=
  let lower_bound := if non_zero_shape then 1 else 0 in
  if forallb (fun d => lower_bound <=? d) obj then Ok tt
  else Raise TypeError.

(** The comparison primitives a select predicate is taken from, and the
    reduction primitives a chooser rule is registered for. *)
Inductive comparison_primitive : Type := ge_p | le_p | gt_p | lt_p.
Inductive reduction_primitive : Type := add_p | max_p | min_p.

(** A combining function handed to [reduce_window]: one of the functions
    [lax.add], [lax.max], [lax.min], or any other callable, given by
    whether tracing it records effects, by the number of its outputs and
    by its meaning on the scalars of the operands. *)
Inductive computation (T : Type) : Type :=
| add
| max
| min
| callable (effects : bool) (out_tree : nat)
           (f : list T -> list T -> list T).
Arguments add {T}.
Arguments max {T}.
Arguments min {T}.
Arguments callable {T} effects out_tree f.

(** A traced sub-program: its effects flag and its meaning. *)
Record jaxpr (T : Type) : Type := mk_jaxpr {
  effects : bool;
  eval_jaxpr : list T -> list T -> list T
}.
Arguments mk_jaxpr {T} effects eval_jaxpr.
Arguments effects {T} j.
Arguments eval_jaxpr {T} j.

(** A binary scalar operation as a reducer of one operand. *)
Definition scalar_region {T : Type} (op : T -> T -> T)
  : list T -> list T -> list T :=
  fun xs ys =>
    match xs, ys with
    | [x], [y] => [op x y]
    | _, _ => []
    end.

(** Modelled from the spec: [lax._variadic_reduction_jaxpr] (not under
    src/) traces the combiner on two copies of the initial values'
    structure and returns the sub-program and the structure of its
    outputs; the elementwise functions accept one array per side. *)
Definition _variadic_reduction_jaxpr {T : Type} `{Dtype T}
           (c : computation T) (n_avals : nat)
  : result (jaxpr T * nat) :=
  match c with
  | add => if (n_avals =? 1)%nat
           then Ok (mk_jaxpr false (scalar_region sadd), 1%nat)
           else Raise TypeError
  | max => if (n_avals =? 1)%nat
           then Ok (mk_jaxpr false (scalar_region smax), 1%nat)
           else Raise TypeError
  | min => if (n_avals =? 1)%nat
           then Ok (mk_jaxpr false (scalar_region smin), 1%nat)
           else Raise TypeError
  | callable e n f => Ok (mk_jaxpr e f, n)
  end.

Definition comparison_eqb (p q : comparison_primitive) : bool :=
  match p, q with
  | ge_p, ge_p | le_p, le_p | gt_p, gt_p | lt_p, lt_p => true
  | _, _ => false
  end.

(** [select_prim.bind(x, y)] on scalars. *)
Definition bind_comparison {T : Type} `{Dtype T}
           (p : comparison_primitive) (x y : T) : bool :=
  match p with
  | ge_p => sge x y
  | le_p => sle x y
  | gt_p => sgt x y
  | lt_p => slt x y
  end.

(** Position [p] of a dimension of extent [n] that was dilated by
    [dilation] and shifted by [lo]: the element of the original dimension
    that sits there, if one does.  A dilation of [d] leaves [d - 1] holes
    between neighbours; a negative [lo] crops. *)
Definition dilated_source (n lo dilation p : Z) : option Z :=
  let q := p - lo in
  if (0 <=? q) && (q <? core.dilate_dim n dilation)
     && (q mod dilation =? 0)
  then Some (q / dilation) else None.

Fixpoint source_index (s : list Z) (lo_dilation : list (Z * Z))
         (p : list Z) : option (list Z) :=
  match s, lo_dilation, p with
  | [], [], [] => Some []
  | n :: s', (lo, d) :: c', x :: p' =>
      match dilated_source n lo d x, source_index s' c' p' with
      | Some q, Some qs => Some (q :: qs)
      | _, _ => None
      end
  | _, _, _ => None
  end.

(** Modelled from the spec: the shape rule of [lax.pad] (not under src/).
    A padding configuration gives (low, high, interior) per dimension;
    interior padding [i] puts [i] holes between neighbours ("zero-fill
    gaps of stride-1 between original cotangent elements"), low and high
    padding add to the dilated extent and may be negative. *)
Definition _pad_shape_rule (operand_shape : list Z)
           (padding_config : list (Z * Z * Z)) : result (list Z) :=
  if negb (length padding_config =? length operand_shape)%nat
  then Raise ValueError
  else if negb (forallb (fun '(_, _, i) => 0 <=? i) padding_config)
  then Raise ValueError
  else
    let out := map2 (fun '(l, h, i) d => l + h + core.dilate_dim d (i + 1))
                    padding_config operand_shape in
    if forallb (fun d => 0 <=? d) out then Ok out else Raise ValueError.

(** Modelled from the spec: [lax.pad] (not under src/): the operand's
    elements at their dilated, shifted positions, [padding_value]
    everywhere else. *)
Definition pad {T : Type} (operand : array T) (padding_value : T)
           (padding_config : list (Z * Z * Z)) : result (array T) :=
  out_shape <- _pad_shape_rule (shape operand) padding_config ;;
  Ok (mk_array out_shape
        (fun p =>
           match source_index (shape operand)
                   (map (fun '(l, _, i) => (l, i + 1)) padding_config) p
           with
           | Some q => get operand q
           | None => padding_value
           end)).

End lax.

Module slicing.

(** Modelled from the spec: the shape rule of [slicing.slice] (not under
    src/): start and limit indices within the operand, positive strides,
    extent [limit - start] without strides and
    [stride_shape(limit - start, 1, stride)] with them. *)
Definition _slice_shape_rule (operand_shape start_indices limit_indices
                              : list Z) (strides : option (list Z))
  : result (list Z) :=
  _ <- lax._check_shapelike false start_indices ;;
  _ <- lax._check_shapelike false limit_indices ;;
  if negb (length operand_shape =? length start_indices)%nat
  then Raise TypeError
  else if negb (length start_indices =? length limit_indices)%nat
  then Raise TypeError
  else if negb (forallb (fun '(d, l) => l <=? d)
                        (combine operand_shape limit_indices))
  then Raise TypeError
  else if negb (forallb (fun '(l, s) => s <=? l)
                        (combine limit_indices start_indices))
  then Raise TypeError
  else
    let diff := map2 Z.sub limit_indices start_indices in
    match strides with
    | None => Ok diff
    | Some st =>
        _ <- lax._check_shapelike false st ;;
        if negb (length st =? length operand_shape)%nat
        then Raise TypeError
        else if negb (forallb (fun s => 0 <? s) st) then Raise TypeError
        else core.stride_shape diff (map (fun _ => 1) diff) st
    end.

(** Modelled from the spec: [slicing.slice] (not under src/): element
    [i] of the result is element [start + i * stride] of the operand
    ("slices the result back down to the original region"). *)
Definition slice {T : Type} (operand : array T)
           (start_indices limit_indices : list Z)
           (strides : option (list Z)) : result (array T) :=
  out_shape <- _slice_shape_rule (shape operand) start_indices
                 limit_indices strides ;;
  let st := match strides with
            | Some st => st
            | None => map (fun _ => 1) start_indices
            end in
  Ok (mk_array out_shape
        (fun i => get operand (map2 Z.add start_indices (map2 Z.mul i st)))).

End slicing.

Module convolution.

(** Modelled from the spec: [convolution._conv_general_vjp_lhs_padding]
    (not under src/), "the transpose of the forward padding function":
    the padding of the stride-dilated cotangent under which sliding the
    dilated window over it visits every element of the (base-dilated)
    input once per window position that covered it. *)
Definition _conv_general_vjp_lhs_padding
           (in_shape window_dimensions window_strides out_shape : list Z)
           (padding : list (Z * Z)) (lhs_dilation rhs_dilation : list Z)
  : result (list (Z * Z)) :=
  lhs_dilated_shape <- lax._dilate_shape in_shape lhs_dilation ;;
  rhs_dilated_shape <- lax._dilate_shape window_dimensions rhs_dilation ;;
  out_dilated_shape <- lax._dilate_shape out_shape window_strides ;;
  pad_before <- util.safe_map2 (fun r '(lo, _) => Ok (r - lo - 1))
                  rhs_dilated_shape padding ;;
  lr <- util.safe_map2 (fun l r => Ok (l + r - 1))
          lhs_dilated_shape rhs_dilated_shape ;;
  pad_after <- util.safe_map3 (fun x o b => Ok (x - o - b))
                 lr out_dilated_shape pad_before ;;
  util.safe_map2 (fun b a => Ok (b, a)) pad_before pad_after.

End convolution.

Module batching.

(** Modelled from the spec: [batching.bdim_at_front] (not under src/)
    brings the batch axis of an argument to the front, and gives an
    argument without one a leading axis of the batch size along which it
    repeats. *)
Definition bdim_at_front {T : Type} (x : array T) (bdim : option nat)
           (size : Z) : array T :=
  match bdim with
  | None => mk_array (size :: shape x) (fun idx => get x (tl idx))
  | Some b =>
      mk_array (nth b (shape x) 0 :: remove_at b (shape x))
               (fun idx => match idx with
                           | i :: rest => get x (insert_at b i rest)
                           | [] => get x []
                           end)
  end.

End batching.

Module ad.

(** A cotangent is an array or the symbolic zero [ad_util.Zero(aval)] of
    a given shape. *)
Inductive cotangent (T : Type) : Type :=
| Zero (aval_shape : list Z)
| Cotangent (a : array T).
Arguments Zero {T} aval_shape.
Arguments Cotangent {T} a.

(** An argument of a transpose rule: a known value, or the placeholder
    [UndefinedPrimal(aval)] of the input that is being differentiated. *)
Inductive primal (T : Type) : Type :=
| UndefinedPrimal (aval_shape : list Z)
| Primal (a : array T).
Arguments UndefinedPrimal {T} aval_shape.
Arguments Primal {T} a.

Definition is_undefined_primal {T : Type} (x : primal T) : bool :=
  match x with UndefinedPrimal _ => true | Primal _ => false end.

End ad.

Module mhlo.
Section ops.
Context {T : Type} `{Dtype T}.

(** Modelled from the spec: the element semantics of the backend's
    windowed reduction (executed outside the repository).  Output element
    [j] folds the reducer, from the initial values, over the window at
    [j]: window entry [k] sits at position [j * stride + k *
    window_dilation] of the base-dilated, padded operand; "the padded /
    initial slots" hold the initial values.  All operands share one
    geometry, read off the first. *)
Definition window_position (j window_strides k window_dilations : list Z)
  : list Z :=
  map2 Z.add (map2 Z.mul j window_strides) (map2 Z.mul k window_dilations).

Definition window_elems (operands : list (array T)) (init_values : list T)
           (padding : list (Z * Z)) (base_dilations : list Z)
           (pos : list Z) : list T :=
  match operands with
  | [] => init_values
  | op0 :: _ =>
      match lax.source_index (shape op0)
              (map2 (fun '(lo, _) d => (lo, d)) padding base_dilations) pos
      with
      | Some q => map (fun op => get op q) operands
      | None => init_values
      end
  end.

Definition reduce_at (operands : list (array T)) (init_values : list T)
           (window_dimensions window_strides base_dilations
            window_dilations : list Z) (padding : list (Z * Z))
           (reducer : list T -> list T -> list T) (j : list Z) : list T :=
  fold_left
    (fun acc k =>
       reducer acc
         (window_elems operands init_values padding base_dilations
            (window_position j window_strides k window_dilations)))
    (indices window_dimensions) init_values.

Definition ReduceWindowOp (out_shapes : list (list Z))
           (operands : list (array T)) (init_values : list T)
           (window_dimensions window_strides base_dilations
            window_dilations : list Z) (padding : list (Z * Z))
           (reducer : list T -> list T -> list T) : list (array T) :=
  map (fun '(n, out_shape) =>
         mk_array out_shape
           (fun j => nth n (reduce_at operands init_values
                              window_dimensions window_strides
                              base_dilations window_dilations padding
                              reducer j) zero))
      (combine (seq 0 (length out_shapes)) out_shapes).

(** Modelled from the spec: the element semantics of the backend's
    select-and-scatter.  For each source element [j], the window at [j]
    is scanned in row-major order over the entries that fall inside the
    operand; [select(selected, candidate)] keeps the selected entry when
    true and moves to the candidate otherwise.  The source element is
    then combined by [scatter] into the result at the selected position;
    positions start from [init_value]. *)
Definition select_step (operand : array T) (select : T -> T -> bool)
           (window_strides : list Z) (padding : list (Z * Z))
           (j : list Z) (st : option (list Z * T)) (k : list Z)
  : option (list Z * T) :=
  let pos := map2 Z.sub (map2 Z.add (map2 Z.mul j window_strides) k)
                  (map fst padding) in
  if in_bounds (shape operand) pos then
    let v := get operand pos in
    match st with
    | None => Some (pos, v)
    | Some (_, u) => if select u v then st else Some (pos, v)
    end
  else st.

Definition selected (operand : array T) (select : T -> T -> bool)
           (window_dimensions window_strides : list Z)
           (padding : list (Z * Z)) (j : list Z) : option (list Z * T) :=
  fold_left (select_step operand select window_strides padding j)
            (indices window_dimensions) None.

Definition SelectAndScatterOp (operand source : array T) (init_value : T)
           (select : T -> T -> bool) (scatter : T -> T -> T)
           (window_dimensions window_strides : list Z)
           (padding : list (Z * Z)) : array T :=
  mk_array (shape operand)
    (fun i =>
       fold_left
         (fun acc j =>
            match selected operand select window_dimensions
                    window_strides padding j with
            | Some (p, _) =>
                if index_eqb p i then scatter acc (get source j) else acc
            | None => acc
            end)
         (indices (shape source)) init_value).

End ops.
End mhlo.

(** ** Shape inference (windowed_reductions.py, lines 414-423) *)

Definition reduce_window_shape_tuple
           (operand_shape window_dimensions window_strides : list Z)
           (padding : list (Z * Z))
           (base_dilation window_dilation : option (list Z))
  : result (list Z) :=
  operand_shape <-
    match base_dilation with
    | Some bd => lax._dilate_shape operand_shape bd
    | None => Ok operand_shape
    end ;;
  window_dimensions <-
    match window_dilation with
    | Some wd => lax._dilate_shape window_dimensions wd
    | None => Ok window_dimensions
    end ;;
  let (pads_lo, pads_hi) := util.unzip2 padding in
  operand_padded <- core.sum_shapes operand_shape pads_lo pads_hi ;;
  core.stride_shape operand_padded window_dimensions window_strides.

(** Lines 383-412.  The operand is given by its shape. *)
Definition _common_reduce_window_shape_rule
           (operand_shape window_dimensions window_strides : list Z)
           (padding : list (Z * Z)) (base_dilation window_dilation : list Z)
  : result (list Z) :=
  _ <- lax._check_shapelike true window_dimensions ;;
  _ <- lax._check_shapelike true window_strides ;;
  _ <- lax._check_shapelike false base_dilation ;;
  _ <- lax._check_shapelike false window_dilation ;;
  if negb (length operand_shape =? length window_dimensions)%nat
  then Raise TypeError
  else if negb (length window_strides =? length window_dimensions)%nat
  then Raise TypeError
  else if negb (length base_dilation =? length window_dimensions)%nat
  then Raise TypeError
  else if negb (length window_dilation =? length window_dimensions)%nat
  then Raise TypeError
  else reduce_window_shape_tuple operand_shape window_dimensions
         window_strides padding (Some base_dilation) (Some window_dilation).

(** ** The primitives and their rules *)

(** The specialized window reducers the fast path can pick. *)
Inductive monoid_reducer : Type :=
| use_reduce_window_sum
| use_reduce_window_max
| use_reduce_window_min.

Definition ones (n : nat) : list Z := repeat 1 n.

Definition default_dilation (dilation : option (list Z))
           (window_dimensions : list Z) : list Z :=
  match dilation with
  | None => ones (length window_dimensions)
  | Some d => d
  end.

Section primitives.
Context {T : Type} `{Dtype T}.

(** The lowerings of [select_and_scatter_add_p] differ by platform:
    [expand_padding=True] is registered for cpu and gpu,
    [expand_padding=False] for every other platform. *)
Variable platform_expand_padding : bool.

(** *** Specialized reductions: shape rules and lowering *)

(** Lines 321-328. *)
Definition _reduce_window_sum_shape_rule (operand : array T)
           (window_dimensions window_strides : list Z)
           (padding : list (Z * Z)) (base_dilation window_dilation : list Z)
  : result (list Z) :=
  if negb is_number then Raise TypeError
  else _common_reduce_window_shape_rule (shape operand) window_dimensions
         window_strides padding base_dilation window_dilation.

(** Lines 443-462: one operand, one initial value, the reducer region
    applies [reduce_op] to the region's two arguments. *)
Definition _reduce_window_lower (reduce_op : T -> T -> T) (init_value : T)
           (aval_out : list Z) (operand : array T)
           (window_dimensions window_strides : list Z)
           (padding : list (Z * Z)) (base_dilation window_dilation : list Z)
  : result (array T) :=
  match mhlo.ReduceWindowOp [aval_out] [operand] [init_value]
          window_dimensions window_strides base_dilation window_dilation
          padding (lax.scalar_region reduce_op) with
  | [out] => Ok out
  | _ => Raise ValueError
  end.

(** [reduce_window_sum_p.bind]: shape rule (lines 367-368), then the
    lowering registered at lines 464-465. *)
Definition reduce_window_sum_p_bind (operand : array T)
           (window_dimensions window_strides : list Z)
           (padding : list (Z * Z)) (base_dilation window_dilation : list Z)
  : result (array T) :=
  aval_out <- _reduce_window_sum_shape_rule operand window_dimensions
                window_strides padding base_dilation window_dilation ;;
  _reduce_window_lower sadd zero aval_out operand window_dimensions
    window_strides padding base_dilation window_dilation.

(** [reduce_window_max_p.bind]: lines 425-426 and 468-469. *)
Definition reduce_window_max_p_bind (operand : array T)
           (window_dimensions window_strides : list Z)
           (padding : list (Z * Z)) (base_dilation window_dilation : list Z)
  : result (array T) :=
  aval_out <- _common_reduce_window_shape_rule (shape operand)
                window_dimensions window_strides padding base_dilation
                window_dilation ;;
  _reduce_window_lower smax max_identity aval_out operand
    window_dimensions window_strides padding base_dilation window_dilation.

(** [reduce_window_min_p.bind]: lines 432-433 and 466-467. *)
Definition reduce_window_min_p_bind (operand : array T)
           (window_dimensions window_strides : list Z)
           (padding : list (Z * Z)) (base_dilation window_dilation : list Z)
  : result (array T) :=
  aval_out <- _common_reduce_window_shape_rule (shape operand)
                window_dimensions window_strides padding base_dilation
                window_dilation ;;
  _reduce_window_lower smin min_identity aval_out operand
    window_dimensions window_strides padding base_dilation window_dilation.

(** Lines 114-127. *)
Definition _reduce_window_sum (operand : array T)
           (window_dimensions window_strides : list Z)
           (padding : list (Z * Z))
           (base_dilation window_dilation : option (list Z))
  : result (array T) :=
  let base_dilation := default_dilation base_dilation window_dimensions in
  let window_dilation :=
    default_dilation window_dilation window_dimensions in
  reduce_window_sum_p_bind operand window_dimensions window_strides
    padding base_dilation window_dilation.

(** Lines 148-161. *)
Definition _reduce_window_max (operand : array T)
           (window_dimensions window_strides : list Z)
           (padding : list (Z * Z))
           (base_dilation window_dilation : option (list Z))
  : result (array T) :=
  let base_dilation := default_dilation base_dilation window_dimensions in
  let window_dilation :=
    default_dilation window_dilation window_dimensions in
  reduce_window_max_p_bind operand window_dimensions window_strides
    padding base_dilation window_dilation.

(** Lines 163-176. *)
Definition _reduce_window_min (operand : array T)
           (window_dimensions window_strides : list Z)
           (padding : list (Z * Z))
           (base_dilation window_dilation : option (list Z))
  : result (array T) :=
  let base_dilation := default_dilation base_dilation window_dimensions in
  let window_dilation :=
    default_dilation window_dilation window_dimensions in
  reduce_window_min_p_bind operand window_dimensions window_strides
    padding base_dilation window_dilation.

(** The primitive a specialized reducer binds. *)
Definition specialized_bind (r : monoid_reducer)
  : array T -> list Z -> list Z -> list (Z * Z) -> list Z -> list Z ->
    result (array T) :=
  match r with
  | use_reduce_window_sum => reduce_window_sum_p_bind
  | use_reduce_window_max => reduce_window_max_p_bind
  | use_reduce_window_min => reduce_window_min_p_bind
  end.

(** The initial value the lowering of a specialized primitive hands to the
    backend (lines 464-469). *)
Definition specialized_identity (r : monoid_reducer) : T :=
  match r with
  | use_reduce_window_sum => zero
  | use_reduce_window_max => max_identity
  | use_reduce_window_min => min_identity
  end.

(** The reducer of the region a specialized lowering builds (lines
    464-469). *)
Definition specialized_op (r : monoid_reducer) : T -> T -> T :=
  match r with
  | use_reduce_window_sum => sadd
  | use_reduce_window_max => smax
  | use_reduce_window_min => smin
  end.

Definition apply_monoid_reducer (r : monoid_reducer)
  : array T -> list Z -> list Z -> list (Z * Z) ->
    option (list Z) -> option (list Z) -> result (array T) :=
  match r with
  | use_reduce_window_sum => _reduce_window_sum
  | use_reduce_window_max => _reduce_window_max
  | use_reduce_window_min => _reduce_window_min
  end.

(** *** The generic reduction *)

(** Lines 241-257.  All arrays are of the one dtype [T], so the dtype
    comparison of operands and initial values always succeeds. *)
Definition _reduce_window_abstract_eval_rule (avals : list (list Z))
           (window_dimensions window_strides : list Z)
           (padding : list (Z * Z)) (base_dilation window_dilation : list Z)
  : result (list (list Z)) :=
  let operand_avals := firstn (length avals / 2) avals in
  let init_val_avals := skipn (length avals / 2) avals in
  if existsb (fun v => negb (length v =? 0)%nat) init_val_avals
  then Raise TypeError
  else
    match operand_avals with
    | [] => Raise IndexError
    | operand0 :: _ =>
        out_shape <- _common_reduce_window_shape_rule operand0
                       window_dimensions window_strides padding
                       base_dilation window_dilation ;;
        Ok (map (fun _ => out_shape) operand_avals)
    end.

(** Lines 293-316. *)
Definition _generic_reduce_window_lower (avals_out : list (list Z))
           (args : list (array T)) (jaxpr : lax.jaxpr T)
           (window_dimensions window_strides : list Z)
           (padding : list (Z * Z)) (base_dilation window_dilation : list Z)
  : result (list (array T)) :=
  let operands := firstn (length args / 2) args in
  let init_values := skipn (length args / 2) args in
  if lax.effects jaxpr then Raise NotImplementedError
  else Ok (mhlo.ReduceWindowOp avals_out operands
             (map (fun v => get v []) init_values)
             window_dimensions window_strides base_dilation
             window_dilation padding (lax.eval_jaxpr jaxpr)).

(** [reduce_window_p.bind]: abstract evaluation (line 290), then the
    lowering registered at line 318. *)
Definition reduce_window_p_bind (args : list (array T))
           (jaxpr : lax.jaxpr T)
           (window_dimensions window_strides : list Z)
           (padding : list (Z * Z)) (base_dilation window_dilation : list Z)
  : result (list (array T)) :=
  avals_out <- _reduce_window_abstract_eval_rule (map shape args)
                 window_dimensions window_strides padding base_dilation
                 window_dilation ;;
  _generic_reduce_window_lower avals_out args jaxpr window_dimensions
    window_strides padding base_dilation window_dilation.

(** *** The monoid fast path and the public entry point *)

(** Lines 97-112. *)
Definition _get_monoid_window_reducer (monoid_op : lax.computation T)
           (xs : list (core.value T)) : option monoid_reducer :=
  match xs with
  | [x] =>
      match core.get_aval x with
      | core.ConcreteArray val =>
          if (length (shape val) =? 0)%nat then
            match monoid_op with
            | lax.add =>
                if eqv (get val []) zero
                then Some use_reduce_window_sum else None
            | lax.max =>
                if eqv (get val []) max_identity
                then Some use_reduce_window_max else None
            | lax.min =>
                if eqv (get val []) min_identity
                then Some use_reduce_window_min else None
            | lax.callable _ _ _ => None
            end
          else None
      | core.ShapedArray _ => None
      end
  | _ => None
  end.

(** Lines 46-95.  Operands and initial values are given flattened, and
    of a tree structure only the number of leaves is kept: structures of
    equally many leaves are not told apart.  The padding is given in its
    explicit form; the branch of lines 65-70, which resolves a padding
    string through [lax.padtype_to_pads], is not embedded.  A callable
    combiner is given as it is traced ([lax.callable]); a combiner whose
    tracing raises is not represented. *)
Definition reduce_window (operand : list (array T))
           (init_value : list (core.value T))
           (computation : lax.computation T)
           (window_dimensions window_strides : list Z)
           (padding : list (Z * Z))
           (base_dilation window_dilation : option (list Z))
  : result (list (array T)) :=
  let flat_operands := operand in
  let operand_tree := length operand in
  let flat_init_values := init_value in
  let init_value_tree := length init_value in
  if negb (operand_tree =? init_value_tree)%nat then Raise ValueError
  else if (length flat_operands =? 0)%nat then Raise ValueError
  else if negb (length flat_operands =? length flat_init_values)%nat
  then Raise ValueError
  else
    let base_dilation := default_dilation base_dilation window_dimensions in
    let window_dilation :=
      default_dilation window_dilation window_dimensions in
    match _get_monoid_window_reducer computation flat_init_values with
    | Some monoid_reducer =>
        match operand with
        | [x] =>
            out <- apply_monoid_reducer monoid_reducer x window_dimensions
                     window_strides padding (Some base_dilation)
                     (Some window_dilation) ;;
            Ok [out]
        | _ => Raise TypeError
        end
    | None =>
        '(jaxpr, out_tree) <-
          lax._variadic_reduction_jaxpr computation
            (length flat_init_values) ;;
        if negb (operand_tree =? out_tree)%nat then Raise ValueError
        else
          reduce_window_p_bind
            (flat_operands ++ map core.runtime flat_init_values) jaxpr
            window_dimensions window_strides padding base_dilation
            window_dilation
    end.

(** *** select_and_scatter and select_and_scatter_add *)

(** Lines 473-483. *)
Definition _select_and_scatter_shape_rule (operand : array T)
           (window_dimensions window_strides : list Z) : result (list Z) :=
  _ <- lax._check_shapelike false window_dimensions ;;
  _ <- lax._check_shapelike false window_strides ;;
  if negb (length window_dimensions =? length window_strides)%nat
  then Raise TypeError
  else Ok (shape operand).

(** Lines 178-191, with [select_and_scatter_p.bind] as its shape rule
    followed by the lowering of lines 488-521; the select and scatter
    functions handed in by this file are effect free. *)
Definition _select_and_scatter (operand : array T)
           (select : T -> T -> bool)
           (window_dimensions window_strides : list Z)
           (padding : list (Z * Z)) (source : array T) (init_value : T)
           (scatter : T -> T -> T) : result (array T) :=
  out_shape <- _select_and_scatter_shape_rule operand window_dimensions
                 window_strides ;;
  let out := mhlo.SelectAndScatterOp operand source init_value select
               scatter window_dimensions window_strides padding in
  Ok (mk_array out_shape (get out)).

(** The identity of a select predicate: the max-identity for >=, the
    min-identity otherwise (lines 594-595 and 805-806). *)
Definition select_identity (select_prim : lax.comparison_primitive) : T :=
  if lax.comparison_eqb select_prim lax.ge_p
  then max_identity else min_identity.

(** Lines 585-607. *)
Definition _select_and_scatter_add_impl (source operand : array T)
           (select_prim : lax.comparison_primitive)
           (window_dimensions window_strides : list Z)
           (padding : list (Z * Z)) (expand_padding : bool)
  : result (array T) :=
  let select := fun x y => lax.bind_comparison select_prim x y in
  let scatter := if is_bool then sor else sadd in
  if expand_padding then
    let operand_shape := shape operand in
    let original_padding := padding in
    let identity := if lax.comparison_eqb select_prim lax.ge_p
                    then max_identity else min_identity in
    let pads := map (fun '(lo, hi) => (lo, hi, 0)) padding in
    operand <- lax.pad operand identity pads ;;
    let padding := map (fun _ => (0, 0)) padding in
    out <- _select_and_scatter operand select window_dimensions
             window_strides padding source zero scatter ;;
    let start_indices := map (fun '(lo, hi) => lo) original_padding in
    stop_indices <- util.safe_map2 (fun '(lo, hi) d => Ok (lo + d))
                      original_padding operand_shape ;;
    slicing.slice out start_indices stop_indices None
  else
    _select_and_scatter operand select window_dimensions window_strides
      padding source zero scatter.

(** [select_and_scatter_add_p.bind]: the shape rule of lines 525-528
    returns the operand's shape unchecked; the lowering is the one
    registered for the platform (lines 609-619). *)
Definition _select_and_scatter_add (source operand : array T)
           (select_prim : lax.comparison_primitive)
           (window_dimensions window_strides : list Z)
           (padding : list (Z * Z)) : result (array T) :=
  _select_and_scatter_add_impl source operand select_prim
    window_dimensions window_strides padding platform_expand_padding.

(** The operand extended by the select identity, as the expand-padding
    lowering builds it. *)
Definition expanded_operand (operand : array T)
           (select_prim : lax.comparison_primitive)
           (padding : list (Z * Z)) : array T :=
  mk_array
    (map2 (fun '(l, h, i) d => l + h + core.dilate_dim d (i + 1))
          (map (fun '(lo, hi) => (lo, hi, 0)) padding) (shape operand))
    (fun p =>
       match lax.source_index (shape operand)
               (map (fun '(l, _, i) => (l, i + 1))
                    (map (fun '(lo, hi) => (lo, hi, 0)) padding)) p with
       | Some q => get operand q
       | None => if lax.comparison_eqb select_prim lax.ge_p
                 then max_identity else min_identity
       end).

(** *** select_and_gather_add *)

(** Lines 622-631. *)
Definition _select_and_gather_add_shape_rule (tangents operand : array T)
           (window_dimensions window_strides : list Z)
           (padding : list (Z * Z)) (base_dilation window_dilation : list Z)
  : result (list Z) :=
  if negb (index_eqb (shape tangents) (shape operand)) then Raise TypeError
  else _common_reduce_window_shape_rule (shape operand) window_dimensions
         window_strides padding base_dilation window_dilation.

(** Lines 756-772. *)
Definition _select_and_gather_add_using_variadic_reducewindow
           (tangents operand : array T)
           (select_prim : lax.comparison_primitive)
           (window_dimensions window_strides : list Z)
           (padding : list (Z * Z)) (base_dilation window_dilation : list Z)
  : result (array T) :=
  let reducer := fun x y : list T =>
    match x, y with
    | [kx; vx], [ky; vy] =>
        let which := lax.bind_comparison select_prim kx ky in
        [if which then kx else ky; if which then vx else vy]
    | _, _ => []
    end in
  if negb (lax.comparison_eqb select_prim lax.ge_p
           || lax.comparison_eqb select_prim lax.le_p)
  then Raise AssertionError
  else
    let init := if lax.comparison_eqb select_prim lax.ge_p
                then neg_inf else pos_inf in
    outs <- reduce_window [operand; tangents]
              [core.mk_value true (scalar init);
               core.mk_value true (scalar zero)]
              (lax.callable false 2 reducer) window_dimensions
              window_strides padding (Some base_dilation)
              (Some window_dilation) ;;
    match outs with
    | [_; out] => Ok out
    | _ => Raise ValueError
    end.

(** Lines 203-238, with [select_and_gather_add_p.bind] as its shape rule
    (lines 836-838) followed by the lowering registered for every
    platform but gpu (lines 845-847). *)
Definition _select_and_gather_add (tangents operand : array T)
           (select_prim : lax.comparison_primitive)
           (window_dimensions window_strides : list Z)
           (padding : list (Z * Z)) (base_dilation window_dilation : list Z)
  : result (array T) :=
  out_shape <- _select_and_gather_add_shape_rule tangents operand
                 window_dimensions window_strides padding base_dilation
                 window_dilation ;;
  out <- _select_and_gather_add_using_variadic_reducewindow tangents
           operand select_prim window_dimensions window_strides padding
           base_dilation window_dilation ;;
  Ok (mk_array out_shape (get out)).

(** Lines 373-380. *)
Definition _reduce_window_chooser_jvp_rule (prim : lax.reduction_primitive)
           (g operand : array T)
           (window_dimensions window_strides : list Z)
           (padding : list (Z * Z)) (base_dilation window_dilation : list Z)
  : result (array T) :=
  match prim with
  | lax.add_p => Raise AssertionError
  | lax.max_p | lax.min_p =>
      let select_prim := match prim with
                         | lax.max_p => lax.ge_p
                         | _ => lax.le_p
                         end in
      _select_and_gather_add g operand select_prim window_dimensions
        window_strides padding base_dilation window_dilation
  end.

(** *** Reverse-mode rules *)

(** Lines 330-347. *)
Definition _reduce_window_sum_transpose_rule (cotangent : array T)
           (operand : ad.primal T)
           (window_dimensions window_strides : list Z)
           (padding : list (Z * Z)) (base_dilation window_dilation : list Z)
  : result (list (array T)) :=
  match operand with
  | ad.Primal _ => Raise AssertionError
  | ad.UndefinedPrimal input_shape =>
      pads <- convolution._conv_general_vjp_lhs_padding input_shape
                window_dimensions window_strides (shape cotangent)
                padding base_dilation window_dilation ;;
      let ones := ones (length input_shape) in
      padding_config <-
        util.safe_map2 (fun '(lo, hi) stride => Ok (lo, hi, stride - 1))
          pads window_strides ;;
      pad_cotangent <- lax.pad cotangent zero padding_config ;;
      result <- _reduce_window_sum pad_cotangent window_dimensions
                  base_dilation (repeat (0, 0) (length input_shape))
                  (Some ones) (Some window_dilation) ;;
      if negb (index_eqb (shape result) input_shape)
      then Raise AssertionError
      else Ok [result]
  end.

(** The re-application of the windowed sum as the specification words it,
    "with swapped base/window dilation roles": the window dilation of the
    forward reduction in the place of the base dilation and its base
    dilation in the place of the window dilation (window dimensions,
    strides and padding as in the rule above). *)
Definition reapply_sum_with_swapped_dilations (pad_cotangent : array T)
           (input_shape window_dimensions : list Z)
           (base_dilation window_dilation : list Z) : result (array T) :=
  _reduce_window_sum pad_cotangent window_dimensions base_dilation
    (repeat (0, 0) (length input_shape))
    (Some window_dilation) (Some base_dilation).

Definition is_ge_or_le (select_prim : lax.comparison_primitive) : bool :=
  lax.comparison_eqb select_prim lax.le_p
  || lax.comparison_eqb select_prim lax.ge_p.

(** Lines 791-814. *)
Definition _select_and_gather_add_transpose (t : ad.cotangent T)
           (tangents operand : ad.primal T)
           (select_prim : lax.comparison_primitive)
           (window_dimensions window_strides : list Z)
           (padding : list (Z * Z)) (base_dilation window_dilation : list Z)
  : result (list (option (ad.cotangent T))) :=
  if negb (is_ge_or_le select_prim) then Raise AssertionError
  else
    match tangents, operand with
    | ad.UndefinedPrimal tangents_aval, ad.Primal operand =>
        if existsb (fun d => negb (d =? 1)) window_dilation
        then Raise NotImplementedError
        else
          match t with
          | ad.Zero _ => Ok [Some (ad.Zero tangents_aval); None]
          | ad.Cotangent t =>
              let has_base_dilation :=
                existsb (fun d => negb (d =? 1)) base_dilation in
              operand <-
                (if has_base_dilation then
                   let select_identity :=
                     if lax.comparison_eqb select_prim lax.ge_p
                     then max_identity else min_identity in
                   lax.pad operand select_identity
                     (map (fun d => (0, 0, d - 1)) base_dilation)
                 else Ok operand) ;;
              result <- _select_and_scatter_add t operand select_prim
                          window_dimensions window_strides padding ;;
              result <-
                (if has_base_dilation then
                   slicing.slice result
                     (repeat 0 (length (shape result))) (shape result)
                     (Some base_dilation)
                 else Ok result) ;;
              Ok [Some (ad.Cotangent result); None]
          end
    | _, _ => Raise AssertionError
    end.

(** *** Batching rules *)

(** Lines 349-365; [reduce_window] is the wrapper the rule is registered
    with ([_reduce_window_sum], [_reduce_window_max] or
    [_reduce_window_min]). *)
Definition _reduce_window_batch_rule
           (reduce_window :
              array T -> list Z -> list Z -> list (Z * Z) ->
              option (list Z) -> option (list Z) -> result (array T))
           (batched_args : list (array T)) (bdims : list (option nat))
           (window_dimensions window_strides : list Z)
           (padding : list (Z * Z)) (base_dilation window_dilation : list Z)
  : result (array T * option nat) :=
  match batched_args, bdims with
  | [operand], [bdim] =>
      let '(window_dimensions, window_strides, padding, base_dilation,
            window_dilation) :=
        match bdim with
        | Some bdim =>
            (insert_at bdim 1 window_dimensions,
             insert_at bdim 1 window_strides,
             insert_at bdim (0, 0) padding,
             insert_at bdim 1 base_dilation,
             insert_at bdim 1 window_dilation)
        | None =>
            (window_dimensions, window_strides, padding, base_dilation,
             window_dilation)
        end in
      operand <- reduce_window operand window_dimensions window_strides
                   padding (Some base_dilation) (Some window_dilation) ;;
      Ok (operand, bdim)
  | _, _ => Raise ValueError
  end.

(** [next(x.shape[ax] for x, ax in zip(operands, operand_bdims)
    if ax is not None)]. *)
Fixpoint first_batch_size (xs : list (array T * option nat)) : result Z :=
  match xs with
  | [] => Raise StopIteration
  | (x, Some ax) :: _ =>
      match nth_error (shape x) ax with
      | Some n => Ok n
      | None => Raise IndexError
      end
  | (_, None) :: rest => first_batch_size rest
  end.

Definition is_some {A : Type} (o : option A) : bool :=
  match o with Some _ => true | None => false end.

(** Lines 259-284. *)
Definition _generic_reduce_window_batch_rule
           (batched_args : list (array T)) (batch_dims : list (option nat))
           (jaxpr : lax.jaxpr T)
           (window_dimensions window_strides : list Z)
           (padding : list (Z * Z)) (base_dilation window_dilation : list Z)
  : result (list (array T) * list nat) :=
  let num_operands := (length batched_args / 2)%nat in
  let operands := firstn num_operands batched_args in
  let init_values := skipn num_operands batched_args in
  let operand_bdims := firstn num_operands batch_dims in
  let init_value_bdims := skipn num_operands batch_dims in
  if existsb is_some init_value_bdims then Raise NotImplementedError
  else
    pairs <- util.safe_map2 (fun x ax => Ok (x, ax))
               operands operand_bdims ;;
    size <- first_batch_size pairs ;;
    operands <- util.safe_map2
                  (fun arg bdim => Ok (batching.bdim_at_front arg bdim size))
                  operands operand_bdims ;;
    let window_dimensions := 1 :: window_dimensions in
    let window_strides := 1 :: window_strides in
    let padding := (0, 0) :: padding in
    let base_dilation := 1 :: base_dilation in
    let window_dilation := 1 :: window_dilation in
    outs <- reduce_window_p_bind (operands ++ init_values) jaxpr
              window_dimensions window_strides padding base_dilation
              window_dilation ;;
    Ok (outs, repeat 0%nat num_operands).

End primitives.

(** ** The wide-word packing of [_select_and_gather_add_lowering]

    Lines 633-686.  A scalar of a [nbits]-bit floating-point dtype is given
    by its bit pattern, an integer in [[0, 2^nbits)]; [BitcastConvertOp]
    between a float and the unsigned integer of its width keeps the
    pattern.  An unsigned integer of width [w] is an integer in
    [[0, 2^w)], and the operations wrap. *)

Module double_word.

Definition BitcastConvertOp (x : Z) : Z := x.
Definition ConvertOp (to_bits x : Z) : Z := x mod 2 ^ to_bits.
Definition ShiftLeftOp (bits x amount : Z) : Z :=
  if amount <? bits then Z.shiftl x amount mod 2 ^ bits else 0.
Definition ShiftRightLogicalOp (bits x amount : Z) : Z :=
  if amount <? bits then Z.shiftr x amount else 0.
Definition OrOp (x y : Z) : Z := Z.lor x y.

(** Line 644. *)
Definition double_word_reduction (nbits max_bits : Z) : bool :=
  nbits * 2 <=? max_bits.

Section packing.
Variable nbits : Z.
Let word_bits := nbits.
Let double_word_bits := nbits * 2.

(** Lines 662-671. *)
Definition pack (a b : Z) : Z :=
  let a := BitcastConvertOp a in
  let b := BitcastConvertOp b in
  let a := ConvertOp double_word_bits a in
  let b := ConvertOp double_word_bits b in
  let a := ShiftLeftOp double_word_bits a nbits in
  OrOp a b.

(** Lines 674-679. *)
Definition fst (t : Z) : Z :=
  let st := ShiftRightLogicalOp double_word_bits t nbits in
  BitcastConvertOp (ConvertOp word_bits st).

(** Lines 682-686. *)
Definition snd (t : Z) : Z :=
  BitcastConvertOp (ConvertOp word_bits t).
End packing.

End double_word.

(** ** A window geometry seen dimension by dimension

    The geometry of the data model is a record of parallel sequences; the
    same data read per dimension: extent of the operand, window size,
    stride, extent of the cotangent, low and high padding, base and window
    dilation. *)

Record window_dim : Type := mk_window_dim {
  d_extent : Z;
  d_window : Z;
  d_stride : Z;
  d_out : Z;
  d_pad_lo : Z;
  d_pad_hi : Z;
  d_bdil : Z;
  d_wdil : Z
}.

Fixpoint zip_window_dims (ns ws ss os : list Z) (ps : list (Z * Z))
         (bs ks : list Z) : list window_dim :=
  match ns, ws, ss, os, ps, bs, ks with
  | n :: ns', w :: ws', s :: ss', o :: os', (lo, hi) :: ps', b :: bs',
    k :: ks' =>
      mk_window_dim n w s o lo hi b k
      :: zip_window_dims ns' ws' ss' os' ps' bs' ks'
  | _, _, _, _, _, _, _ => []
  end.

(** ** Batched and unbatched arguments

    The operands [ops'] carry a batch axis of extent [n] at position [b];
    [ops] are their sub-arrays at position [t] of that axis. *)

Definition batch_related {T : Type} (b : nat) (n t : Z)
           (ops' ops : list (array T)) : Prop :=
  match ops', ops with
  | [], [] => True
  | o' :: _, o :: _ =>
      shape o' = insert_at b n (shape o) /\
      forall q, map (fun op => get op (insert_at b t q)) ops'
                = map (fun op => get op q) ops
  | _, _ => False
  end.

(** The unbatched argument at position [t] of the batch axis of a batched
    argument; an argument without a batch axis is its own. *)
Definition unbatched {T : Type} (t : Z) (x : array T) (bdim : option nat)
  : array T :=
  match bdim with
  | Some b => take b t x
  | None => x
  end.

(** ** Selections of the two lowerings of select_and_scatter_add

    The selection state of a window scan over the operand ([st_d]) and
    over the operand extended by the select identity ([st_e]) correspond:
    the extended scan holds a position [p'] whose shift back by the low
    padding is either the position the direct scan holds, with the same
    value, or a padding slot, which holds the identity while the direct
    scan holds nothing. *)

Definition select_related {T : Type} (operand : array T) (ident : T)
           (starts : list Z) (st_d st_e : option (list Z * T)) : Prop :=
  match st_e with
  | None => st_d = None
  | Some (p', v') =>
      length p' = length starts /\
      if in_bounds (shape operand) (map2 Z.sub p' starts)
      then st_d = Some (map2 Z.sub p' starts, v') /\
           v' = get operand (map2 Z.sub p' starts)
      else st_d = None /\ v' = ident
  end.

(** ** The dtype float32

    IEEE 754 binary32 after the Standard Library's specification of
    floating-point numbers: 24 bits of precision, infinities at exponent
    128, signed zeros, one NaN. *)

Module float32.

Definition prec : Z := 24.
Definition emax : Z := 128.

Definition of_Z (z : Z) : spec_float := binary_normalize prec emax z 0 false.

Definition fmax (x y : spec_float) : spec_float :=
  match x, y with
  | S754_nan, _ | _, S754_nan => S754_nan
  | _, _ => if SFltb x y then y else x
  end.

Definition fmin (x y : spec_float) : spec_float :=
  match x, y with
  | S754_nan, _ | _, S754_nan => S754_nan
  | _, _ => if SFltb y x then y else x
  end.

(** [bitwise_or] has no meaning on a floating-point dtype and is never
    selected for one ([is_bool] is false). *)
#[global] Instance dtype : Dtype spec_float := {|
  zero := S754_zero false;
  neg_inf := S754_infinity true;
  pos_inf := S754_infinity false;
  max_identity := S754_infinity true;
  min_identity := S754_infinity false;
  is_number := true;
  is_bool := false;
  eqv := SFeqb;
  sadd := SFadd prec emax;
  smax := fmax;
  smin := fmin;
  sor := fun x _ => x;
  sge := fun x y => SFleb y x;
  sle := SFleb;
  sgt := fun x y => SFltb y x;
  slt := SFltb
|}.

End float32.

(** The specification's dilation and floor, stated on their own. *)

Definition dilate (n d : Z) : Z := if 0 <? n then 1 + (n - 1) * d else 0.

(** [q] is the floor of the rational [x / s]. *)
Definition is_floor (x s q : Z) : Prop :=
  (0 < s -> s * q <= x < s * q + s) /\ (s < 0 -> s * q + s < x <= s * q).

(** The extent of a strided dimension: 0 when the extent is zero or
    smaller than the window, the quotient of the shape law plus one
    otherwise. *)
Definition strided (d w s : Z) : Z :=
  if (d =? 0) || (d <? w) then 0 else (d - w) / s + 1.

(** ** Further rules of the file *)

(** [lax._const(operand, 1)] and the scalar meaning of [lax.mul], for the
    dtypes that have a product. *)
Class Multiplicative (T : Type) : Type := {
  one : T;
  smul : T -> T -> T
}.

(** The bit-level view of a floating-point dtype: the width and the
    exponent width of [dtypes.finfo], the bit pattern [BitcastConvertOp]
    turns a scalar into, as an integer in [[0, 2^finfo_bits)], and back,
    and the backend's [ReducePrecisionOp]. *)
Class FloatBits (T : Type) : Type := {
  finfo_bits : Z;
  finfo_nexp : Z;
  to_bits : T -> Z;
  of_bits : Z -> T;
  reduce_precision : T -> Z -> Z -> T
}.

(** What [warnings.warn] records. *)
Inductive warning : Type := UserWarning.

Section further_rules.
Context {T : Type} `{Dtype T}.
Variable platform_expand_padding : bool.

(** Modelled from the spec: [lax._reduction_jaxpr] (not under src/) traces
    a binary function of scalars into a sub-program ("two scalar inputs
    per operand"); tracing an elementwise function of [lax] records no
    effect. *)
Definition _reduction_jaxpr (computation : T -> T -> T) : lax.jaxpr T :=
  lax.mk_jaxpr false (lax.scalar_region computation).

(** Lines 129-146. *)
Definition _reduce_window_prod `{Multiplicative T} (operand : array T)
           (window_dimensions window_strides : list Z)
           (padding : list (Z * Z))
           (base_dilation window_dilation : option (list Z))
  : result (array T) :=
  let init_value := scalar one in
  let jaxpr := _reduction_jaxpr smul in
  let base_dilation := default_dilation base_dilation window_dimensions in
  let window_dilation :=
    default_dilation window_dilation window_dimensions in
  outs <- reduce_window_p_bind [operand; init_value] jaxpr
            window_dimensions window_strides padding base_dilation
            window_dilation ;;
  match outs with
  | [out] => Ok out
  | _ => Raise ValueError
  end.

(** Lines 525-528. *)
Definition _select_and_scatter_add_shape_rule (source operand : array T)
  : list Z :=
  shape operand.

(** Lines 530-545.  A tangent is an array or the symbolic zero. *)
Definition _select_and_scatter_add_jvp (primals : array T * array T)
           (tangents : ad.cotangent T * ad.cotangent T)
           (select_prim : lax.comparison_primitive)
           (window_dimensions window_strides : list Z)
           (padding : list (Z * Z))
  : result (array T * ad.cotangent T) :=
  let '(source, operand) := primals in
  let '(g_source, g_operand) := tangents in
  val_out <- _select_and_scatter_add platform_expand_padding source operand
               select_prim window_dimensions window_strides padding ;;
  match g_source with
  | ad.Zero _ => Ok (val_out, ad.Zero (shape val_out))
  | ad.Cotangent g_source =>
      tangent_out <- _select_and_scatter_add platform_expand_padding
                       g_source operand select_prim window_dimensions
                       window_strides padding ;;
      Ok (val_out, ad.Cotangent tangent_out)
  end.

(** Lines 547-556. *)
Definition _select_and_scatter_add_transpose (t : ad.cotangent T)
           (source operand : ad.primal T)
           (select_prim : lax.comparison_primitive)
           (window_dimensions window_strides : list Z)
           (padding : list (Z * Z))
  : result (list (option (ad.cotangent T))) :=
  match source, operand with
  | ad.UndefinedPrimal source_aval, ad.Primal operand =>
      match t with
      | ad.Zero _ => Ok [Some (ad.Zero source_aval); None]
      | ad.Cotangent t =>
          let ones := ones (length window_dimensions) in
          source_t <- _select_and_gather_add t operand select_prim
                        window_dimensions window_strides padding ones
                        ones ;;
          Ok [Some (ad.Cotangent source_t); None]
      end
  | _, _ => Raise AssertionError
  end.

(** Lines 558-573. *)
Definition _select_and_scatter_add_batch_rule
           (batched_args : array T * array T)
           (batch_dims : option nat * option nat)
           (select_prim : lax.comparison_primitive)
           (window_dimensions window_strides : list Z)
           (padding : list (Z * Z)) : result (array T * nat) :=
  let '(source, operand) := batched_args in
  let '(s_bdim, o_bdim) := batch_dims in
  size <- first_batch_size [(source, s_bdim); (operand, o_bdim)] ;;
  let source := batching.bdim_at_front source s_bdim size in
  let operand := batching.bdim_at_front operand o_bdim size in
  let window_dimensions := 1 :: window_dimensions in
  let window_strides := 1 :: window_strides in
  let padding := (0, 0) :: padding in
  out <- _select_and_scatter_add platform_expand_padding source operand
           select_prim window_dimensions window_strides padding ;;
  Ok (out, 0%nat).

(** Lines 774-789. *)
Definition _select_and_gather_add_jvp (primals : array T * array T)
           (tangents : ad.cotangent T * ad.cotangent T)
           (select_prim : lax.comparison_primitive)
           (window_dimensions window_strides : list Z)
           (padding : list (Z * Z)) (base_dilation window_dilation : list Z)
  : result (array T * ad.cotangent T) :=
  let '(source, operand) := primals in
  let '(g_source, g_operand) := tangents in
  val_out <- _select_and_gather_add source operand select_prim
               window_dimensions window_strides padding base_dilation
               window_dilation ;;
  match g_source with
  | ad.Zero _ => Ok (val_out, ad.Zero (shape val_out))
  | ad.Cotangent g_source =>
      tangent_out <- _select_and_gather_add g_source operand select_prim
                       window_dimensions window_strides padding
                       base_dilation window_dilation ;;
      Ok (val_out, ad.Cotangent tangent_out)
  end.

(** Lines 816-833. *)
Definition _select_and_gather_add_batching_rule
           (batched_args : array T * array T)
           (batch_dims : option nat * option nat)
           (select_prim : lax.comparison_primitive)
           (window_dimensions window_strides : list Z)
           (padding : list (Z * Z)) (base_dilation window_dilation : list Z)
  : result (array T * nat) :=
  let '(t, x) := batched_args in
  let '(t_bdim, x_bdim) := batch_dims in
  size <- first_batch_size [(t, t_bdim); (x, x_bdim)] ;;
  let t := batching.bdim_at_front t t_bdim size in
  let x := batching.bdim_at_front x x_bdim size in
  let window_dimensions := 1 :: window_dimensions in
  let window_strides := 1 :: window_strides in
  let padding := (0, 0) :: padding in
  let base_dilation := 1 :: base_dilation in
  let window_dilation := 1 :: window_dilation in
  out <- _select_and_gather_add t x select_prim window_dimensions
           window_strides padding base_dilation window_dilation ;;
  Ok (out, 0%nat).

End further_rules.

(** ** The lowering of select_and_gather_add by packed words

    Lines 633-753, on scalars of a floating-point dtype [T]; a word is an
    unsigned integer, given by its value. *)

(** Lines 652-686: the packing of the wide-word strategy on scalars,
    which enter [double_word.pack] by their bit patterns. *)
Module wide_word.
Section packing.
Context {T : Type} `{FloatBits T}.

Definition pack (a b : T) : Z :=
  double_word.pack finfo_bits (to_bits a) (to_bits b).

Definition fst (t : Z) : T := of_bits (double_word.fst finfo_bits t).

Definition snd (t : Z) : T := of_bits (double_word.snd finfo_bits t).

End packing.
End wide_word.

(** Lines 688-731: the packing of the reduced-precision strategy. *)
Module half_word.
Section packing.
Context {T : Type} `{FloatBits T}.

Definition AndOp (x y : Z) : Z := Z.land x y.

Definition r_nbits : Z := finfo_bits / 2.

Definition nmant : Z := r_nbits - finfo_nexp - 1.

(** Lines 706-717. *)
Definition pack (a b : T) : Z :=
  let a := reduce_precision a finfo_nexp nmant in
  let b := reduce_precision b finfo_nexp nmant in
  let a := to_bits a in
  let b := to_bits b in
  let b := double_word.ShiftRightLogicalOp finfo_bits b r_nbits in
  double_word.OrOp a b.

(** Lines 720-723. *)
Definition fst (t : Z) : T :=
  let st := AndOp t (Z.shiftl (Z.shiftl 1 r_nbits - 1) r_nbits) in
  of_bits st.

(** Lines 726-731. *)
Definition snd (t : Z) : T :=
  of_bits (double_word.ShiftLeftOp finfo_bits t r_nbits).

End packing.
End half_word.

Section packed_lowering.
Context {T : Type} `{Dtype T} `{FloatBits T}.

(** Lines 633-753.  The result is the warnings emitted and the outcome;
    [out_aval] is the output shape the shape rule inferred. *)
Definition _select_and_gather_add_lowering (out_aval : list Z)
           (tangents operand : array T)
           (select_prim : lax.comparison_primitive)
           (window_dimensions window_strides : list Z)
           (padding : list (Z * Z)) (base_dilation window_dilation : list Z)
           (max_bits : Z) : list warning * result (array T) :=
  let nbits := finfo_bits in
  if negb (nbits <=? max_bits) then ([], Raise AssertionError)
  else
    let double_word_reduction :=
      double_word.double_word_reduction nbits max_bits in
    let '(warnings, pack, fst, snd) :=
      if double_word_reduction
      then ([], wide_word.pack, wide_word.fst, wide_word.snd)
      else ([UserWarning], half_word.pack, half_word.fst, half_word.snd) in
    if negb (lax.comparison_eqb select_prim lax.ge_p
             || lax.comparison_eqb select_prim lax.le_p)
    then (warnings, Raise AssertionError)
    else
      let init := if lax.comparison_eqb select_prim lax.ge_p
                  then neg_inf else pos_inf in
      let packed :=
        mk_array (shape operand)
          (fun i => pack (get operand i) (get tangents i)) in
      let which := if lax.comparison_eqb select_prim lax.ge_p
                   then lax.ge_p else lax.le_p in
      let reducer := fun x y : Z =>
        if lax.bind_comparison which (fst x) (fst y) then x else y in
      let rw :=
        mk_array out_aval
          (fun j => nth 0 (mhlo.reduce_at [packed] [pack init zero]
                             window_dimensions window_strides
                             base_dilation window_dilation padding
                             (lax.scalar_region reducer) j) 0) in
      (warnings, Ok (mk_array (shape rw) (fun j => snd (get rw j)))).

End packed_lowering.

(** ** The bit patterns of float32

    The interchange format of IEEE 754 binary32: one sign bit, 8 bits of
    biased exponent, 23 bits of fraction. *)

Module float32_bits.

Definition sign_bit (s : bool) : Z := if s then 2 ^ 31 else 0.

Definition encode (x : spec_float) : Z :=
  match x with
  | S754_zero s => sign_bit s
  | S754_infinity s => sign_bit s + 255 * 2 ^ 23
  | S754_nan => 255 * 2 ^ 23 + 2 ^ 22
  | S754_finite s m e =>
      sign_bit s +
      (if Zpos m <? 2 ^ 23 then Zpos m
       else (e + 150) * 2 ^ 23 + (Zpos m - 2 ^ 23))
  end.

Definition decode (w : Z) : spec_float :=
  let s := Z.testbit w 31 in
  let biased := (w / 2 ^ 23) mod 2 ^ 8 in
  let fraction := w mod 2 ^ 23 in
  if biased =? 255 then
    if fraction =? 0 then S754_infinity s else S754_nan
  else if biased =? 0 then
    match fraction with
    | Zpos m => S754_finite s m (-149)
    | _ => S754_zero s
    end
  else
    match fraction + 2 ^ 23 with
    | Zpos m => S754_finite s m (biased - 150)
    | _ => S754_nan
    end.

(** Modelled from the spec: the backend's precision reduction, "an
    explicit round mantissa to N bits primitive" that rounds and does not
    truncate: rounding to nearest, ties to even, into the format of
    [mantissa_bits] fraction bits and [exponent_bits] exponent bits; the
    rounded value is again a float32. *)
Definition round_mantissa (x : spec_float)
           (exponent_bits mantissa_bits : Z) : spec_float :=
  match x with
  | S754_finite s m e =>
      match binary_normalize (mantissa_bits + 1) (2 ^ (exponent_bits - 1))
              (if s then Zneg m else Zpos m) e s with
      | S754_finite s' m' e' =>
          binary_normalize float32.prec float32.emax
            (if s' then Zneg m' else Zpos m') e' s'
      | y => y
      end
  | _ => x
  end.

#[global] Instance float_bits : FloatBits spec_float := {|
  finfo_bits := 32;
  finfo_nexp := 8;
  to_bits := encode;
  of_bits := decode;
  reduce_precision := round_mantissa
|}.

#[global] Instance multiplicative : Multiplicative spec_float := {|
  one := float32.of_Z 1;
  smul := SFmul float32.prec float32.emax
|}.

End float32_bits.

(** ** Window geometries the shape rule accepts

    What lines 386-408 and, on the dilations, [lax._dilate_shape] (called
    at lines 418 and 420) check of a geometry for an operand of shape
    [operand_shape]: window dimensions, strides and dilations of at least
    one, and all four of the operand's rank. *)

Definition checked_geometry (operand_shape window_dimensions window_strides
                             base_dilation window_dilation : list Z) : Prop :=
  Forall (fun d => 1 <= d) window_dimensions /\
  Forall (fun d => 1 <= d) window_strides /\
  Forall (fun d => 1 <= d) base_dilation /\
  Forall (fun d => 1 <= d) window_dilation /\
  length operand_shape = length window_dimensions /\
  length window_strides = length window_dimensions /\
  length base_dilation = length window_dimensions /\
  length window_dilation = length window_dimensions.

(** ** The reducer of the variadic lowering on its own (lines 759-763) *)

Definition variadic_reducer {T : Type} `{Dtype T}
           (select_prim : lax.comparison_primitive) (x y : list T)
  : list T :=
  match x, y with
  | [kx; vx], [ky; vy] =>
      let which := lax.bind_comparison select_prim kx ky in
      [if which then kx else ky; if which then vx else vy]
  | _, _ => []
  end.

(** The initial key of a select predicate (lines 734 and 766). *)
Definition select_init {T : Type} `{Dtype T}
           (select_prim : lax.comparison_primitive) : T :=
  if lax.comparison_eqb select_prim lax.ge_p then neg_inf else pos_inf.

(** The padding pairs and base dilations as the backend reads them: low
    padding and dilation per dimension. *)
Definition base_layout (padding : list (Z * Z)) (base_dilation : list Z)
  : list (Z * Z) :=
  map2 (fun '(lo, _) d => (lo, d)) padding base_dilation.

(** A scalar whose bit pattern is a word of the dtype's width and is
    turned back into the scalar. *)
Definition exact_bits {T : Type} `{FloatBits T} (x : T) : Prop :=
  of_bits (to_bits x) = x /\ 0 <= to_bits x < 2 ^ finfo_bits.

(** ** The dtype bool

    NumPy's [bool_]: not a number dtype, with [False] for zero and for the
    max-identity, [True] for the min-identity and for what either
    infinity converts to, and the logical operations for the arithmetic
    ones. *)

Module bool_dtype.

Definition dtype : Dtype bool := {|
  zero := false;
  neg_inf := true;
  pos_inf := true;
  max_identity := false;
  min_identity := true;
  is_number := false;
  is_bool := true;
  eqv := Bool.eqb;
  sadd := orb;
  smax := orb;
  smin := andb;
  sor := orb;
  sge := fun x y => implb y x;
  sle := implb;
  sgt := fun x y => x && negb y;
  slt := fun x y => negb x && y
|}.

End bool_dtype.

(** * Properties *)

Lemma unzip2_length {A B : Type} (xys : list (A * B)) :
  length (fst (util.unzip2 xys)) = length xys /\
  length (snd (util.unzip2 xys)) = length xys.
Proof.
  induction xys as [|[x y] rest IH]; simpl; [now split|].
  destruct (util.unzip2 rest) as [xs ys]; simpl in *. lia.
Qed.

Lemma unzip2_nth {A B : Type} (xys : list (A * B)) (i : nat) (a : A) (b : B) :
  nth i (fst (util.unzip2 xys)) a = fst (nth i xys (a, b)) /\
  nth i (snd (util.unzip2 xys)) b = snd (nth i xys (a, b)).
Proof.
  revert i; induction xys as [|[x y] rest IH]; intros [|i]; simpl;
    try (now split).
  - destruct (util.unzip2 rest); now split.
  - specialize (IH i). destruct (util.unzip2 rest); simpl in *. exact IH.
Qed.

Lemma safe_map2_total {A B C : Type} (f : A -> B -> C)
      (xs : list A) (ys : list B) :
  length xs = length ys ->
  exists zs, util.safe_map2 (fun x y => Ok (f x y)) xs ys = Ok zs /\
             length zs = length xs /\
             forall i a b c, (i < length xs)%nat ->
                             nth i zs c = f (nth i xs a) (nth i ys b).
Proof.
  revert ys; induction xs as [|x xs IH]; intros [|y ys] Hlen;
    simpl in Hlen; try discriminate.
  - exists []. repeat split. intros; simpl in *; lia.
  - destruct (IH ys) as (zs & E & L & N); [lia|].
    exists (f x y :: zs). simpl. rewrite E. simpl. repeat split; [lia|].
    intros [|i] a b c Hi; simpl; [reflexivity|].
    apply N. simpl in Hi. lia.
Qed.

Lemma safe_map3_spec {A B C D : Type} (f : A -> B -> C -> result D)
      (g : A -> B -> C -> D) (xs : list A) (ys : list B) (zs : list C) :
  length xs = length ys -> length xs = length zs ->
  (forall i a b c, (i < length xs)%nat ->
     f (nth i xs a) (nth i ys b) (nth i zs c) =
     Ok (g (nth i xs a) (nth i ys b) (nth i zs c))) ->
  exists ws, util.safe_map3 f xs ys zs = Ok ws /\
             length ws = length xs /\
             forall i a b c d, (i < length xs)%nat ->
               nth i ws d = g (nth i xs a) (nth i ys b) (nth i zs c).
Proof.
  revert ys zs; induction xs as [|x xs IH]; intros [|y ys] [|z zs] Hy Hz Hf;
    simpl in Hy, Hz; try discriminate.
  - exists []. repeat split. intros; simpl in *; lia.
  - destruct (IH ys zs) as (ws & E & L & N); [lia|lia| |].
    + intros i a b c Hi. apply (Hf (S i) a b c). simpl. lia.
    + exists (g x y z :: ws).
      assert (H0 : f x y z = Ok (g x y z)).
      { apply (Hf 0%nat x y z). simpl. lia. }
      simpl. rewrite H0. simpl. rewrite E. simpl.
      repeat split; [lia|].
      intros [|i] a b c d Hi; simpl; [reflexivity|].
      apply N. simpl in Hi. lia.
Qed.

Lemma floor_div (x s : Z) : s <> 0 -> is_floor x s (x / s).
Proof.
  intros Hs. split; intros H.
  - pose proof (Z.div_mod x s Hs). pose proof (Z.mod_pos_bound x s H). lia.
  - pose proof (Z.div_mod x s Hs). pose proof (Z.mod_neg_bound x s H). lia.
Qed.

Lemma dilate_dim_dilate (n d : Z) : core.dilate_dim n d = dilate n d.
Proof. unfold core.dilate_dim, dilate. destruct (0 <? n); lia. Qed.

Lemma forallb_positive (l : list Z) :
  Forall (fun d => 1 <= d) l -> forallb (fun d => 0 <? d) l = true.
Proof.
  intros H. apply forallb_forall. intros x Hx.
  rewrite Forall_forall in H. apply Z.ltb_lt. specialize (H x Hx). lia.
Qed.

Lemma forallb_not_positive (l : list Z) :
  Exists (fun d => d <= 0) l -> forallb (fun d => 0 <? d) l = false.
Proof.
  intros H. apply Exists_exists in H. destruct H as (x & Hx & Hle).
  destruct (forallb (fun d => 0 <? d) l) eqn:E; [|reflexivity].
  rewrite forallb_forall in E. specialize (E x Hx).
  apply Z.ltb_lt in E. lia.
Qed.

(** With positive dilations, one per dimension, [lax._dilate_shape] is the
    dilation rule applied to every dimension. *)
Lemma dilate_shape_positive (s dilation : list Z) :
  Forall (fun d => 1 <= d) dilation -> length dilation = length s ->
  lax._dilate_shape s dilation =
  util.safe_map2 (fun d k => Ok (core.dilate_dim d k)) s dilation.
Proof.
  intros Hpos Hlen. unfold lax._dilate_shape.
  rewrite (forallb_positive _ Hpos). cbn [negb].
  replace (length s - length dilation)%nat with 0%nat by lia.
  reflexivity.
Qed.

Lemma dilate_shape_not_positive (s dilation : list Z) :
  Exists (fun d => d <= 0) dilation ->
  lax._dilate_shape s dilation = Raise TypeError.
Proof.
  intros H. unfold lax._dilate_shape.
  rewrite (forallb_not_positive _ H). reflexivity.
Qed.

Lemma stride_dim_strided (d w s : Z) :
  (s = 0 -> d = 0 \/ d < w) ->
  core.stride_dim d w s = Ok (strided d w s).
Proof.
  intros H. unfold core.stride_dim, strided, core.floordiv.
  destruct ((d =? 0) || (d <? w)) eqn:E; [reflexivity|].
  apply orb_false_iff in E. destruct E as [E1 E2].
  apply Z.eqb_neq in E1. apply Z.ltb_ge in E2.
  destruct (s =? 0) eqn:Es; [|reflexivity].
  apply Z.eqb_eq in Es. specialize (H Es). lia.
Qed.

Lemma stride_dim_zero_division (d w : Z) :
  d <> 0 -> w <= d -> core.stride_dim d w 0 = Raise ZeroDivisionError.
Proof.
  intros H1 H2. unfold core.stride_dim, core.floordiv.
  apply Z.eqb_neq in H1. apply Z.ltb_ge in H2. rewrite H1, H2. reflexivity.
Qed.

Lemma stride_dim_raises (d w s : Z) (e : exception) :
  core.stride_dim d w s = Raise e -> e = ZeroDivisionError.
Proof.
  unfold core.stride_dim, core.floordiv.
  destruct ((d =? 0) || (d <? w)); [discriminate|].
  destruct (s =? 0); cbn [bind]; congruence.
Qed.

Lemma stride_shape_strided (s w st : list Z) :
  length w = length s -> length st = length s ->
  (forall i, (i < length s)%nat ->
     nth i st 1 = 0 -> nth i s 0 = 0 \/ nth i s 0 < nth i w 0) ->
  exists out,
    core.stride_shape s w st = Ok out /\ length out = length s /\
    forall i, (i < length s)%nat ->
      nth i out 0 = strided (nth i s 0) (nth i w 0) (nth i st 1).
Proof.
  unfold core.stride_shape.
  revert w st; induction s as [|d s IH]; intros [|x w] [|y st] Hw Hst Hz;
    simpl in Hw, Hst; try discriminate.
  - exists []. repeat split. intros i Hi. simpl in Hi. lia.
  - destruct (IH w st) as (out & E & L & N); [lia|lia| |].
    + intros i Hi. apply (Hz (S i)). simpl. lia.
    + exists (strided d x y :: out). cbn [util.safe_map3].
      rewrite (stride_dim_strided d x y) by (apply (Hz 0%nat); simpl; lia).
      cbn [bind]. rewrite E. cbn [bind]. split; [reflexivity|].
      split; [simpl; lia|].
      intros [|i] Hi; [reflexivity|]. simpl. apply N. simpl in Hi. lia.
Qed.

Lemma stride_shape_zero_division (s w st : list Z) :
  length w = length s -> length st = length s ->
  (exists i, (i < length s)%nat /\ nth i st 1 = 0 /\
             nth i s 0 <> 0 /\ nth i w 0 <= nth i s 0) ->
  core.stride_shape s w st = Raise ZeroDivisionError.
Proof.
  unfold core.stride_shape.
  revert w st; induction s as [|d s IH]; intros [|x w] [|y st] Hw Hst Hex;
    simpl in Hw, Hst; try discriminate.
  - destruct Hex as (i & Hi & _). simpl in Hi. lia.
  - cbn [util.safe_map3].
    destruct (core.stride_dim d x y) as [q|e] eqn:E.
    + cbn [bind]. rewrite IH; [reflexivity|lia|lia|].
      destruct Hex as ([|i] & Hi & H0 & H1 & H2); simpl in *.
      * subst y. rewrite stride_dim_zero_division in E by assumption.
        discriminate.
      * exists i. repeat split; try assumption. lia.
    + cbn [bind]. f_equal. exact (stride_dim_raises _ _ _ _ E).
Qed.

(** With positive dilations [reduce_window_shape_tuple] strides the padded
    dilated extents by the dilated windows. *)
Lemma reduce_window_shape_tuple_strides
      (operand_shape window_dimensions window_strides : list Z)
      (padding : list (Z * Z)) (base_dilation window_dilation : list Z) :
  length window_dimensions = length operand_shape ->
  length padding = length operand_shape ->
  length base_dilation = length operand_shape ->
  length window_dilation = length operand_shape ->
  Forall (fun d => 1 <= d) base_dilation ->
  Forall (fun d => 1 <= d) window_dilation ->
  exists padded window,
    reduce_window_shape_tuple operand_shape window_dimensions window_strides
      padding (Some base_dilation) (Some window_dilation)
    = core.stride_shape padded window window_strides /\
    length padded = length operand_shape /\
    length window = length operand_shape /\
    forall i, (i < length operand_shape)%nat ->
      nth i padded 0 =
        dilate (nth i operand_shape 0) (nth i base_dilation 0)
        + fst (nth i padding (0, 0)) + snd (nth i padding (0, 0)) /\
      nth i window 0 =
        dilate (nth i window_dimensions 0) (nth i window_dilation 0).
Proof.
  intros Hw Hp Hb Hd Hbpos Hwpos.
  unfold reduce_window_shape_tuple.
  destruct (safe_map2_total core.dilate_dim operand_shape base_dilation)
    as (os & Eos & Los & Nos); [lia|].
  destruct (safe_map2_total core.dilate_dim window_dimensions window_dilation)
    as (wd & Ewd & Lwd & Nwd); [lia|].
  rewrite dilate_shape_positive, Eos by (assumption || lia). cbn [bind].
  rewrite dilate_shape_positive, Ewd by (assumption || lia). cbn [bind].
  pose proof (unzip2_length padding) as [Llo Lhi].
  pose proof (unzip2_nth padding) as Npad.
  destruct (util.unzip2 padding) as [pads_lo pads_hi].
  simpl in Llo, Lhi, Npad.
  destruct (safe_map3_spec (fun d l h => Ok (d + l + h))
              (fun d l h => d + l + h) os pads_lo pads_hi)
    as (opad & Eop & Lop & Nop); [lia|lia|reflexivity|].
  unfold core.sum_shapes. rewrite Eop. simpl.
  exists opad, wd. split; [reflexivity|]. split; [lia|]. split; [lia|].
  intros i Hi. split.
  - rewrite (Nop i 0 0 0 0) by lia.
    rewrite (Nos i 0 0 0) by lia.
    destruct (Npad i 0 0) as [-> ->].
    rewrite dilate_dim_dilate. reflexivity.
  - rewrite (Nwd i 0 0 0) by lia. apply dilate_dim_dilate.
Qed.

(** Without a clamped dimension and without a zero stride the extents are
    the quotients of the shape law. *)
Lemma reduce_window_shape_tuple_formula
      (operand_shape window_dimensions window_strides : list Z)
      (padding : list (Z * Z)) (base_dilation window_dilation : list Z) :
  length window_dimensions = length operand_shape ->
  length window_strides = length operand_shape ->
  length padding = length operand_shape ->
  length base_dilation = length operand_shape ->
  length window_dilation = length operand_shape ->
  Forall (fun d => 1 <= d) base_dilation ->
  Forall (fun d => 1 <= d) window_dilation ->
  (forall i, (i < length operand_shape)%nat ->
     nth i window_strides 1 = 0 ->
     let padded :=
       dilate (nth i operand_shape 0) (nth i base_dilation 0)
       + fst (nth i padding (0, 0)) + snd (nth i padding (0, 0)) in
     padded = 0 \/
     padded < dilate (nth i window_dimensions 0) (nth i window_dilation 0)) ->
  exists out,
    reduce_window_shape_tuple operand_shape window_dimensions window_strides
      padding (Some base_dilation) (Some window_dilation) = Ok out /\
    length out = length operand_shape /\
    forall i, (i < length operand_shape)%nat ->
      let padded :=
        dilate (nth i operand_shape 0) (nth i base_dilation 0)
        + fst (nth i padding (0, 0)) + snd (nth i padding (0, 0)) in
      let window :=
        dilate (nth i window_dimensions 0) (nth i window_dilation 0) in
      (padded = 0 \/ padded < window -> nth i out 0 = 0) /\
      (padded <> 0 -> window <= padded ->
       nth i out 0 = (padded - window) / nth i window_strides 1 + 1 /\
       is_floor (padded - window) (nth i window_strides 1) (nth i out 0 - 1)).
Proof.
  intros Hw Hs Hp Hb Hd Hbpos Hwpos Hz.
  destruct (reduce_window_shape_tuple_strides operand_shape window_dimensions
              window_strides padding base_dilation window_dilation)
    as (padded & window & E & Lp & Lw & N); try assumption.
  destruct (stride_shape_strided padded window window_strides)
    as (out & Eout & Lout & Nout); [lia|lia| |].
  { intros i Hi H0. destruct (N i) as [-> ->]; [lia|].
    apply (Hz i); [lia|exact H0]. }
  exists out. split; [congruence|]. split; [lia|].
  intros i Hi. cbv zeta.
  destruct (N i Hi) as [Ep Ew]. rewrite <- Ep, <- Ew.
  rewrite (Nout i) by lia. unfold strided.
  split.
  - intros [H0|Hlt].
    + rewrite H0. reflexivity.
    + apply Z.ltb_lt in Hlt. rewrite Hlt, orb_true_r. reflexivity.
  - intros Hne Hle.
    apply Z.eqb_neq in Hne. apply Z.ltb_ge in Hle. rewrite Hne, Hle.
    cbn [orb]. split; [reflexivity|].
    replace ((nth i padded 0 - nth i window 0) / nth i window_strides 1
             + 1 - 1)
      with ((nth i padded 0 - nth i window 0) / nth i window_strides 1)
      by lia.
    apply floor_div. intros H0.
    apply Z.eqb_neq in Hne. apply Z.ltb_ge in Hle.
    rewrite Ep in Hne. rewrite Ep, Ew in Hle.
    pose proof (Hz i Hi H0) as Hc. cbv zeta in Hc. lia.
Qed.

Lemma reduce_window_shape_tuple_zero_stride
      (operand_shape window_dimensions window_strides : list Z)
      (padding : list (Z * Z)) (base_dilation window_dilation : list Z) :
  length window_dimensions = length operand_shape ->
  length window_strides = length operand_shape ->
  length padding = length operand_shape ->
  length base_dilation = length operand_shape ->
  length window_dilation = length operand_shape ->
  Forall (fun d => 1 <= d) base_dilation ->
  Forall (fun d => 1 <= d) window_dilation ->
  (exists i, (i < length operand_shape)%nat /\
     nth i window_strides 1 = 0 /\
     let padded :=
       dilate (nth i operand_shape 0) (nth i base_dilation 0)
       + fst (nth i padding (0, 0)) + snd (nth i padding (0, 0)) in
     padded <> 0 /\
     dilate (nth i window_dimensions 0) (nth i window_dilation 0)
     <= padded) ->
  reduce_window_shape_tuple operand_shape window_dimensions window_strides
    padding (Some base_dilation) (Some window_dilation)
  = Raise ZeroDivisionError.
Proof.
  intros Hw Hs Hp Hb Hd Hbpos Hwpos (i & Hi & H0 & Hne & Hle).
  destruct (reduce_window_shape_tuple_strides operand_shape window_dimensions
              window_strides padding base_dilation window_dilation)
    as (padded & window & E & Lp & Lw & N); try assumption.
  rewrite E. apply stride_shape_zero_division; [lia|lia|].
  exists i. destruct (N i Hi) as [-> ->].
  split; [lia|]. split; [exact H0|]. split; assumption.
Qed.

Lemma reduce_window_shape_tuple_dilation
      (operand_shape window_dimensions window_strides : list Z)
      (padding : list (Z * Z)) (base_dilation window_dilation : list Z) :
  length base_dilation = length operand_shape ->
  Exists (fun d => d <= 0) base_dilation \/
  Exists (fun d => d <= 0) window_dilation ->
  reduce_window_shape_tuple operand_shape window_dimensions window_strides
    padding (Some base_dilation) (Some window_dilation)
  = Raise TypeError.
Proof.
  intros Hb H. unfold reduce_window_shape_tuple.
  destruct (lax._dilate_shape operand_shape base_dilation) as [os|e] eqn:E.
  - destruct H as [H|H].
    + rewrite dilate_shape_not_positive in E by exact H. discriminate.
    + cbn [bind]. rewrite dilate_shape_not_positive by exact H. reflexivity.
  - cbn [bind]. f_equal.
    unfold lax._dilate_shape in E.
    destruct (forallb (fun d => 0 <? d) base_dilation); cbn [negb] in E;
      [|congruence].
    replace (length operand_shape - length base_dilation)%nat with 0%nat in E
      by lia.
    destruct (safe_map2_total core.dilate_dim operand_shape base_dilation)
      as (zs & Ez & _); [lia|].
    cbn [repeat app] in E. rewrite Ez in E. discriminate.
Qed.

(** The shape law does not hold for every geometry of one rank: on an
    operand of extent 2 with a window of 5 the code returns the extent 0,
    where the quotient of the law gives -2. *)
Lemma reduce_window_shape_tuple_short_extent :
  reduce_window_shape_tuple [2] [5] [1] [(0, 0)] (Some [1]) (Some [1])
  = Ok [0] /\
  (dilate 2 1 + 0 + 0 - dilate 5 1) / 1 + 1 = -2.
Proof. split; reflexivity. Qed.

(** C1. For operand shape, window dimensions, strides, padding and both
    dilations of one rank, the operand shape and the window dimensions
    without negative entries, and with dilations of at least one:
    [reduce_window_shape_tuple] returns a shape of that rank whose entry in
    dimension [i] is 0 when the padded extent
    [dilate(extent i, base_dilation i) + pad_lo i + pad_hi i] is zero or
    smaller than the window [dilate(window i, window_dilation i)], and
    [q + 1] otherwise, where [q] is the floor of
    [(padded extent i - window i) / stride i] and
    [dilate n d = 1 + (n-1)*d] for [n > 0], [0] otherwise; this as long as
    every zero stride sits in a dimension of the first kind.  A zero stride
    in a dimension of the second kind raises ZeroDivisionError, and a
    dilation below one raises TypeError. *)
Theorem reduce_window_shape_tuple_law
        (operand_shape window_dimensions window_strides : list Z)
        (padding : list (Z * Z)) (base_dilation window_dilation : list Z) :
  length window_dimensions = length operand_shape ->
  length window_strides = length operand_shape ->
  length padding = length operand_shape ->
  length base_dilation = length operand_shape ->
  length window_dilation = length operand_shape ->
  Forall (fun d => 0 <= d) operand_shape ->
  Forall (fun d => 0 <= d) window_dimensions ->
  (Forall (fun d => 1 <= d) base_dilation ->
   Forall (fun d => 1 <= d) window_dilation ->
   (forall i, (i < length operand_shape)%nat ->
      nth i window_strides 1 = 0 ->
      let padded :=
        dilate (nth i operand_shape 0) (nth i base_dilation 0)
        + fst (nth i padding (0, 0)) + snd (nth i padding (0, 0)) in
      padded = 0 \/
      padded
      < dilate (nth i window_dimensions 0) (nth i window_dilation 0)) ->
   exists out,
     reduce_window_shape_tuple operand_shape window_dimensions window_strides
       padding (Some base_dilation) (Some window_dilation) = Ok out /\
     length out = length operand_shape /\
     forall i, (i < length operand_shape)%nat ->
       let padded :=
         dilate (nth i operand_shape 0) (nth i base_dilation 0)
         + fst (nth i padding (0, 0)) + snd (nth i padding (0, 0)) in
       let window :=
         dilate (nth i window_dimensions 0) (nth i window_dilation 0) in
       (padded = 0 \/ padded < window -> nth i out 0 = 0) /\
       (padded <> 0 -> window <= padded ->
        nth i out 0 = (padded - window) / nth i window_strides 1 + 1 /\
        is_floor (padded - window) (nth i window_strides 1)
                 (nth i out 0 - 1))) /\
  (Forall (fun d => 1 <= d) base_dilation ->
   Forall (fun d => 1 <= d) window_dilation ->
   (exists i, (i < length operand_shape)%nat /\
      nth i window_strides 1 = 0 /\
      let padded :=
        dilate (nth i operand_shape 0) (nth i base_dilation 0)
        + fst (nth i padding (0, 0)) + snd (nth i padding (0, 0)) in
      padded <> 0 /\
      dilate (nth i window_dimensions 0) (nth i window_dilation 0)
      <= padded) ->
   reduce_window_shape_tuple operand_shape window_dimensions window_strides
     padding (Some base_dilation) (Some window_dilation)
   = Raise ZeroDivisionError) /\
  (Exists (fun d => d <= 0) base_dilation \/
   Exists (fun d => d <= 0) window_dilation ->
   reduce_window_shape_tuple operand_shape window_dimensions window_strides
     padding (Some base_dilation) (Some window_dilation)
   = Raise TypeError).
Proof.
  intros Hw Hs Hp Hb Hd _ _. split; [|split].
  - apply reduce_window_shape_tuple_formula; assumption.
  - apply reduce_window_shape_tuple_zero_stride; assumption.
  - apply reduce_window_shape_tuple_dilation; assumption.
Qed.

(** The shape law at a rank-2 geometry whose second window does not fit,
    at a rank-1 geometry with a zero stride, and at one with a zero
    dilation. *)
Lemma reduce_window_shape_tuple_law_witness :
  (exists out,
     reduce_window_shape_tuple [5; 2] [2; 3] [2; 1] [(1, 0); (0, 1)]
       (Some [1; 2]) (Some [2; 2]) = Ok out /\
     length out = 2%nat /\
     forall i, (i < 2)%nat ->
       let padded :=
         dilate (nth i [5; 2] 0) (nth i [1; 2] 0)
         + fst (nth i [(1, 0); (0, 1)] (0, 0))
         + snd (nth i [(1, 0); (0, 1)] (0, 0)) in
       let window := dilate (nth i [2; 3] 0) (nth i [2; 2] 0) in
       (padded = 0 \/ padded < window -> nth i out 0 = 0) /\
       (padded <> 0 -> window <= padded ->
        nth i out 0 = (padded - window) / nth i [2; 1] 1 + 1 /\
        is_floor (padded - window) (nth i [2; 1] 1) (nth i out 0 - 1))) /\
  reduce_window_shape_tuple [5] [2] [0] [(0, 0)] (Some [1]) (Some [1])
  = Raise ZeroDivisionError /\
  reduce_window_shape_tuple [5] [2] [1] [(0, 0)] (Some [0]) (Some [1])
  = Raise TypeError.
Proof.
  split; [|split].
  - apply (proj1 (reduce_window_shape_tuple_law [5; 2] [2; 3] [2; 1]
                    [(1, 0); (0, 1)] [1; 2] [2; 2]
                    eq_refl eq_refl eq_refl eq_refl eq_refl
                    ltac:(repeat constructor; lia)
                    ltac:(repeat constructor; lia))).
    + repeat constructor; lia.
    + repeat constructor; lia.
    + intros [|[|i]] Hi H0; simpl in H0; try discriminate. simpl in Hi. lia.
  - apply (proj1 (proj2 (reduce_window_shape_tuple_law [5] [2] [0] [(0, 0)]
                           [1] [1]
                           eq_refl eq_refl eq_refl eq_refl eq_refl
                           ltac:(repeat constructor; lia)
                           ltac:(repeat constructor; lia)))).
    + repeat constructor; lia.
    + repeat constructor; lia.
    + exists 0%nat. simpl. unfold dilate. simpl. lia.
  - apply (proj2 (proj2 (reduce_window_shape_tuple_law [5] [2] [1] [(0, 0)]
                           [0] [1]
                           eq_refl eq_refl eq_refl eq_refl eq_refl
                           ltac:(repeat constructor; lia)
                           ltac:(repeat constructor; lia)))).
    left. constructor. lia.
Defined.

(** ** Pooling gradient routing on a known array *)

(** C2. For the float32 operand [1,5,2,4] with window 2, stride 2, no
    padding and unit dilations, and tangents [10,20,30,40]: max-pooling
    through [reduce_window] returns [5,4]; [select_and_gather_add] with
    predicate >= returns [20,40], also when reached through the forward-mode
    rule of the max reduction; with predicate <= it returns [10,30], also
    through the rule of the min reduction. *)
Theorem pooling_gradient_routing :
  let operand := of_list (float32.of_Z 0) (map float32.of_Z [1; 5; 2; 4]) in
  let tangents :=
    of_list (float32.of_Z 0) (map float32.of_Z [10; 20; 30; 40]) in
  result_map (map to_list)
    (reduce_window [operand]
       [core.mk_value true (scalar (S754_infinity true))] lax.max
       [2] [2] [(0, 0)] None None)
  = Ok [map float32.of_Z [5; 4]] /\
  result_map to_list
    (_select_and_gather_add tangents operand lax.ge_p
       [2] [2] [(0, 0)] [1] [1])
  = Ok (map float32.of_Z [20; 40]) /\
  result_map to_list
    (_reduce_window_chooser_jvp_rule lax.max_p tangents operand
       [2] [2] [(0, 0)] [1] [1])
  = Ok (map float32.of_Z [20; 40]) /\
  result_map to_list
    (_select_and_gather_add tangents operand lax.le_p
       [2] [2] [(0, 0)] [1] [1])
  = Ok (map float32.of_Z [10; 30]) /\
  result_map to_list
    (_reduce_window_chooser_jvp_rule lax.min_p tangents operand
       [2] [2] [(0, 0)] [1] [1])
  = Ok (map float32.of_Z [10; 30]).
Proof. vm_compute. repeat split; reflexivity. Qed.

(** ** The wide-word packing *)

Lemma pow2_pos (n : Z) : 0 <= n -> 0 < 2 ^ n.
Proof. intros. apply Z.pow_pos_nonneg; lia. Qed.

Lemma pack_value (nbits a b : Z) :
  0 < nbits -> 0 <= a < 2 ^ nbits -> 0 <= b < 2 ^ nbits ->
  double_word.pack nbits a b = Z.lor (Z.shiftl a nbits) b.
Proof.
  intros Hn Ha Hb.
  unfold double_word.pack, double_word.OrOp, double_word.ShiftLeftOp,
    double_word.ConvertOp, double_word.BitcastConvertOp.
  assert (Hpow : 2 ^ (nbits * 2) = 2 ^ nbits * 2 ^ nbits).
  { replace (nbits * 2) with (nbits + nbits) by lia.
    apply Z.pow_add_r; lia. }
  pose proof (pow2_pos nbits ltac:(lia)) as Hp.
  assert (Hlt : (nbits <? nbits * 2) = true) by (apply Z.ltb_lt; lia).
  rewrite Hlt.
  rewrite (Z.mod_small a) by (rewrite Hpow; nia).
  rewrite (Z.mod_small b) by (rewrite Hpow; nia).
  rewrite Z.shiftl_mul_pow2 by lia.
  rewrite Z.mod_small by (rewrite Hpow; nia).
  reflexivity.
Qed.

(** C4. In the wide-word strategy, for every pair of bit patterns [a], [b]
    of an [nbits]-bit dtype, unpacking the packed double-width word gives
    back both: [fst (pack a b) = a] and [snd (pack a b) = b]. *)
Theorem wide_word_pack_roundtrip (nbits a b : Z) :
  0 < nbits -> 0 <= a < 2 ^ nbits -> 0 <= b < 2 ^ nbits ->
  double_word.fst nbits (double_word.pack nbits a b) = a /\
  double_word.snd nbits (double_word.pack nbits a b) = b.
Proof.
  intros Hn Ha Hb.
  rewrite pack_value by assumption.
  pose proof (pow2_pos nbits ltac:(lia)) as Hp.
  unfold double_word.fst, double_word.snd, double_word.ShiftRightLogicalOp,
    double_word.ConvertOp, double_word.BitcastConvertOp.
  assert (Hlt : (nbits <? nbits * 2) = true) by (apply Z.ltb_lt; lia).
  rewrite Hlt. split.
  - rewrite Z.shiftr_lor, Z.shiftr_shiftl_l by lia.
    rewrite Z.sub_diag, Z.shiftl_0_r.
    rewrite (Z.shiftr_div_pow2 b) by lia.
    rewrite (Z.div_small b) by lia.
    rewrite Z.lor_0_r. apply Z.mod_small; lia.
  - rewrite <- Z.land_ones by lia.
    rewrite Z.land_lor_distr_l, !Z.land_ones by lia.
    rewrite Z.shiftl_mul_pow2 by lia.
    rewrite Z.mod_mul by lia.
    rewrite Z.lor_0_l. apply Z.mod_small; lia.
Qed.

(** The round trip at float32's negative infinity (0xFF800000) paired with
    its negative zero (0x80000000). *)
Lemma wide_word_pack_roundtrip_witness :
  double_word.fst 32 (double_word.pack 32 4286578688 2147483648)
  = 4286578688 /\
  double_word.snd 32 (double_word.pack 32 4286578688 2147483648)
  = 2147483648.
Proof.
  apply (wide_word_pack_roundtrip 32 4286578688 2147483648); lia.
Defined.

(** ** The monoid fast path *)

Section fast_path.
Context {T : Type} `{Dtype T}.

Lemma apply_monoid_reducer_bind (r : monoid_reducer) (x : array T)
      (wd ws : list Z) (padding : list (Z * Z)) (bd wdil : list Z) :
  apply_monoid_reducer r x wd ws padding (Some bd) (Some wdil)
  = specialized_bind r x wd ws padding bd wdil.
Proof. destruct r; reflexivity. Qed.

Lemma get_monoid_window_reducer_iff (computation : lax.computation T)
      (init_value : list (core.value T)) (r : monoid_reducer) :
  _get_monoid_window_reducer computation init_value = Some r <->
  exists x,
    init_value = [x] /\ core.is_concrete x = true /\
    shape (core.runtime x) = [] /\
    ((computation = lax.add /\
      eqv (get (core.runtime x) []) zero = true /\
      r = use_reduce_window_sum) \/
     (computation = lax.max /\
      eqv (get (core.runtime x) []) max_identity = true /\
      r = use_reduce_window_max) \/
     (computation = lax.min /\
      eqv (get (core.runtime x) []) min_identity = true /\
      r = use_reduce_window_min)).
Proof.
  unfold _get_monoid_window_reducer, core.get_aval. split.
  - destruct init_value as [|x [|y rest]]; try discriminate.
    destruct (core.is_concrete x) eqn:Hc; try discriminate.
    destruct (length (shape (core.runtime x)) =? 0)%nat eqn:Hs;
      try discriminate.
    apply Nat.eqb_eq, length_zero_iff_nil in Hs.
    intros Hr. exists x. repeat (split; [reflexivity || assumption|]).
    destruct computation; try discriminate.
    + destruct (eqv _ zero) eqn:E; inversion Hr. left. auto.
    + destruct (eqv _ max_identity) eqn:E; inversion Hr.
      right; left. auto.
    + destruct (eqv _ min_identity) eqn:E; inversion Hr.
      right; right. auto.
  - intros (x & -> & Hc & Hs & Hcase). rewrite Hc, Hs. simpl.
    destruct Hcase as [(-> & E & ->)|[(-> & E & ->)|(-> & E & ->)]];
      rewrite E; reflexivity.
Qed.

Lemma reduce_window_unfold (operand : list (array T))
      (init_value : list (core.value T)) (computation : lax.computation T)
      (wd ws : list Z) (padding : list (Z * Z)) (bd wdil : option (list Z)) :
  length operand = length init_value -> operand <> [] ->
  reduce_window operand init_value computation wd ws padding bd wdil =
  match _get_monoid_window_reducer computation init_value with
  | Some r =>
      match operand with
      | [x] =>
          out <- specialized_bind r x wd ws padding
                   (default_dilation bd wd) (default_dilation wdil wd) ;;
          Ok [out]
      | _ => Raise TypeError
      end
  | None =>
      '(jaxpr, out_tree) <-
        lax._variadic_reduction_jaxpr computation (length init_value) ;;
      if negb (length operand =? out_tree)%nat then Raise ValueError
      else
        reduce_window_p_bind
          (operand ++ map core.runtime init_value) jaxpr wd ws padding
          (default_dilation bd wd) (default_dilation wdil wd)
  end.
Proof.
  intros Hlen Hne. unfold reduce_window.
  rewrite Hlen, Nat.eqb_refl. simpl.
  destruct (length init_value =? 0)%nat eqn:E0.
  { apply Nat.eqb_eq in E0. destruct operand; [congruence|].
    simpl in Hlen. lia. }
  destruct (_get_monoid_window_reducer computation init_value) as [r|].
  - destruct operand as [|x [|y rest]]; try reflexivity.
    rewrite apply_monoid_reducer_bind. reflexivity.
  - reflexivity.
Qed.

(** C5. [_get_monoid_window_reducer] selects a specialized reducer if and
    only if there is exactly one initial value, it is concrete and of rank
    0, and the combiner is [lax.add] with the value equal to 0 (sum),
    [lax.max] with the value equal to the max-identity (max) or [lax.min]
    with the value equal to the min-identity (min).  [reduce_window], past
    its argument checks, binds the selected specialized primitive on the
    operand when one is selected and the generic primitive on operands and
    initial values otherwise. *)
Theorem monoid_fast_path_dispatch
        (computation : lax.computation T)
        (init_value : list (core.value T)) :
  (forall r,
      _get_monoid_window_reducer computation init_value = Some r <->
      exists x,
        init_value = [x] /\ core.is_concrete x = true /\
        shape (core.runtime x) = [] /\
        ((computation = lax.add /\
          eqv (get (core.runtime x) []) zero = true /\
          r = use_reduce_window_sum) \/
         (computation = lax.max /\
          eqv (get (core.runtime x) []) max_identity = true /\
          r = use_reduce_window_max) \/
         (computation = lax.min /\
          eqv (get (core.runtime x) []) min_identity = true /\
          r = use_reduce_window_min))) /\
  (forall operand wd ws padding bd wdil,
      length operand = length init_value -> operand <> [] ->
      reduce_window operand init_value computation wd ws padding bd wdil =
      match _get_monoid_window_reducer computation init_value with
      | Some r =>
          match operand with
          | [x] =>
              out <- specialized_bind r x wd ws padding
                       (default_dilation bd wd) (default_dilation wdil wd) ;;
              Ok [out]
          | _ => Raise TypeError
          end
      | None =>
          '(jaxpr, out_tree) <-
            lax._variadic_reduction_jaxpr computation (length init_value) ;;
          if negb (length operand =? out_tree)%nat then Raise ValueError
          else
            reduce_window_p_bind
              (operand ++ map core.runtime init_value) jaxpr wd ws padding
              (default_dilation bd wd) (default_dilation wdil wd)
      end).
Proof.
  split.
  - intros r. apply get_monoid_window_reducer_iff.
  - intros. apply reduce_window_unfold; assumption.
Qed.

End fast_path.

(** C3. The fast path and the generic primitive differ on float32: the
    initial value -0.0 equals 0 under Python's [==], so line 105 takes the
    fast path for [lax.add]; on the operand [-0.0, -0.0] with a window of
    two elements the sum primitive, which starts from +0.0, returns [+0.0]
    where the generic primitive, which starts from the given -0.0, returns
    [-0.0]. *)
Lemma monoid_fast_path_negative_zero :
  let operand := of_list (S754_zero false) [S754_zero true; S754_zero true] in
  let init := core.mk_value true (scalar (S754_zero true)) in
  _get_monoid_window_reducer lax.add [init] = Some use_reduce_window_sum /\
  eqv (get (core.runtime init) []) zero = true /\
  result_map (map to_list)
    (reduce_window [operand] [init] lax.add [2] [1] [(0, 0)] None None)
  = Ok [[S754_zero false]] /\
  result_map (map to_list)
    ('(jaxpr, out_tree) <- lax._variadic_reduction_jaxpr lax.add 1 ;;
     reduce_window_p_bind [operand; core.runtime init] jaxpr
       [2] [1] [(0, 0)] [1] [1])
  = Ok [[S754_zero true]] /\
  S754_zero false <> S754_zero true.
Proof. vm_compute. repeat split; try reflexivity. discriminate. Qed.

(** ** Lists of dimensions *)

Lemma forallb_Forall {A : Type} (f : A -> bool) (l : list A) :
  forallb f l = true <-> Forall (fun x => f x = true) l.
Proof.
  induction l as [|x l IH]; simpl.
  - split; auto.
  - rewrite andb_true_iff, IH. split.
    + intros [? ?]. constructor; assumption.
    + intros HF. inversion HF; subst. split; assumption.
Qed.

Lemma existsb_not_one_Exists (l : list Z) :
  existsb (fun d => negb (d =? 1)) l = true <-> Exists (fun d => d <> 1) l.
Proof.
  rewrite existsb_exists, Exists_exists.
  split; intros (x & Hin & Hx); exists x; split; auto.
  - apply negb_true_iff, Z.eqb_neq in Hx. exact Hx.
  - apply negb_true_iff, Z.eqb_neq. exact Hx.
Qed.

Lemma existsb_not_one_Forall (l : list Z) :
  existsb (fun d => negb (d =? 1)) l = false <-> Forall (fun d => d = 1) l.
Proof.
  induction l as [|x l IH]; simpl.
  - split; auto.
  - rewrite orb_false_iff, IH, negb_false_iff, Z.eqb_eq. split.
    + intros [? ?]. constructor; assumption.
    + intros HF. inversion HF; subst. split; auto.
Qed.

Lemma map2_length {A B C : Type} (f : A -> B -> C) (xs : list A)
      (ys : list B) :
  length xs = length ys -> length (map2 f xs ys) = length xs.
Proof.
  revert ys; induction xs as [|x xs IH]; intros [|y ys] Hl; simpl in *;
    try discriminate; auto.
Qed.

Lemma safe_map2_Ok {A B C : Type} (f : A -> B -> C) (xs : list A)
      (ys : list B) :
  length xs = length ys ->
  util.safe_map2 (fun x y => Ok (f x y)) xs ys = Ok (map2 f xs ys).
Proof.
  revert ys; induction xs as [|x xs IH]; intros [|y ys] Hl; simpl in *;
    try discriminate; auto.
  rewrite IH by lia. reflexivity.
Qed.

Lemma safe_map2_Ok_ext {A B C : Type} (g : A -> B -> result C)
      (f : A -> B -> C) (xs : list A) (ys : list B) :
  (forall x y, g x y = Ok (f x y)) ->
  length xs = length ys ->
  util.safe_map2 g xs ys = Ok (map2 f xs ys).
Proof.
  intros Hg. revert ys; induction xs as [|x xs IH]; intros [|y ys] Hl;
    simpl in *; try discriminate; auto.
  rewrite Hg, IH by lia. reflexivity.
Qed.

Lemma check_shapelike_Ok (non_zero : bool) (l : list Z) :
  Forall (fun d => (if non_zero then 1 else 0) <= d) l ->
  lax._check_shapelike non_zero l = Ok tt.
Proof.
  intros HF. unfold lax._check_shapelike.
  replace (forallb _ l) with true; [reflexivity|].
  symmetry. apply forallb_Forall.
  eapply Forall_impl; [|exact HF]. intros d Hd. apply Z.leb_le. exact Hd.
Qed.

Lemma check_shapelike_inv (non_zero : bool) (l : list Z) (u : unit) :
  lax._check_shapelike non_zero l = Ok u ->
  Forall (fun d => (if non_zero then 1 else 0) <= d) l.
Proof.
  unfold lax._check_shapelike.
  destruct (forallb _ l) eqn:E; [|discriminate].
  intros _. apply forallb_Forall in E.
  eapply Forall_impl; [|exact E]. intros d Hd. apply Z.leb_le. exact Hd.
Qed.

Lemma dilate_dim_one (d : Z) : 0 <= d -> core.dilate_dim d 1 = d.
Proof. intros. unfold core.dilate_dim. destruct (0 <? d) eqn:E; lia. Qed.

Lemma dilate_dim_nonneg (d k : Z) : 0 <= k -> 0 <= core.dilate_dim d k.
Proof. intros. unfold core.dilate_dim. destruct (0 <? d) eqn:E; nia. Qed.

Lemma stride_dim_dilated (n d : Z) :
  0 <= n -> 1 <= d ->
  core.stride_dim (core.dilate_dim n d - 0) 1 d = Ok n.
Proof.
  intros Hn Hd. unfold core.stride_dim, core.floordiv, core.dilate_dim.
  assert (E : (d =? 0) = false) by (apply Z.eqb_neq; lia).
  destruct (0 <? n) eqn:En.
  - apply Z.ltb_lt in En.
    assert (E0 : (1 + d * (n - 1) - 0 =? 0) = false)
      by (apply Z.eqb_neq; nia).
    assert (E1 : (1 + d * (n - 1) - 0 <? 1) = false)
      by (apply Z.ltb_ge; nia).
    rewrite E0, E1, E. cbn [orb bind]. f_equal.
    replace (1 + d * (n - 1) - 0 - 1) with ((n - 1) * d) by lia.
    rewrite Z.div_mul by lia. lia.
  - apply Z.ltb_ge in En. cbn [Z.sub Z.opp Z.add Z.eqb orb].
    f_equal. lia.
Qed.

(** ** Padding and slicing succeed on valid configurations *)

Ltac forallb_true :=
  match goal with
  | |- context [forallb ?f ?l] =>
      let E := fresh "E" in
      assert (E : forallb f l = true);
      [apply forallb_Forall | rewrite E; clear E]
  end.

Section pad_and_slice.
Context {T : Type} `{Dtype T}.

Lemma pad_Ok (operand : array T) (v : T) (cfg : list (Z * Z * Z)) :
  length cfg = length (shape operand) ->
  Forall (fun '(_, _, i) => 0 <= i) cfg ->
  Forall (fun d => 0 <= d)
         (map2 (fun '(l, h, i) d => l + h + core.dilate_dim d (i + 1))
               cfg (shape operand)) ->
  lax.pad operand v cfg =
  Ok (mk_array
        (map2 (fun '(l, h, i) d => l + h + core.dilate_dim d (i + 1))
              cfg (shape operand))
        (fun p =>
           match lax.source_index (shape operand)
                   (map (fun '(l, _, i) => (l, i + 1)) cfg) p with
           | Some q => get operand q
           | None => v
           end)).
Proof.
  intros Hlen Hint Hout. unfold lax.pad, lax._pad_shape_rule.
  rewrite Hlen, Nat.eqb_refl. cbn [negb].
  forallb_true.
  { eapply Forall_impl; [|exact Hint]. intros [[l h] i] Hi.
    apply Z.leb_le. exact Hi. }
  cbn [negb].
  forallb_true.
  { eapply Forall_impl; [|exact Hout]. intros d Hd.
    apply Z.leb_le. exact Hd. }
  reflexivity.
Qed.

Lemma slice_Ok (operand : array T) (start limit : list Z) :
  Forall (fun d => 0 <= d) start ->
  Forall (fun d => 0 <= d) limit ->
  length (shape operand) = length start ->
  length start = length limit ->
  Forall (fun '(d, l) => l <= d) (combine (shape operand) limit) ->
  Forall (fun '(l, s) => s <= l) (combine limit start) ->
  slicing.slice operand start limit None =
  Ok (mk_array (map2 Z.sub limit start)
        (fun i => get operand
                    (map2 Z.add start
                          (map2 Z.mul i (map (fun _ => 1) start))))).
Proof.
  intros Hs Hl Hn Hsl Hle Hge. unfold slicing.slice, slicing._slice_shape_rule.
  rewrite (check_shapelike_Ok false start) by exact Hs.
  rewrite (check_shapelike_Ok false limit) by exact Hl.
  cbn [bind].
  rewrite Hn, Nat.eqb_refl, Hsl, Nat.eqb_refl. cbn [negb].
  forallb_true.
  { eapply Forall_impl; [|exact Hle]. intros [d l] Hd.
    apply Z.leb_le. exact Hd. }
  cbn [negb].
  forallb_true.
  { eapply Forall_impl; [|exact Hge]. intros [l st] Hd.
    apply Z.leb_le. exact Hd. }
  reflexivity.
Qed.

Lemma slice_strided_Ok (operand : array T) (start limit st out : list Z) :
  Forall (fun d => 0 <= d) start ->
  Forall (fun d => 0 <= d) limit ->
  length (shape operand) = length start ->
  length start = length limit ->
  Forall (fun '(d, l) => l <= d) (combine (shape operand) limit) ->
  Forall (fun '(l, s) => s <= l) (combine limit start) ->
  Forall (fun d => 0 < d) st ->
  length st = length (shape operand) ->
  core.stride_shape (map2 Z.sub limit start)
    (map (fun _ => 1) (map2 Z.sub limit start)) st = Ok out ->
  slicing.slice operand start limit (Some st) =
  Ok (mk_array out
        (fun i => get operand (map2 Z.add start (map2 Z.mul i st)))).
Proof.
  intros Hs Hl Hn Hsl Hle Hge Hst Hstl Hout.
  unfold slicing.slice, slicing._slice_shape_rule.
  rewrite (check_shapelike_Ok false start) by exact Hs.
  rewrite (check_shapelike_Ok false limit) by exact Hl.
  cbn [bind].
  rewrite Hn, Nat.eqb_refl, Hsl, Nat.eqb_refl. cbn [negb].
  forallb_true.
  { eapply Forall_impl; [|exact Hle]. intros [d l] Hd.
    apply Z.leb_le. exact Hd. }
  cbn [negb].
  forallb_true.
  { eapply Forall_impl; [|exact Hge]. intros [l s0] Hd.
    apply Z.leb_le. exact Hd. }
  cbn [negb].
  rewrite (check_shapelike_Ok false st)
    by (eapply Forall_impl; [|exact Hst]; simpl; intros; lia).
  cbn [bind].
  rewrite <- Hsl, <- Hn, Hstl, Nat.eqb_refl. cbn [negb].
  forallb_true.
  { eapply Forall_impl; [|exact Hst]. intros d Hd.
    apply Z.ltb_lt. exact Hd. }
  cbn [negb]. rewrite Hout. reflexivity.
Qed.

End pad_and_slice.

(** ** select_and_scatter_add: both lowerings are defined on valid input *)

Lemma expand_padding_geometry (padding : list (Z * Z)) (s : list Z) :
  length padding = length s ->
  Forall (fun '(lo, hi) => 0 <= lo /\ 0 <= hi) padding ->
  Forall (fun d => 0 <= d) s ->
  let pads := map (fun '(lo, hi) => (lo, hi, 0)) padding in
  let padded :=
    map2 (fun '(l, h, i) d => l + h + core.dilate_dim d (i + 1)) pads s in
  let starts := map (fun '(lo, hi) => lo) padding in
  let stops := map2 (fun '(lo, hi) d => lo + d) padding s in
  Forall (fun '(_, _, i) => 0 <= i) pads /\
  Forall (fun d => 0 <= d) padded /\
  Forall (fun d => 0 <= d) starts /\
  Forall (fun d => 0 <= d) stops /\
  Forall (fun '(d, l) => l <= d) (combine padded stops) /\
  Forall (fun '(l, st) => st <= l) (combine stops starts) /\
  map2 Z.sub stops starts = s /\
  length pads = length s /\ length padded = length s /\
  length starts = length s /\ length stops = length s.
Proof.
  revert s; induction padding as [|[lo hi] padding IH]; intros [|d s] Hlen Hp Hs;
    simpl in Hlen; try discriminate; cbv zeta.
  - simpl. repeat match goal with |- _ /\ _ => split end;
      constructor || reflexivity.
  - inversion Hp as [|? ? Hh Hp']; subst. simpl in Hh.
    destruct Hh as [Hlo Hhi].
    inversion Hs as [|? ? Hd Hs']; subst.
    destruct (IH s ltac:(lia) Hp' Hs')
      as (I1 & I2 & I3 & I4 & I5 & I6 & I7 & I8 & I9 & I10 & I11).
    simpl. rewrite dilate_dim_one by lia.
    repeat match goal with |- _ /\ _ => split end;
      try (constructor; [lia|assumption]); try lia.
    f_equal; [lia|assumption].
Qed.

Section scatter_add_defined.
Context {T : Type} `{Dtype T}.

Lemma select_and_scatter_Ok (operand source : array T)
      (select : T -> T -> bool) (scatter : T -> T -> T) (init : T)
      (wd ws : list Z) (padding : list (Z * Z)) :
  Forall (fun d => 0 <= d) wd -> Forall (fun d => 0 <= d) ws ->
  length wd = length ws ->
  _select_and_scatter operand select wd ws padding source init scatter =
  Ok (mk_array (shape operand)
        (get (mhlo.SelectAndScatterOp operand source init select scatter
                wd ws padding))).
Proof.
  intros Hwd Hws Hl.
  unfold _select_and_scatter, _select_and_scatter_shape_rule.
  rewrite (check_shapelike_Ok false wd) by exact Hwd.
  rewrite (check_shapelike_Ok false ws) by exact Hws.
  cbn [bind]. rewrite Hl, Nat.eqb_refl. reflexivity.
Qed.

Lemma select_and_scatter_add_direct_Ok (source operand : array T)
      (select_prim : lax.comparison_primitive) (wd ws : list Z)
      (padding : list (Z * Z)) :
  Forall (fun d => 0 <= d) wd -> Forall (fun d => 0 <= d) ws ->
  length wd = length ws ->
  _select_and_scatter_add_impl source operand select_prim wd ws padding false
  = Ok (mk_array (shape operand)
          (get (mhlo.SelectAndScatterOp operand source zero
                  (lax.bind_comparison select_prim)
                  (if is_bool then sor else sadd) wd ws padding))).
Proof.
  intros. unfold _select_and_scatter_add_impl.
  rewrite select_and_scatter_Ok by assumption. reflexivity.
Qed.

Lemma select_and_scatter_add_expand_Ok (source operand : array T)
      (select_prim : lax.comparison_primitive) (wd ws : list Z)
      (padding : list (Z * Z)) :
  Forall (fun d => 0 <= d) wd -> Forall (fun d => 0 <= d) ws ->
  length wd = length ws ->
  length padding = length (shape operand) ->
  Forall (fun '(lo, hi) => 0 <= lo /\ 0 <= hi) padding ->
  Forall (fun d => 0 <= d) (shape operand) ->
  _select_and_scatter_add_impl source operand select_prim wd ws padding true
  = Ok (mk_array (shape operand)
          (fun i =>
             get (mhlo.SelectAndScatterOp
                    (expanded_operand operand select_prim padding)
                    source zero (lax.bind_comparison select_prim)
                    (if is_bool then sor else sadd) wd ws
                    (map (fun _ => (0, 0)) padding))
                 (map2 Z.add (map (fun '(lo, hi) => lo) padding)
                    (map2 Z.mul i
                       (map (fun _ => 1)
                            (map (fun '(lo, hi) => lo) padding)))))).
Proof.
  intros Hwd Hws Hl Hp Hpad Hs.
  destruct (expand_padding_geometry padding (shape operand) Hp Hpad Hs)
    as (I1 & I2 & I3 & I4 & I5 & I6 & I7 & I8 & I9 & I10 & I11).
  unfold _select_and_scatter_add_impl.
  rewrite pad_Ok by assumption. cbn [bind].
  rewrite select_and_scatter_Ok by assumption. cbn [bind].
  rewrite (safe_map2_Ok_ext _ (fun '(lo, hi) d => lo + d))
    by (assumption || (intros [lo hi] d; reflexivity)).
  cbn [bind].
  rewrite slice_Ok; cbn [shape]; try assumption; try lia.
  rewrite I7. reflexivity.
Qed.

End scatter_add_defined.

(** ** The reverse-mode rule of select_and_gather_add *)

Lemma base_dilation_geometry (bd s : list Z) :
  length bd = length s ->
  Forall (fun d => 1 <= d) bd ->
  Forall (fun d => 0 <= d) s ->
  let cfg := map (fun d => (0, 0, d - 1)) bd in
  let padded :=
    map2 (fun '(l, h, i) d => l + h + core.dilate_dim d (i + 1)) cfg s in
  let start := repeat 0 (length padded) in
  Forall (fun '(_, _, i) => 0 <= i) cfg /\
  Forall (fun d => 0 <= d) padded /\
  length cfg = length s /\ length padded = length s /\
  Forall (fun d => 0 <= d) start /\
  length padded = length start /\
  Forall (fun '(d, l) => l <= d) (combine padded padded) /\
  Forall (fun '(l, st) => st <= l) (combine padded start) /\
  Forall (fun d => 0 < d) bd /\
  core.stride_shape (map2 Z.sub padded start)
    (map (fun _ => 1) (map2 Z.sub padded start)) bd = Ok s.
Proof.
  revert s; induction bd as [|d bd IH]; intros [|n s] Hlen Hbd Hs;
    simpl in Hlen; try discriminate; cbv zeta.
  - simpl. repeat match goal with |- _ /\ _ => split end;
      constructor || reflexivity.
  - inversion Hbd as [|? ? Hd Hbd']; subst.
    inversion Hs as [|? ? Hn Hs']; subst.
    destruct (IH s ltac:(lia) Hbd' Hs')
      as (I1 & I2 & I3 & I4 & I5 & I6 & I7 & I8 & I9 & I10).
    pose proof (dilate_dim_nonneg n (d - 1 + 1) ltac:(lia)) as Hnn.
    simpl.
    repeat match goal with |- _ /\ _ => split end;
      try (constructor; [lia|assumption]); try lia.
    unfold core.stride_shape in *. simpl.
    replace (d - 1 + 1) with d by lia.
    replace (0 + 0 + core.dilate_dim n d - 0)
      with (core.dilate_dim n d - 0) by lia.
    rewrite stride_dim_dilated by lia. cbn [bind].
    rewrite I10. reflexivity.
Qed.

Section gather_transpose.
Context {T : Type} `{Dtype T}.
Variable pf : bool.

Lemma select_and_scatter_add_Ok (source operand : array T)
      (select_prim : lax.comparison_primitive) (wd ws : list Z)
      (padding : list (Z * Z)) :
  Forall (fun d => 0 <= d) wd -> Forall (fun d => 0 <= d) ws ->
  length wd = length ws ->
  Forall (fun d => 0 <= d) (shape operand) ->
  (pf = true ->
   length padding = length (shape operand) /\
   Forall (fun '(lo, hi) => 0 <= lo /\ 0 <= hi) padding) ->
  exists out,
    _select_and_scatter_add pf source operand select_prim wd ws padding
    = Ok out /\ shape out = shape operand.
Proof.
  intros Hwd Hws Hl Hs Hp. unfold _select_and_scatter_add.
  destruct pf.
  - destruct (Hp eq_refl) as [Hpl Hpp].
    rewrite select_and_scatter_add_expand_Ok by assumption.
    eexists; split; reflexivity.
  - rewrite select_and_scatter_add_direct_Ok by assumption.
    eexists; split; reflexivity.
Qed.

(** C8. The reverse-mode rule of select_and_gather_add raises
    NotImplementedError whenever an entry of [window_dilation] differs from
    1, whatever the cotangent; with trivial window dilation and a non-zero
    cotangent it hands the cotangent to [_select_and_scatter_add] with the
    same select predicate, window dimensions, strides and padding: on the
    operand itself when the base dilation is trivial, and on the padded
    operand, followed by a strided slice, otherwise. *)
Theorem select_and_gather_add_transpose_routing
        (t : ad.cotangent T) (tangents_aval : list Z) (operand : array T)
        (select_prim : lax.comparison_primitive) (wd ws : list Z)
        (padding : list (Z * Z)) (bd wdil : list Z) :
  is_ge_or_le select_prim = true ->
  (Exists (fun d => d <> 1) wdil ->
   _select_and_gather_add_transpose pf t (ad.UndefinedPrimal tangents_aval)
     (ad.Primal operand) select_prim wd ws padding bd wdil
   = Raise NotImplementedError) /\
  (Forall (fun d => d = 1) wdil -> Forall (fun d => d = 1) bd ->
   forall ct, t = ad.Cotangent ct ->
   _select_and_gather_add_transpose pf t (ad.UndefinedPrimal tangents_aval)
     (ad.Primal operand) select_prim wd ws padding bd wdil
   = (result <- _select_and_scatter_add pf ct operand select_prim wd ws
                  padding ;;
      Ok [Some (ad.Cotangent result); None])) /\
  (Forall (fun d => d = 1) wdil -> Exists (fun d => d <> 1) bd ->
   forall ct, t = ad.Cotangent ct ->
   _select_and_gather_add_transpose pf t (ad.UndefinedPrimal tangents_aval)
     (ad.Primal operand) select_prim wd ws padding bd wdil
   = (padded <- lax.pad operand (select_identity select_prim)
                  (map (fun d => (0, 0, d - 1)) bd) ;;
      result <- _select_and_scatter_add pf ct padded select_prim wd ws
                  padding ;;
      result <- slicing.slice result (repeat 0 (length (shape result)))
                  (shape result) (Some bd) ;;
      Ok [Some (ad.Cotangent result); None])).
Proof.
  intros Hsp. unfold _select_and_gather_add_transpose. rewrite Hsp.
  cbn [negb]. split; [|split].
  - intros Hex. apply existsb_not_one_Exists in Hex. rewrite Hex.
    reflexivity.
  - intros Hw Hb ct ->. apply existsb_not_one_Forall in Hw, Hb.
    rewrite Hw, Hb. cbn [bind].
    destruct (_select_and_scatter_add pf ct operand select_prim wd ws
                padding); reflexivity.
  - intros Hw Hb ct ->. apply existsb_not_one_Forall in Hw.
    apply existsb_not_one_Exists in Hb. rewrite Hw, Hb.
    reflexivity.
Qed.

(** C10. With trivial window dilation and a non-trivial base dilation
    (entries at least 1) on valid scatter geometry, the reverse-mode rule
    of select_and_gather_add pads the operand with the select identity
    using interior padding [base_dilation[i] - 1], applies
    [_select_and_scatter_add] with the original window dimensions, strides
    and padding, takes the slice with strides [base_dilation], and returns
    a cotangent of the shape of the tangents.  A symbolic zero cotangent
    gives back a symbolic zero for every geometry, including those on
    which the primitives would raise. *)
Theorem select_and_gather_add_transpose_base_dilation
        (ct : array T) (tangents_aval : list Z) (operand : array T)
        (select_prim : lax.comparison_primitive) (wd ws : list Z)
        (padding : list (Z * Z)) (bd wdil : list Z) :
  is_ge_or_le select_prim = true ->
  Forall (fun d => d = 1) wdil ->
  Exists (fun d => d <> 1) bd ->
  Forall (fun d => 1 <= d) bd ->
  length bd = length (shape operand) ->
  Forall (fun d => 0 <= d) (shape operand) ->
  tangents_aval = shape operand ->
  Forall (fun d => 0 <= d) wd -> Forall (fun d => 0 <= d) ws ->
  length wd = length ws ->
  (pf = true ->
   length padding = length (shape operand) /\
   Forall (fun '(lo, hi) => 0 <= lo /\ 0 <= hi) padding) ->
  (exists padded scattered result,
      lax.pad operand (select_identity select_prim)
        (map (fun d => (0, 0, d - 1)) bd) = Ok padded /\
      _select_and_scatter_add pf ct padded select_prim wd ws padding
      = Ok scattered /\
      slicing.slice scattered (repeat 0 (length (shape scattered)))
        (shape scattered) (Some bd) = Ok result /\
      _select_and_gather_add_transpose pf (ad.Cotangent ct)
        (ad.UndefinedPrimal tangents_aval) (ad.Primal operand) select_prim
        wd ws padding bd wdil
      = Ok [Some (ad.Cotangent result); None] /\
      shape result = tangents_aval) /\
  (forall z wd' ws' padding' bd',
      _select_and_gather_add_transpose pf (ad.Zero z)
        (ad.UndefinedPrimal tangents_aval) (ad.Primal operand) select_prim
        wd' ws' padding' bd' wdil
      = Ok [Some (ad.Zero tangents_aval); None]).
Proof.
  intros Hsp Hw Hex Hbd Hlen Hs -> Hwd Hws Hl Hp.
  apply existsb_not_one_Forall in Hw.
  apply existsb_not_one_Exists in Hex.
  split.
  - destruct (base_dilation_geometry bd (shape operand) Hlen Hbd Hs)
      as (I1 & I2 & I3 & I4 & I5 & I6 & I7 & I8 & I9 & I10).
    pose proof (pad_Ok operand (select_identity select_prim)
                  (map (fun d => (0, 0, d - 1)) bd) I3 I1 I2) as Hpad.
    match type of Hpad with _ = Ok ?a => set (padded := a) in * end.
    destruct (select_and_scatter_add_Ok ct padded select_prim wd ws padding)
      as (scattered & Hsc & Hshape); try assumption.
    { intros Hpf. destruct (Hp Hpf) as [Hpl Hpp]. split; [|exact Hpp].
      subst padded. cbn [shape]. lia. }
    assert (Hslice :
              slicing.slice scattered (repeat 0 (length (shape scattered)))
                (shape scattered) (Some bd) =
              Ok (mk_array (shape operand)
                    (fun i => get scattered
                                (map2 Z.add
                                   (repeat 0 (length (shape scattered)))
                                   (map2 Z.mul i bd))))).
    { apply slice_strided_Ok; rewrite ?Hshape; subst padded; cbn [shape];
        try assumption; try lia. }
    eexists padded, scattered, _.
    split; [exact Hpad|]. split; [exact Hsc|]. split; [exact Hslice|].
    split; [|reflexivity].
    unfold _select_and_gather_add_transpose. rewrite Hsp, Hw, Hex.
    cbn [negb]. fold (select_identity select_prim).
    rewrite Hpad. cbn [bind]. rewrite Hsc. cbn [bind].
    rewrite Hslice. reflexivity.
  - intros z wd' ws' padding' bd'.
    unfold _select_and_gather_add_transpose. rewrite Hsp, Hw. reflexivity.
Qed.

End gather_transpose.

(** The rule at a float32 operand of three elements with window dilation 2:
    the error is raised for a symbolic zero cotangent. *)
Lemma select_and_gather_add_transpose_routing_witness :
  _select_and_gather_add_transpose false (ad.Zero [2])
    (ad.UndefinedPrimal [3])
    (ad.Primal (of_list (float32.of_Z 0) (map float32.of_Z [1; 5; 2])))
    lax.ge_p [2] [1] [(0, 0)] [1] [2]
  = Raise NotImplementedError.
Proof.
  apply (proj1 (select_and_gather_add_transpose_routing false (ad.Zero [2])
                  [3] (of_list (float32.of_Z 0) (map float32.of_Z [1; 5; 2]))
                  lax.ge_p [2] [1] [(0, 0)] [1] [2] eq_refl)).
  constructor. lia.
Defined.

(** The rule at a float32 operand of three elements with base dilation 2
    and a cotangent of the four window positions. *)
Lemma select_and_gather_add_transpose_base_dilation_witness :
  let operand := of_list (float32.of_Z 0) (map float32.of_Z [1; 5; 2]) in
  let ct := of_list (float32.of_Z 0) (map float32.of_Z [10; 20; 30; 40]) in
  (exists padded scattered result,
      lax.pad operand (select_identity lax.ge_p)
        (map (fun d => (0, 0, d - 1)) [2]) = Ok padded /\
      _select_and_scatter_add true ct padded lax.ge_p [2] [1] [(0, 0)]
      = Ok scattered /\
      slicing.slice scattered (repeat 0 (length (shape scattered)))
        (shape scattered) (Some [2]) = Ok result /\
      _select_and_gather_add_transpose true (ad.Cotangent ct)
        (ad.UndefinedPrimal [3]) (ad.Primal operand) lax.ge_p
        [2] [1] [(0, 0)] [2] [1]
      = Ok [Some (ad.Cotangent result); None] /\
      shape result = [3]) /\
  (forall z wd' ws' padding' bd',
      _select_and_gather_add_transpose true (ad.Zero z)
        (ad.UndefinedPrimal [3]) (ad.Primal operand) lax.ge_p
        wd' ws' padding' bd' [1]
      = Ok [Some (ad.Zero [3]); None]).
Proof.
  cbv zeta.
  apply (select_and_gather_add_transpose_base_dilation true
           (of_list (float32.of_Z 0) (map float32.of_Z [10; 20; 30; 40]))
           [3] (of_list (float32.of_Z 0) (map float32.of_Z [1; 5; 2]))
           lax.ge_p [2] [1] [(0, 0)] [2] [1]);
    try reflexivity;
    try (repeat constructor; simpl; lia).
Defined.

(** ** Parallel sequences as maps over one list of dimensions *)

Lemma zip_window_dims_maps (ns ws ss os : list Z) (ps : list (Z * Z))
      (bs ks : list Z) :
  length ws = length ns -> length ss = length ns -> length os = length ns ->
  length ps = length ns -> length bs = length ns -> length ks = length ns ->
  let ds := zip_window_dims ns ws ss os ps bs ks in
  ns = map d_extent ds /\ ws = map d_window ds /\ ss = map d_stride ds /\
  os = map d_out ds /\ ps = map (fun d => (d_pad_lo d, d_pad_hi d)) ds /\
  bs = map d_bdil ds /\ ks = map d_wdil ds.
Proof.
  revert ws ss os ps bs ks.
  induction ns as [|n ns IH];
    intros [|w ws] [|s0 ss] [|o os] [|[lo hi] ps] [|b bs] [|k ks]
           H1 H2 H3 H4 H5 H6; simpl in *; try discriminate.
  - repeat split.
  - destruct (IH ws ss os ps bs ks) as (E1 & E2 & E3 & E4 & E5 & E6 & E7);
      try lia.
    repeat match goal with |- _ /\ _ => split end; f_equal; assumption.
Qed.

Lemma safe_map2_map {D A B C : Type} (g : A -> B -> result C)
      (a : D -> A) (b : D -> B) (h : D -> C) (ds : list D) :
  (forall d, In d ds -> g (a d) (b d) = Ok (h d)) ->
  util.safe_map2 g (map a ds) (map b ds) = Ok (map h ds).
Proof.
  induction ds as [|d ds IH]; intros Hg; simpl; [reflexivity|].
  rewrite Hg by (left; reflexivity). cbn [bind].
  rewrite IH by (intros; apply Hg; right; assumption). reflexivity.
Qed.

Lemma safe_map3_map {D A B C E : Type} (g : A -> B -> C -> result E)
      (a : D -> A) (b : D -> B) (c : D -> C) (h : D -> E) (ds : list D) :
  (forall d, In d ds -> g (a d) (b d) (c d) = Ok (h d)) ->
  util.safe_map3 g (map a ds) (map b ds) (map c ds) = Ok (map h ds).
Proof.
  induction ds as [|d ds IH]; intros Hg; simpl; [reflexivity|].
  rewrite Hg by (left; reflexivity). cbn [bind].
  rewrite IH by (intros; apply Hg; right; assumption). reflexivity.
Qed.

Lemma map2_map {D A B C : Type} (f : A -> B -> C) (a : D -> A) (b : D -> B)
      (ds : list D) :
  map2 f (map a ds) (map b ds) = map (fun d => f (a d) (b d)) ds.
Proof. induction ds as [|d ds IH]; simpl; [|rewrite IH]; reflexivity. Qed.

Lemma unzip2_map {D A B : Type} (a : D -> A) (b : D -> B) (ds : list D) :
  util.unzip2 (map (fun d => (a d, b d)) ds) = (map a ds, map b ds).
Proof. induction ds as [|d ds IH]; simpl; [|rewrite IH]; reflexivity. Qed.

Lemma repeat_length_map {D A B : Type} (x : B) (a : D -> A) (ds : list D) :
  repeat x (length (map a ds)) = map (fun _ => x) ds.
Proof. induction ds as [|d ds IH]; simpl; [|rewrite IH]; reflexivity. Qed.

Lemma combine_map {D A B : Type} (a : D -> A) (b : D -> B) (ds : list D) :
  combine (map a ds) (map b ds) = map (fun d => (a d, b d)) ds.
Proof. induction ds as [|d ds IH]; simpl; [|rewrite IH]; reflexivity. Qed.

Lemma check_shapelike_map {D : Type} (non_zero : bool) (a : D -> Z)
      (ds : list D) :
  Forall (fun d => (if non_zero then 1 else 0) <= a d) ds ->
  lax._check_shapelike non_zero (map a ds) = Ok tt.
Proof. intros HF. apply check_shapelike_Ok, Forall_map. exact HF. Qed.

Lemma index_eqb_refl (i : list Z) : index_eqb i i = true.
Proof.
  induction i as [|x i IH]; simpl; [reflexivity|].
  rewrite Z.eqb_refl, IH. reflexivity.
Qed.

Lemma index_eqb_eq (i j : list Z) : index_eqb i j = true <-> i = j.
Proof.
  split; [|intros ->; apply index_eqb_refl].
  revert j; induction i as [|x i IH]; intros [|y j]; simpl;
    try discriminate; auto.
  rewrite andb_true_iff, Z.eqb_eq. intros [-> Hij]. f_equal. auto.
Qed.

Lemma dilate_shape_map {D : Type} (ds : list D) (n b : D -> Z) :
  Forall (fun d => 1 <= b d) ds ->
  lax._dilate_shape (map n ds) (map b ds)
  = Ok (map (fun d => core.dilate_dim (n d) (b d)) ds).
Proof.
  intros Hb. rewrite dilate_shape_positive.
  - apply safe_map2_map. reflexivity.
  - apply Forall_map. exact Hb.
  - rewrite !length_map. reflexivity.
Qed.

Lemma common_shape_rule_map {D : Type} (ds : list D)
      (n w s lo hi b k : D -> Z) :
  Forall (fun d => 1 <= w d) ds -> Forall (fun d => 1 <= s d) ds ->
  Forall (fun d => 1 <= b d) ds -> Forall (fun d => 1 <= k d) ds ->
  _common_reduce_window_shape_rule (map n ds) (map w ds) (map s ds)
    (map (fun d => (lo d, hi d)) ds) (map b ds) (map k ds)
  = Ok (map (fun d => strided (core.dilate_dim (n d) (b d) + lo d + hi d)
                              (core.dilate_dim (w d) (k d)) (s d)) ds).
Proof.
  intros Hw Hs Hb Hk. unfold _common_reduce_window_shape_rule.
  assert (Hb0 : Forall (fun d => 0 <= b d) ds)
    by (eapply Forall_impl; [|exact Hb]; simpl; intros; lia).
  assert (Hk0 : Forall (fun d => 0 <= k d) ds)
    by (eapply Forall_impl; [|exact Hk]; simpl; intros; lia).
  rewrite (check_shapelike_map true w), (check_shapelike_map true s),
    (check_shapelike_map false b), (check_shapelike_map false k)
    by assumption.
  cbn [bind]. rewrite !length_map, Nat.eqb_refl. cbn [negb].
  unfold reduce_window_shape_tuple.
  rewrite (dilate_shape_map ds n b Hb). cbn [bind].
  rewrite (dilate_shape_map ds w k Hk). cbn [bind].
  rewrite unzip2_map. unfold core.sum_shapes.
  rewrite (safe_map3_map _ _ lo hi
             (fun d => core.dilate_dim (n d) (b d) + lo d + hi d))
    by reflexivity.
  cbn [bind]. unfold core.stride_shape.
  apply safe_map3_map. intros d Hd.
  rewrite Forall_forall in Hs. specialize (Hs d Hd).
  apply stride_dim_strided. intros; lia.
Qed.

(** ** The reverse-mode rule of the windowed sum *)

Section sum_transpose.
Context {T : Type} `{Dtype T}.

Lemma reduce_window_lower_Ok (reduce_op : T -> T -> T) (init : T)
      (aval_out : list Z) (operand : array T) (wd ws : list Z)
      (padding : list (Z * Z)) (bd wdil : list Z) :
  exists out,
    _reduce_window_lower reduce_op init aval_out operand wd ws padding
      bd wdil = Ok out /\ shape out = aval_out.
Proof.
  unfold _reduce_window_lower, mhlo.ReduceWindowOp. simpl.
  eexists; split; reflexivity.
Qed.

Lemma transpose_extent (n w o s lo b k : Z) :
  0 <= n -> 1 <= b -> 1 <= w -> 0 <= k ->
  let pb := core.dilate_dim w k - lo - 1 in
  let pa := core.dilate_dim n b + core.dilate_dim w k - 1
            - core.dilate_dim o s - pb in
  0 <= pb + pa + core.dilate_dim o (s - 1 + 1) /\
  strided (core.dilate_dim (pb + pa + core.dilate_dim o (s - 1 + 1)) 1
           + 0 + 0)
          (core.dilate_dim w k) b = n.
Proof.
  intros Hn Hb Hw Hk pb pa. subst pb pa.
  replace (s - 1 + 1) with s by lia.
  assert (HR : 1 <= core.dilate_dim w k).
  { unfold core.dilate_dim. destruct (0 <? w) eqn:E; [nia|lia]. }
  pose proof (dilate_dim_nonneg n b ltac:(lia)) as HL.
  set (R := core.dilate_dim w k) in *. set (O := core.dilate_dim o s).
  split; [lia|].
  rewrite dilate_dim_one by lia.
  replace (R - lo - 1 + (core.dilate_dim n b + R - 1 - O - (R - lo - 1)) + O
           + 0 + 0) with (core.dilate_dim n b - 0 + (R - 1)) by lia.
  pose proof (stride_dim_dilated n b Hn Hb) as Hsd.
  rewrite stride_dim_strided in Hsd by (intros; lia).
  injection Hsd as Hq. unfold strided in *.
  set (L := core.dilate_dim n b) in *. revert Hq.
  destruct (L - 0 =? 0) eqn:E0.
  - apply Z.eqb_eq in E0. cbn [orb]. intros Hq.
    assert (E1 : (L - 0 + (R - 1) =? 0) || (L - 0 + (R - 1) <? R) = true).
    { apply orb_true_iff. right. apply Z.ltb_lt. lia. }
    rewrite E1. exact Hq.
  - apply Z.eqb_neq in E0. cbn [orb].
    destruct (L - 0 <? 1) eqn:E1.
    + apply Z.ltb_lt in E1. lia.
    + apply Z.ltb_ge in E1. intros Hq.
      assert (E2 : (L - 0 + (R - 1) =? 0) || (L - 0 + (R - 1) <? R) = false).
      { apply orb_false_iff. split; [apply Z.eqb_neq|apply Z.ltb_ge]; lia. }
      rewrite E2. etransitivity; [|exact Hq]. f_equal. f_equal. lia.
Qed.

(** C6 (amended). For a windowed sum on a number dtype with valid geometry
    (one rank; window, stride and both dilations at least 1) and every
    cotangent of that rank, the reverse-mode rule pads the cotangent with
    zeros by the transposed forward padding and [stride - 1] interior
    gaps, and re-applies the windowed sum with the original window
    dimensions and window dilation, the base dilation as window strides,
    no padding and unit base dilation; the result has exactly the shape of
    the operand. *)
Theorem reduce_window_sum_transpose_shape
        (cotangent : array T) (input_shape wd ws : list Z)
        (padding : list (Z * Z)) (bd wdil : list Z) :
  is_number = true ->
  length wd = length input_shape -> length ws = length input_shape ->
  length (shape cotangent) = length input_shape ->
  length padding = length input_shape ->
  length bd = length input_shape -> length wdil = length input_shape ->
  Forall (fun d => 0 <= d) input_shape ->
  Forall (fun d => 1 <= d) wd -> Forall (fun d => 1 <= d) ws ->
  Forall (fun d => 1 <= d) bd -> Forall (fun d => 1 <= d) wdil ->
  exists pads pad_cotangent result,
    convolution._conv_general_vjp_lhs_padding input_shape wd ws
      (shape cotangent) padding bd wdil = Ok pads /\
    lax.pad cotangent zero
      (map2 (fun '(lo, hi) stride => (lo, hi, stride - 1)) pads ws)
    = Ok pad_cotangent /\
    _reduce_window_sum pad_cotangent wd bd
      (repeat (0, 0) (length input_shape))
      (Some (ones (length input_shape))) (Some wdil) = Ok result /\
    _reduce_window_sum_transpose_rule cotangent
      (ad.UndefinedPrimal input_shape) wd ws padding bd wdil = Ok [result] /\
    shape result = input_shape.
Proof.
  intros Hnum L1 L2 L3 L4 L5 L6 Hn Hw Hs Hb Hk.
  destruct (zip_window_dims_maps input_shape wd ws (shape cotangent)
              padding bd wdil L1 L2 L3 L4 L5 L6)
    as (E1 & E2 & E3 & E4 & E5 & E6 & E7).
  set (ds := zip_window_dims input_shape wd ws (shape cotangent) padding
               bd wdil) in *.
  clearbody ds.
  rewrite E1 in Hn. rewrite E2 in Hw. rewrite E3 in Hs.
  rewrite E6 in Hb. rewrite E7 in Hk.
  rewrite Forall_map in Hn, Hw, Hs, Hb, Hk.
  set (pb := fun d => core.dilate_dim (d_window d) (d_wdil d)
                      - d_pad_lo d - 1).
  set (pa := fun d => core.dilate_dim (d_extent d) (d_bdil d)
                      + core.dilate_dim (d_window d) (d_wdil d) - 1
                      - core.dilate_dim (d_out d) (d_stride d) - pb d).
  assert (Hpads :
            convolution._conv_general_vjp_lhs_padding input_shape wd ws
              (shape cotangent) padding bd wdil
            = Ok (map (fun d => (pb d, pa d)) ds)).
  { rewrite E1, E2, E3, E4, E5, E6, E7.
    unfold convolution._conv_general_vjp_lhs_padding.
    rewrite (dilate_shape_map ds d_extent d_bdil Hb). cbn [bind].
    rewrite (dilate_shape_map ds d_window d_wdil Hk). cbn [bind].
    rewrite (dilate_shape_map ds d_out d_stride Hs). cbn [bind].
    rewrite (safe_map2_map _ _ (fun d => (d_pad_lo d, d_pad_hi d)) pb)
      by reflexivity.
    cbn [bind].
    rewrite (safe_map2_map _ _ _
               (fun d => core.dilate_dim (d_extent d) (d_bdil d)
                         + core.dilate_dim (d_window d) (d_wdil d) - 1))
      by reflexivity.
    cbn [bind].
    rewrite (safe_map3_map _ _ _ pb pa) by reflexivity.
    cbn [bind].
    apply safe_map2_map. reflexivity. }
  set (cfg := map (fun d => (pb d, pa d, d_stride d - 1)) ds).
  assert (Hcfg : map2 (fun '(lo, hi) stride => (lo, hi, stride - 1))
                      (map (fun d => (pb d, pa d)) ds) ws = cfg).
  { rewrite E3, map2_map. reflexivity. }
  set (padded := fun d => pb d + pa d
                          + core.dilate_dim (d_out d) (d_stride d - 1 + 1)).
  assert (Hext : forall d, In d ds ->
                   0 <= padded d /\
                   strided (core.dilate_dim (padded d) 1 + 0 + 0)
                           (core.dilate_dim (d_window d) (d_wdil d))
                           (d_bdil d) = d_extent d).
  { intros d Hd. rewrite Forall_forall in Hn, Hw, Hb, Hk.
    apply transpose_extent; auto.
    specialize (Hk d Hd). simpl in Hk. lia. }
  assert (Hpad :
            lax.pad cotangent zero cfg =
            Ok (mk_array (map padded ds)
                  (fun p =>
                     match lax.source_index (shape cotangent)
                             (map (fun '(l, _, i) => (l, i + 1)) cfg) p with
                     | Some q => get cotangent q
                     | None => zero
                     end))).
  { rewrite pad_Ok.
    - subst cfg. rewrite E4 at 1. rewrite map2_map. reflexivity.
    - subst cfg. rewrite length_map, E4, length_map. reflexivity.
    - subst cfg. apply Forall_map.
      eapply Forall_impl; [|exact Hs]. simpl. intros; lia.
    - subst cfg. rewrite E4, map2_map. apply Forall_map, Forall_forall.
      intros d Hd. apply (Hext d Hd). }
  match type of Hpad with _ = Ok ?a => set (pad_cotangent := a) in * end.
  assert (Hshape :
            _common_reduce_window_shape_rule (shape pad_cotangent) wd bd
              (repeat (0, 0) (length input_shape))
              (ones (length input_shape)) wdil = Ok input_shape).
  { subst pad_cotangent. cbn [shape]. unfold ones.
    rewrite E1 at 1 2. rewrite !repeat_length_map.
    rewrite E2, E6, E7.
    rewrite (common_shape_rule_map ds padded d_window d_bdil
               (fun _ => 0) (fun _ => 0) (fun _ => 1) d_wdil);
      try assumption.
    - f_equal. rewrite E1. apply map_ext_in. intros d Hd.
      apply (Hext d Hd).
    - apply Forall_forall. intros; lia. }
  destruct (reduce_window_lower_Ok sadd zero input_shape pad_cotangent wd bd
              (repeat (0, 0) (length input_shape))
              (ones (length input_shape)) wdil)
    as (result & Hres & Hrs).
  assert (Hsum :
            _reduce_window_sum pad_cotangent wd bd
              (repeat (0, 0) (length input_shape))
              (Some (ones (length input_shape))) (Some wdil) = Ok result).
  { unfold _reduce_window_sum, reduce_window_sum_p_bind,
      _reduce_window_sum_shape_rule, default_dilation.
    rewrite Hnum. cbn [negb]. rewrite Hshape. cbn [bind]. exact Hres. }
  exists (map (fun d => (pb d, pa d)) ds), pad_cotangent, result.
  split; [exact Hpads|]. rewrite Hcfg.
  split; [exact Hpad|]. split; [exact Hsum|]. split; [|exact Hrs].
  unfold _reduce_window_sum_transpose_rule.
  rewrite Hpads. cbn [bind].
  rewrite (safe_map2_Ok_ext _ (fun '(lo, hi) stride => (lo, hi, stride - 1)))
    by ((intros [lo hi] st; reflexivity)
        || (rewrite E3, !length_map; reflexivity)).
  cbn [bind]. rewrite Hcfg, Hpad. cbn [bind]. rewrite Hsum. cbn [bind].
  rewrite Hrs, index_eqb_refl. reflexivity.
Qed.

End sum_transpose.

(** The rule at a float32 cotangent of four elements for an operand of
    three elements, window 2, stride 1, base dilation 2. *)
Lemma reduce_window_sum_transpose_shape_witness :
  let cotangent := of_list (float32.of_Z 0) (map float32.of_Z [1; 2; 3; 4]) in
  exists pads pad_cotangent result,
    convolution._conv_general_vjp_lhs_padding [3] [2] [1]
      (shape cotangent) [(0, 0)] [2] [1] = Ok pads /\
    lax.pad cotangent zero
      (map2 (fun '(lo, hi) stride => (lo, hi, stride - 1)) pads [1])
    = Ok pad_cotangent /\
    _reduce_window_sum pad_cotangent [2] [2]
      (repeat (0, 0) (length [3]))
      (Some (ones (length [3]))) (Some [1]) = Ok result /\
    _reduce_window_sum_transpose_rule cotangent
      (ad.UndefinedPrimal [3]) [2] [1] [(0, 0)] [2] [1] = Ok [result] /\
    shape result = [3].
Proof.
  cbv zeta.
  apply (reduce_window_sum_transpose_shape
           (of_list (float32.of_Z 0) (map float32.of_Z [1; 2; 3; 4]))
           [3] [2] [1] [(0, 0)] [2] [1]);
    try reflexivity; repeat constructor; lia.
Defined.

(** C6 as stated fails: the rule does not re-apply the sum with the base
    and window dilations swapped.  For an operand of three elements with
    window 2, stride 1, base dilation 2 and window dilation 1, and the
    cotangent [1,2,3,4], the rule returns [1,5,4], of the operand's shape;
    re-applying the sum on the same padded cotangent with the two dilations
    swapped returns [2,6], of another shape. *)
Lemma reduce_window_sum_transpose_not_swapped :
  let cotangent := of_list (float32.of_Z 0) (map float32.of_Z [1; 2; 3; 4]) in
  result_map (map (fun r => (shape r, to_list r)))
    (_reduce_window_sum_transpose_rule cotangent (ad.UndefinedPrimal [3])
       [2] [1] [(0, 0)] [2] [1])
  = Ok [([3], map float32.of_Z [1; 5; 4])] /\
  result_map (fun r => (shape r, to_list r))
    (pad_cotangent <- lax.pad cotangent zero [(1, 1, 0)] ;;
     reapply_sum_with_swapped_dilations pad_cotangent [3] [2] [2] [1])
  = Ok ([2], map float32.of_Z [2; 6]).
Proof. vm_compute. split; reflexivity. Qed.

(** ** Inserting a batch axis *)

Lemma insert_at_zero {A : Type} (x : A) (l : list A) :
  insert_at 0 x l = x :: l.
Proof. reflexivity. Qed.

Lemma insert_at_cons {A : Type} (b : nat) (x y : A) (l : list A) :
  insert_at (S b) x (y :: l) = y :: insert_at b x l.
Proof. reflexivity. Qed.

Lemma insert_at_nil {A : Type} (b : nat) (x : A) : insert_at b x [] = [x].
Proof. destruct b; reflexivity. Qed.

Lemma insert_at_length {A : Type} (b : nat) (x : A) (l : list A) :
  length (insert_at b x l) = S (length l).
Proof.
  unfold insert_at. rewrite length_app. simpl.
  rewrite Nat.add_succ_r. f_equal.
  rewrite <- length_app, firstn_skipn. reflexivity.
Qed.

Lemma insert_at_map {A B : Type} (f : A -> B) (b : nat) (x : A)
      (l : list A) :
  insert_at b (f x) (map f l) = map f (insert_at b x l).
Proof.
  unfold insert_at. rewrite map_app. simpl.
  rewrite firstn_map, skipn_map. reflexivity.
Qed.

Lemma remove_insert_at {A : Type} (b : nat) (x : A) (l : list A) :
  (b <= length l)%nat -> remove_at b (insert_at b x l) = l.
Proof.
  revert l; induction b as [|b IH]; intros l Hb.
  - reflexivity.
  - destruct l as [|y l]; simpl in Hb; [lia|].
    rewrite insert_at_cons. unfold remove_at in *. simpl.
    f_equal. apply IH. lia.
Qed.

Lemma Forall_insert_at {A : Type} (P : A -> Prop) (b : nat) (x : A)
      (l : list A) :
  P x -> Forall P l -> Forall P (insert_at b x l).
Proof.
  intros Hx. revert l; induction b as [|b IH]; intros l Hl.
  - rewrite insert_at_zero. constructor; assumption.
  - destruct l as [|y l].
    + rewrite insert_at_nil. constructor; [assumption|constructor].
    + rewrite insert_at_cons. inversion Hl; subst.
      constructor; [assumption|]. apply IH. assumption.
Qed.

Lemma map2_insert_at {A B C : Type} (f : A -> B -> C) (b : nat) (x : A)
      (y : B) (xs : list A) (ys : list B) :
  length xs = length ys ->
  map2 f (insert_at b x xs) (insert_at b y ys)
  = insert_at b (f x y) (map2 f xs ys).
Proof.
  revert xs ys; induction b as [|b IH]; intros [|x' xs] [|y' ys] Hl;
    simpl in Hl; try discriminate; try reflexivity.
  rewrite !insert_at_cons. simpl. rewrite insert_at_cons.
  f_equal. apply IH. lia.
Qed.

Lemma fold_left_map {A B C : Type} (f : A -> B -> A) (g : C -> B)
      (l : list C) (a : A) :
  fold_left f (map g l) a = fold_left (fun acc x => f acc (g x)) l a.
Proof. revert a; induction l as [|x l IH]; intros a; simpl; auto. Qed.

Lemma fold_left_ext_in {A B : Type} (f g : A -> B -> A) (l : list B)
      (a : A) :
  (forall acc x, In x l -> f acc x = g acc x) ->
  fold_left f l a = fold_left g l a.
Proof.
  revert a; induction l as [|x l IH]; intros a Hfg; simpl; [reflexivity|].
  rewrite Hfg by (left; reflexivity).
  apply IH. intros; apply Hfg; right; assumption.
Qed.

Lemma range_one : range 1 = [0].
Proof. reflexivity. Qed.

Lemma indices_length (s idx : list Z) :
  In idx (indices s) -> length idx = length s.
Proof.
  revert idx; induction s as [|n s IH]; intros idx Hin; simpl in Hin.
  - destruct Hin as [<-|[]]. reflexivity.
  - apply in_flat_map in Hin. destruct Hin as (i & _ & Hin).
    apply in_map_iff in Hin. destruct Hin as (rest & <- & Hrest).
    simpl. f_equal. apply IH. exact Hrest.
Qed.

Lemma indices_insert_one (b : nat) (s : list Z) :
  indices (insert_at b 1 s) = map (insert_at b 0) (indices s).
Proof.
  revert s; induction b as [|b IH]; intros s.
  - rewrite insert_at_zero. simpl. rewrite app_nil_r.
    apply map_ext. intros; reflexivity.
  - destruct s as [|n s].
    + rewrite insert_at_nil. reflexivity.
    + rewrite insert_at_cons. simpl.
      induction (range n) as [|i r IHr]; simpl; [reflexivity|].
      rewrite map_app, IHr. f_equal.
      rewrite IH, !map_map. apply map_ext. intros; reflexivity.
Qed.

Lemma in_bounds_length (s idx : list Z) :
  in_bounds s idx = true -> length idx = length s.
Proof.
  revert idx; induction s as [|n s IH]; intros [|i idx]; simpl;
    try discriminate; auto.
  rewrite andb_true_iff. intros [_ Hr]. f_equal. auto.
Qed.

Lemma source_index_insert_at (b : nat) (n t : Z) (s : list Z)
      (cfg : list (Z * Z)) (p : list Z) :
  0 <= t < n -> length cfg = length s -> length p = length s ->
  lax.source_index (insert_at b n s) (insert_at b (0, 1) cfg)
    (insert_at b t p)
  = option_map (insert_at b t) (lax.source_index s cfg p).
Proof.
  intros Ht. revert s cfg p.
  assert (Hd : lax.dilated_source n 0 1 t = Some t).
  { unfold lax.dilated_source. rewrite dilate_dim_one by lia.
    rewrite Z.sub_0_r, Z.mod_1_r, Z.div_1_r.
    replace (0 <=? t) with true by (symmetry; apply Z.leb_le; lia).
    replace (t <? n) with true by (symmetry; apply Z.ltb_lt; lia).
    reflexivity. }
  induction b as [|b IH]; intros s cfg p Hc Hp.
  - rewrite !insert_at_zero. simpl. rewrite Hd.
    destruct (lax.source_index s cfg p); reflexivity.
  - destruct s as [|m s], cfg as [|[lo d] cfg], p as [|x p];
      simpl in Hc, Hp; try discriminate.
    + rewrite !insert_at_nil. simpl. rewrite Hd. reflexivity.
    + rewrite !insert_at_cons. simpl.
      rewrite IH by lia.
      destruct (lax.dilated_source m lo d x); [|reflexivity].
      destruct (lax.source_index s cfg p); reflexivity.
Qed.

Lemma common_shape_rule_batched (b : nat) (n : Z) (s wd ws : list Z)
      (padding : list (Z * Z)) (bd wdil : list Z) :
  length wd = length s -> length ws = length s ->
  length padding = length s -> length bd = length s ->
  length wdil = length s ->
  Forall (fun d => 1 <= d) wd -> Forall (fun d => 1 <= d) ws ->
  Forall (fun d => 1 <= d) bd -> Forall (fun d => 1 <= d) wdil ->
  0 <= n ->
  exists out_shape,
    _common_reduce_window_shape_rule s wd ws padding bd wdil
    = Ok out_shape /\
    _common_reduce_window_shape_rule (insert_at b n s) (insert_at b 1 wd)
      (insert_at b 1 ws) (insert_at b (0, 0) padding) (insert_at b 1 bd)
      (insert_at b 1 wdil)
    = Ok (insert_at b n out_shape) /\
    length out_shape = length s.
Proof.
  intros L1 L2 L3 L4 L5 Hw Hs Hb Hk Hn.
  destruct (zip_window_dims_maps s wd ws s padding bd wdil L1 L2 eq_refl
              L3 L4 L5) as (E1 & E2 & E3 & _ & E5 & E6 & E7).
  set (ds := zip_window_dims s wd ws s padding bd wdil) in *.
  clearbody ds.
  rewrite E2 in Hw. rewrite E3 in Hs. rewrite E6 in Hb. rewrite E7 in Hk.
  rewrite Forall_map in Hw, Hs, Hb, Hk.
  set (F := fun d => strided (core.dilate_dim (d_extent d) (d_bdil d)
                              + d_pad_lo d + d_pad_hi d)
                             (core.dilate_dim (d_window d) (d_wdil d))
                             (d_stride d)).
  set (dx := mk_window_dim n 1 1 n 0 0 1 1).
  exists (map F ds). split; [|split].
  - rewrite E1, E2, E3, E5, E6, E7.
    apply (common_shape_rule_map ds d_extent d_window d_stride d_pad_lo
             d_pad_hi d_bdil d_wdil); assumption.
  - rewrite E1, E2, E3, E5, E6, E7.
    replace (insert_at b n (map d_extent ds))
      with (map d_extent (insert_at b dx ds))
      by (symmetry; apply (insert_at_map d_extent b dx ds)).
    replace (insert_at b 1 (map d_window ds))
      with (map d_window (insert_at b dx ds))
      by (symmetry; apply (insert_at_map d_window b dx ds)).
    replace (insert_at b 1 (map d_stride ds))
      with (map d_stride (insert_at b dx ds))
      by (symmetry; apply (insert_at_map d_stride b dx ds)).
    replace (insert_at b (0, 0) (map (fun d => (d_pad_lo d, d_pad_hi d)) ds))
      with (map (fun d => (d_pad_lo d, d_pad_hi d)) (insert_at b dx ds))
      by (symmetry;
          apply (insert_at_map (fun d => (d_pad_lo d, d_pad_hi d))
                   b dx ds)).
    replace (insert_at b 1 (map d_bdil ds))
      with (map d_bdil (insert_at b dx ds))
      by (symmetry; apply (insert_at_map d_bdil b dx ds)).
    replace (insert_at b 1 (map d_wdil ds))
      with (map d_wdil (insert_at b dx ds))
      by (symmetry; apply (insert_at_map d_wdil b dx ds)).
    rewrite (common_shape_rule_map (insert_at b dx ds) d_extent d_window
               d_stride d_pad_lo d_pad_hi d_bdil d_wdil);
      try (apply Forall_insert_at; [simpl; lia|assumption]).
    f_equal. rewrite <- (insert_at_map F). f_equal.
    subst F dx. cbn [d_extent d_window d_stride d_pad_lo d_pad_hi d_bdil
                     d_wdil].
    rewrite dilate_dim_one by lia.
    replace (core.dilate_dim 1 1) with 1 by reflexivity.
    unfold strided.
    destruct (n + 0 + 0 =? 0) eqn:E0; cbn [orb].
    + apply Z.eqb_eq in E0. lia.
    + apply Z.eqb_neq in E0.
      replace (n + 0 + 0 <? 1) with false by (symmetry; apply Z.ltb_ge; lia).
      rewrite Z.div_1_r. lia.
  - rewrite length_map, E1, length_map. reflexivity.
Qed.

Section batched_reduction.
Context {T : Type} `{Dtype T}.

Lemma window_position_insert_at (b : nat) (t : Z) (j ws k wdil : list Z) :
  length ws = length j -> length k = length j -> length wdil = length j ->
  mhlo.window_position (insert_at b t j) (insert_at b 1 ws)
    (insert_at b 0 k) (insert_at b 1 wdil)
  = insert_at b t (mhlo.window_position j ws k wdil).
Proof.
  intros L1 L2 L3. unfold mhlo.window_position.
  rewrite !map2_insert_at
    by (rewrite ?map2_length; lia).
  f_equal. lia.
Qed.

Lemma window_elems_batched (b : nat) (n t : Z) (ops' ops : list (array T))
      (inits : list T) (padding : list (Z * Z)) (bd pos : list Z) :
  batch_related b n t ops' ops ->
  0 <= t < n ->
  length padding = length pos -> length bd = length pos ->
  (forall o, hd_error ops = Some o -> length (shape o) = length pos) ->
  mhlo.window_elems ops' inits (insert_at b (0, 0) padding)
    (insert_at b 1 bd) (insert_at b t pos)
  = mhlo.window_elems ops inits padding bd pos.
Proof.
  intros Hrel Ht L1 L2 Hs. unfold mhlo.window_elems.
  destruct ops' as [|o' ops'], ops as [|o ops]; simpl in Hrel;
    try contradiction; [reflexivity|].
  destruct Hrel as [Hshape Hget].
  rewrite Hshape.
  rewrite (map2_insert_at (fun '(lo, _) d => (lo, d)) b (0, 0) 1)
    by lia.
  cbn beta iota.
  rewrite source_index_insert_at;
    [|assumption| rewrite map2_length by lia;
                  rewrite (Hs o eq_refl); lia
     | rewrite (Hs o eq_refl); reflexivity].
  destruct (lax.source_index (shape o) _ pos) as [q|]; simpl;
    [|reflexivity].
  apply Hget.
Qed.

Lemma reduce_at_batched (b : nat) (n t : Z) (ops' ops : list (array T))
      (inits : list T) (wd ws bd wdil : list Z) (padding : list (Z * Z))
      (reducer : list T -> list T -> list T) (j : list Z) :
  batch_related b n t ops' ops ->
  0 <= t < n ->
  length wd = length j -> length ws = length j ->
  length padding = length j -> length bd = length j ->
  length wdil = length j ->
  (forall o, hd_error ops = Some o -> length (shape o) = length j) ->
  mhlo.reduce_at ops' inits (insert_at b 1 wd) (insert_at b 1 ws)
    (insert_at b 1 bd) (insert_at b 1 wdil) (insert_at b (0, 0) padding)
    reducer (insert_at b t j)
  = mhlo.reduce_at ops inits wd ws bd wdil padding reducer j.
Proof.
  intros Hrel Ht L1 L2 L3 L4 L5 Hs. unfold mhlo.reduce_at.
  rewrite indices_insert_one, fold_left_map.
  apply fold_left_ext_in. intros acc k Hk.
  apply indices_length in Hk.
  rewrite window_position_insert_at by lia.
  assert (Lp : length (mhlo.window_position j ws k wdil) = length j).
  { unfold mhlo.window_position. rewrite !map2_length;
      rewrite ?map2_length; lia. }
  rewrite (window_elems_batched b n t ops' ops) ; try assumption; try lia.
  - reflexivity.
  - intros o Ho. rewrite (Hs o Ho). lia.
Qed.

End batched_reduction.

(** ** The batching rules *)

Lemma firstn_length_app {A : Type} (l1 l2 : list A) :
  firstn (length l1) (l1 ++ l2) = l1.
Proof. induction l1 as [|x l1 IH]; simpl; [|rewrite IH]; auto using firstn_O. Qed.

Lemma skipn_length_app {A : Type} (l1 l2 : list A) :
  skipn (length l1) (l1 ++ l2) = l2.
Proof. induction l1 as [|x l1 IH]; simpl; auto. Qed.

Lemma half_of_double (l1 l2 : nat) :
  l2 = l1 -> ((l1 + l2) / 2 = l1)%nat.
Proof.
  intros ->. replace (l1 + l1)%nat with (l1 * 2)%nat by lia.
  apply Nat.div_mul. discriminate.
Qed.

Lemma combine_seq_const {A B : Type} (x : B) (l : list A) (start : nat) :
  combine (seq start (length (map (fun _ => x) l))) (map (fun _ => x) l)
  = map (fun n => (n, x)) (seq start (length l)).
Proof.
  revert start; induction l as [|y l IH]; intros start; simpl;
    [reflexivity|]. rewrite IH. reflexivity.
Qed.

Lemma Forall2_map_same {A B C : Type} (R : B -> C -> Prop) (f : A -> B)
      (g : A -> C) (l : list A) :
  (forall x, In x l -> R (f x) (g x)) -> Forall2 R (map f l) (map g l).
Proof.
  induction l as [|x l IH]; intros HR; simpl; constructor.
  - apply HR. left. reflexivity.
  - apply IH. intros; apply HR; right; assumption.
Qed.

Section batching_rules.
Context {T : Type} `{Dtype T}.

Lemma specialized_bind_eq (r : monoid_reducer) (x : array T)
      (wd ws : list Z) (padding : list (Z * Z)) (bd wdil out_shape : list Z) :
  (r = use_reduce_window_sum -> is_number = true) ->
  _common_reduce_window_shape_rule (shape x) wd ws padding bd wdil
  = Ok out_shape ->
  specialized_bind r x wd ws padding bd wdil
  = Ok (mk_array out_shape
          (fun j => nth 0 (mhlo.reduce_at [x] [specialized_identity r]
                             wd ws bd wdil padding
                             (lax.scalar_region (specialized_op r)) j)
                        zero)).
Proof.
  intros Hnum Hshape. destruct r; simpl.
  - unfold reduce_window_sum_p_bind, _reduce_window_sum_shape_rule.
    rewrite (Hnum eq_refl). cbn [negb]. rewrite Hshape. reflexivity.
  - unfold reduce_window_max_p_bind. rewrite Hshape. reflexivity.
  - unfold reduce_window_min_p_bind. rewrite Hshape. reflexivity.
Qed.

Lemma reduce_window_p_bind_Ok (ops inits : list (array T)) (op0 : array T)
      (jaxpr : lax.jaxpr T) (wd ws : list Z) (padding : list (Z * Z))
      (bd wdil out_shape : list Z) :
  hd_error ops = Some op0 ->
  length inits = length ops ->
  Forall (fun v => shape v = []) inits ->
  lax.effects jaxpr = false ->
  _common_reduce_window_shape_rule (shape op0) wd ws padding bd wdil
  = Ok out_shape ->
  reduce_window_p_bind (ops ++ inits) jaxpr wd ws padding bd wdil
  = Ok (map (fun n =>
               mk_array out_shape
                 (fun j => nth n (mhlo.reduce_at ops
                                    (map (fun v => get v []) inits)
                                    wd ws bd wdil padding
                                    (lax.eval_jaxpr jaxpr) j) zero))
            (seq 0 (length ops))).
Proof.
  intros Hhd Hlen Hrank Heff Hshape.
  destruct ops as [|o ops]; [discriminate|].
  simpl in Hhd. injection Hhd as ->.
  set (operands := op0 :: ops) in *.
  assert (Hhalf : (length (operands ++ inits) / 2 = length operands)%nat).
  { rewrite length_app. apply half_of_double. exact Hlen. }
  assert (E1 : firstn (length operands) (map shape operands ++ map shape inits)
               = map shape operands).
  { rewrite <- (length_map shape operands). apply firstn_length_app. }
  assert (E2 : skipn (length operands) (map shape operands ++ map shape inits)
               = map shape inits).
  { rewrite <- (length_map shape operands). apply skipn_length_app. }
  assert (E3 : existsb (fun v : list Z => negb (length v =? 0)%nat)
                       (map shape inits) = false).
  { clear -Hrank. induction Hrank as [|v l Hv Hl IH]; simpl; [reflexivity|].
    rewrite Hv, IH. reflexivity. }
  unfold reduce_window_p_bind, _reduce_window_abstract_eval_rule,
    _generic_reduce_window_lower.
  rewrite length_map, Hhalf, map_app, E1, E2, E3.
  rewrite firstn_length_app, skipn_length_app.
  subst operands. cbn [map]. rewrite Hshape. cbn [bind]. rewrite Heff.
  unfold mhlo.ReduceWindowOp.
  change (out_shape :: map (fun _ => out_shape) (map shape ops))
    with (map (fun _ : list Z => out_shape) (map shape (op0 :: ops))).
  rewrite combine_seq_const, length_map, map_map. reflexivity.
Qed.

Lemma reduce_window_batch_rule_stacks (r : monoid_reducer)
      (operand : array T) (b : nat) (n : Z) (s wd ws : list Z)
      (padding : list (Z * Z)) (bd wdil : list Z) :
  shape operand = insert_at b n s -> (b <= length s)%nat -> 0 <= n ->
  length wd = length s -> length ws = length s ->
  length padding = length s -> length bd = length s ->
  length wdil = length s ->
  Forall (fun d => 1 <= d) wd -> Forall (fun d => 1 <= d) ws ->
  Forall (fun d => 1 <= d) bd -> Forall (fun d => 1 <= d) wdil ->
  (r = use_reduce_window_sum -> is_number = true) ->
  exists out,
    _reduce_window_batch_rule (apply_monoid_reducer r) [operand] [Some b]
      wd ws padding bd wdil = Ok (out, Some b) /\
    apply_monoid_reducer r operand (insert_at b 1 wd) (insert_at b 1 ws)
      (insert_at b (0, 0) padding) (Some (insert_at b 1 bd))
      (Some (insert_at b 1 wdil)) = Ok out /\
    forall t, 0 <= t < n ->
      exists u,
        apply_monoid_reducer r (take b t operand) wd ws padding (Some bd)
          (Some wdil) = Ok u /\
        array_eq (take b t out) u.
Proof.
  intros Hshape Hb Hn L1 L2 L3 L4 L5 Hw Hs Hbd Hk Hnum.
  destruct (common_shape_rule_batched b n s wd ws padding bd wdil
              L1 L2 L3 L4 L5 Hw Hs Hbd Hk Hn)
    as (out_shape & Hu & Hbatched & Lout).
  rewrite <- Hshape in Hbatched.
  pose proof (specialized_bind_eq r operand _ _ _ _ _ _ Hnum Hbatched)
    as Hout.
  match type of Hout with _ = Ok ?a => set (out := a) in * end.
  assert (Happ :
            apply_monoid_reducer r operand (insert_at b 1 wd)
              (insert_at b 1 ws) (insert_at b (0, 0) padding)
              (Some (insert_at b 1 bd)) (Some (insert_at b 1 wdil))
            = Ok out).
  { rewrite apply_monoid_reducer_bind. exact Hout. }
  exists out. split; [|split; [exact Happ|]].
  - unfold _reduce_window_batch_rule. rewrite Happ. reflexivity.
  - intros t Ht.
    assert (Hts : shape (take b t operand) = s).
    { cbn [take shape]. rewrite Hshape. apply remove_insert_at. exact Hb. }
    rewrite <- Hts in Hu.
    pose proof (specialized_bind_eq r (take b t operand) _ _ _ _ _ _
                  Hnum Hu) as Hunb.
    eexists. split.
    { rewrite apply_monoid_reducer_bind. exact Hunb. }
    split.
    + subst out. cbn [take shape]. apply remove_insert_at. lia.
    + intros j Hj. subst out. cbn [take shape get] in *.
      rewrite remove_insert_at in Hj by lia.
      apply in_bounds_length in Hj.
      rewrite (reduce_at_batched b n t [operand] [take b t operand]);
        try lia; try reflexivity; try assumption.
      * simpl. split; [|reflexivity].
        rewrite Hshape. f_equal. symmetry. apply remove_insert_at.
        exact Hb.
      * intros o Ho. simpl in Ho. injection Ho as <-.
        cbn [take shape]. rewrite Hshape, remove_insert_at by exact Hb.
        lia.
Qed.

Lemma bdim_at_front_related (size t : Z) (operands : list (array T))
      (obdims : list (option nat)) (q : list Z) :
  map (fun op => get op (insert_at 0 t q))
      (map2 (fun x bdim => batching.bdim_at_front x bdim size)
            operands obdims)
  = map (fun op => get op q) (map2 (unbatched t) operands obdims).
Proof.
  revert obdims; induction operands as [|x operands IH];
    intros [|bdim obdims]; simpl; try reflexivity.
  rewrite IH. f_equal. destruct bdim; reflexivity.
Qed.

Lemma generic_reduce_window_batch_rule_stacks
      (operands inits : list (array T)) (obdims ibdims : list (option nat))
      (op0 : array T) (bdim0 : option nat) (jaxpr : lax.jaxpr T) (size : Z)
      (wd ws : list Z) (padding : list (Z * Z)) (bd wdil : list Z) :
  hd_error operands = Some op0 -> hd_error obdims = Some bdim0 ->
  length inits = length operands -> length obdims = length operands ->
  Forall (fun v => shape v = []) inits ->
  existsb is_some ibdims = false ->
  lax.effects jaxpr = false ->
  first_batch_size (map2 (fun x ax => (x, ax)) operands obdims) = Ok size ->
  0 <= size ->
  let s := shape (unbatched 0 op0 bdim0) in
  length wd = length s -> length ws = length s ->
  length padding = length s -> length bd = length s ->
  length wdil = length s ->
  Forall (fun d => 1 <= d) wd -> Forall (fun d => 1 <= d) ws ->
  Forall (fun d => 1 <= d) bd -> Forall (fun d => 1 <= d) wdil ->
  exists outs,
    _generic_reduce_window_batch_rule (operands ++ inits)
      (obdims ++ ibdims) jaxpr wd ws padding bd wdil
    = Ok (outs, repeat 0%nat (length operands)) /\
    reduce_window_p_bind
      (map2 (fun x bdim => batching.bdim_at_front x bdim size)
            operands obdims ++ inits)
      jaxpr (1 :: wd) (1 :: ws) ((0, 0) :: padding) (1 :: bd) (1 :: wdil)
    = Ok outs /\
    forall t, 0 <= t < size ->
      exists us,
        reduce_window_p_bind (map2 (unbatched t) operands obdims ++ inits)
          jaxpr wd ws padding bd wdil = Ok us /\
        Forall2 (fun out u => array_eq (take 0 t out) u) outs us.
Proof.
  intros Hop Hbd0 Hin Hob Hrank Hib Heff Hsize Hnn s
         L1 L2 L3 L4 L5 Hw Hs Hbd Hk.
  destruct (common_shape_rule_batched 0 size s wd ws padding bd wdil
              L1 L2 L3 L4 L5 Hw Hs Hbd Hk Hnn)
    as (out_shape & Hu & Hbatched & Lout).
  rewrite !insert_at_zero in Hbatched.
  destruct operands as [|x operands]; [discriminate|].
  destruct obdims as [|bx obdims]; [discriminate|].
  simpl in Hop, Hbd0. injection Hop as ->. injection Hbd0 as ->.
  set (ops := op0 :: operands) in *. set (bds := bdim0 :: obdims) in *.
  set (ops' := map2 (fun x bdim => batching.bdim_at_front x bdim size)
                    ops bds).
  assert (Hfront : shape (batching.bdim_at_front op0 bdim0 size)
                   = size :: s).
  { subst s. destruct bdim0 as [b0|]; cbn; [|reflexivity].
    subst ops bds. simpl in Hsize.
    destruct (nth_error (shape op0) b0) as [m|] eqn:E; [|discriminate].
    injection Hsize as <-.
    rewrite (nth_error_nth _ _ 0 E). reflexivity. }
  assert (Hlen' : length inits = length ops').
  { subst ops'. rewrite map2_length by (symmetry; exact Hob). exact Hin. }
  assert (Hbind :
            reduce_window_p_bind (ops' ++ inits) jaxpr (1 :: wd) (1 :: ws)
              ((0, 0) :: padding) (1 :: bd) (1 :: wdil)
            = Ok (map (fun n =>
                         mk_array (size :: out_shape)
                           (fun j => nth n
                              (mhlo.reduce_at ops'
                                 (map (fun v => get v []) inits)
                                 (1 :: wd) (1 :: ws) (1 :: bd) (1 :: wdil)
                                 ((0, 0) :: padding)
                                 (lax.eval_jaxpr jaxpr) j) zero))
                      (seq 0 (length ops')))).
  { apply (reduce_window_p_bind_Ok ops' inits
             (batching.bdim_at_front op0 bdim0 size));
      try assumption; [reflexivity|].
    rewrite Hfront. exact Hbatched. }
  eexists. split; [|split; [exact Hbind|]].
  - unfold _generic_reduce_window_batch_rule.
    assert (Hhalf : (length (ops ++ inits) / 2 = length ops)%nat).
    { rewrite length_app. apply half_of_double. exact Hin. }
    assert (E1 : firstn (length ops) (bds ++ ibdims) = bds).
    { rewrite <- Hob. apply firstn_length_app. }
    assert (E2 : skipn (length ops) (bds ++ ibdims) = ibdims).
    { rewrite <- Hob. apply skipn_length_app. }
    rewrite Hhalf, E1, E2, firstn_length_app, skipn_length_app, Hib.
    rewrite (safe_map2_Ok (fun x ax => (x, ax))) by (symmetry; exact Hob).
    cbn [bind]. rewrite Hsize. cbn [bind].
    rewrite (safe_map2_Ok (fun x bdim => batching.bdim_at_front x bdim size))
      by (symmetry; exact Hob).
    cbn [bind]. fold ops'. rewrite Hbind. reflexivity.
  - intros t Ht.
    set (unb := map2 (unbatched t) ops bds).
    assert (Hlenu : length inits = length unb).
    { subst unb. rewrite map2_length by (symmetry; exact Hob). exact Hin. }
    assert (Hus : shape (unbatched t op0 bdim0) = s).
    { subst s. destruct bdim0; reflexivity. }
    rewrite <- Hus in Hu.
    pose proof (reduce_window_p_bind_Ok unb inits (unbatched t op0 bdim0)
                  jaxpr wd ws padding bd wdil out_shape eq_refl Hlenu
                  Hrank Heff Hu) as Hunb.
    eexists. split; [exact Hunb|].
    assert (Hll : length ops' = length unb).
    { subst ops' unb. rewrite !map2_length by (symmetry; exact Hob).
      reflexivity. }
    rewrite Hll. apply Forall2_map_same. intros k _. split.
    + reflexivity.
    + intros j Hj. cbn [take shape get remove_at firstn skipn app] in *.
      apply in_bounds_length in Hj. f_equal.
      change (1 :: wd) with (insert_at 0 1 wd).
      change (1 :: ws) with (insert_at 0 1 ws).
      change (1 :: bd) with (insert_at 0 1 bd).
      change (1 :: wdil) with (insert_at 0 1 wdil).
      change ((0, 0) :: padding) with (insert_at 0 (0, 0) padding).
      apply (reduce_at_batched 0 size t ops' unb); try lia.
      * subst ops' unb ops bds. cbn [map2 batch_related].
        split; [rewrite Hfront, Hus; reflexivity|].
        intros q. apply (bdim_at_front_related size t (op0 :: operands)
                           (bdim0 :: obdims) q).
      * intros o Ho. subst unb ops bds. simpl in Ho. injection Ho as <-.
        rewrite Hus. lia.
Qed.

(** C9 (amended). The generic rule raises NotImplementedError when an
    initial value carries a batch axis; otherwise it brings every operand's
    batch axis to the front, prepends the degenerate window entry (window
    1, stride 1, padding (0,0), both dilations 1) and binds the generic
    primitive, with all outputs batched at axis 0.  The rule of the
    specialized primitives leaves the operand as it is, inserts the
    degenerate entry at the position of the batch axis and binds the same
    specialized primitive, with the output batched at that axis.  In both,
    on valid geometry (windows, strides and dilations at least one), the
    sub-array of each output at any position of the batch axis is the output of the unbatched invocation on the operands'
    sub-arrays at that position. *)
Theorem batching_rules_stack :
  (forall (batched_args : list (array T)) (batch_dims : list (option nat))
          (jaxpr : lax.jaxpr T) (wd ws : list Z) (padding : list (Z * Z))
          (bd wdil : list Z),
      Exists (fun bdim => bdim <> None)
             (skipn (length batched_args / 2) batch_dims) ->
      _generic_reduce_window_batch_rule batched_args batch_dims jaxpr
        wd ws padding bd wdil = Raise NotImplementedError) /\
  (forall (operands inits : list (array T))
          (obdims ibdims : list (option nat)) (op0 : array T)
          (bdim0 : option nat) (jaxpr : lax.jaxpr T) (size : Z)
          (wd ws : list Z) (padding : list (Z * Z)) (bd wdil : list Z),
      hd_error operands = Some op0 -> hd_error obdims = Some bdim0 ->
      length inits = length operands -> length obdims = length operands ->
      Forall (fun v => shape v = []) inits ->
      Forall (fun bdim => bdim = None) ibdims ->
      lax.effects jaxpr = false ->
      first_batch_size (map2 (fun x ax => (x, ax)) operands obdims)
      = Ok size ->
      0 <= size ->
      let s := shape (unbatched 0 op0 bdim0) in
      length wd = length s -> length ws = length s ->
      length padding = length s -> length bd = length s ->
      length wdil = length s ->
      Forall (fun d => 1 <= d) wd -> Forall (fun d => 1 <= d) ws ->
      Forall (fun d => 1 <= d) bd -> Forall (fun d => 1 <= d) wdil ->
      exists outs,
        _generic_reduce_window_batch_rule (operands ++ inits)
          (obdims ++ ibdims) jaxpr wd ws padding bd wdil
        = Ok (outs, repeat 0%nat (length operands)) /\
        reduce_window_p_bind
          (map2 (fun x bdim => batching.bdim_at_front x bdim size)
                operands obdims ++ inits)
          jaxpr (1 :: wd) (1 :: ws) ((0, 0) :: padding) (1 :: bd)
          (1 :: wdil)
        = Ok outs /\
        forall t, 0 <= t < size ->
          exists us,
            reduce_window_p_bind
              (map2 (unbatched t) operands obdims ++ inits)
              jaxpr wd ws padding bd wdil = Ok us /\
            Forall2 (fun out u => array_eq (take 0 t out) u) outs us) /\
  (forall (r : monoid_reducer) (operand : array T) (b : nat) (n : Z)
          (s wd ws : list Z) (padding : list (Z * Z)) (bd wdil : list Z),
      shape operand = insert_at b n s -> (b <= length s)%nat -> 0 <= n ->
      length wd = length s -> length ws = length s ->
      length padding = length s -> length bd = length s ->
      length wdil = length s ->
      Forall (fun d => 1 <= d) wd -> Forall (fun d => 1 <= d) ws ->
      Forall (fun d => 1 <= d) bd -> Forall (fun d => 1 <= d) wdil ->
      (r = use_reduce_window_sum -> is_number = true) ->
      exists out,
        _reduce_window_batch_rule (apply_monoid_reducer r) [operand]
          [Some b] wd ws padding bd wdil = Ok (out, Some b) /\
        apply_monoid_reducer r operand (insert_at b 1 wd)
          (insert_at b 1 ws) (insert_at b (0, 0) padding)
          (Some (insert_at b 1 bd)) (Some (insert_at b 1 wdil)) = Ok out /\
        forall t, 0 <= t < n ->
          exists u,
            apply_monoid_reducer r (take b t operand) wd ws padding
              (Some bd) (Some wdil) = Ok u /\
            array_eq (take b t out) u).
Proof.
  split; [|split].
  - intros batched_args batch_dims jaxpr wd ws padding bd wdil Hex.
    unfold _generic_reduce_window_batch_rule.
    replace (existsb is_some _) with true; [reflexivity|].
    symmetry. apply existsb_exists. apply Exists_exists in Hex.
    destruct Hex as (bdim & Hin & Hne). exists bdim. split; [exact Hin|].
    destruct bdim; [reflexivity|congruence].
  - intros operands inits obdims ibdims op0 bdim0 jaxpr size wd ws padding
           bd wdil Hop Hbd0 Hin Hob Hrank Hib.
    apply generic_reduce_window_batch_rule_stacks; try assumption.
    clear -Hib. induction Hib as [|x l Hx Hl IH]; simpl; [reflexivity|].
    rewrite Hx, IH. reflexivity.
  - intros. apply (reduce_window_batch_rule_stacks r operand b n s);
      assumption.
Qed.

End batching_rules.

(** The specialized rule at a float32 operand of shape [2,3] batched at
    axis 1 over a window of 2: the slice of the batched sum at each of the
    three positions of the batch axis is the sum of that slice. *)
Lemma batching_rules_stack_witness :
  let operand :=
    mk_array [2; 3]
      (fun idx => float32.of_Z (nth 0 idx 0 + 10 * nth 1 idx 0)) in
  exists out,
    _reduce_window_batch_rule
      (apply_monoid_reducer use_reduce_window_sum) [operand] [Some 1%nat]
      [2] [1] [(0, 0)] [1] [1] = Ok (out, Some 1%nat) /\
    apply_monoid_reducer use_reduce_window_sum operand
      (insert_at 1 1 [2]) (insert_at 1 1 [1]) (insert_at 1 (0, 0) [(0, 0)])
      (Some (insert_at 1 1 [1])) (Some (insert_at 1 1 [1])) = Ok out /\
    forall t, 0 <= t < 3 ->
      exists u,
        apply_monoid_reducer use_reduce_window_sum (take 1 t operand)
          [2] [1] [(0, 0)] (Some [1]) (Some [1]) = Ok u /\
        array_eq (take 1 t out) u.
Proof.
  cbv zeta.
  apply (proj2 (proj2 batching_rules_stack) use_reduce_window_sum
           (mk_array [2; 3]
              (fun idx => float32.of_Z (nth 0 idx 0 + 10 * nth 1 idx 0)))
           1%nat 3 [2] [2] [1] [(0, 0)] [1] [1]);
    try reflexivity; try (simpl; lia); repeat constructor; lia.
Defined.

(** C9 as stated fails for the specialized primitives: with the batch axis
    at position 1 of an operand of shape [4,5,6] and window dimensions
    [2,3], the rule binds the sum with window dimensions [2,1,3] and
    returns shape [3,5,4] batched at axis 1; prepending the degenerate
    entry, window dimensions [1,2,3], would return shape [4,4,4]. *)
Lemma reduce_window_batch_rule_not_prepended :
  let operand := mk_array [4; 5; 6] (fun _ => S754_zero false) in
  result_map (fun '(out, bdim) => (shape out, bdim))
    (_reduce_window_batch_rule _reduce_window_sum [operand] [Some 1%nat]
       [2; 3] [1; 1] [(0, 0); (0, 0)] [1; 1] [1; 1])
  = Ok ([3; 5; 4], Some 1%nat) /\
  result_map shape
    (_reduce_window_sum operand [2; 1; 3] [1; 1; 1]
       [(0, 0); (0, 0); (0, 0)] (Some [1; 1; 1]) (Some [1; 1; 1]))
  = Ok [3; 5; 4] /\
  result_map shape
    (_reduce_window_sum operand (1 :: [2; 3]) (1 :: [1; 1])
       ((0, 0) :: [(0, 0); (0, 0)]) (Some (1 :: [1; 1]))
       (Some (1 :: [1; 1])))
  = Ok [4; 4; 4].
Proof. vm_compute. repeat split; reflexivity. Qed.

(** ** The two lowerings of select_and_scatter_add *)

Lemma starts_as_fst (padding : list (Z * Z)) :
  map (fun '(lo, hi) => lo) padding = map fst padding.
Proof. apply map_ext. intros [lo hi]. reflexivity. Qed.

Lemma sub_zero_padding (c : list Z) (padding : list (Z * Z)) :
  length c = length padding ->
  map2 Z.sub c (map fst (map (fun _ => (0, 0)) padding)) = c.
Proof.
  revert padding; induction c as [|x c IH]; intros [|p padding] Hl;
    simpl in *; try discriminate; [reflexivity|].
  rewrite IH by lia. f_equal. lia.
Qed.

Lemma expanded_source_index (s : list Z) (padding : list (Z * Z))
      (c : list Z) :
  length padding = length s -> length c = length s ->
  Forall (fun d => 0 <= d) s ->
  lax.source_index s
    (map (fun '(l, _, i) => (l, i + 1))
         (map (fun '(lo, hi) => (lo, hi, 0)) padding)) c
  = if in_bounds s (map2 Z.sub c (map fst padding))
    then Some (map2 Z.sub c (map fst padding)) else None.
Proof.
  revert padding c; induction s as [|n s IH];
    intros [|[lo hi] padding] [|x c] Hp Hc Hs; simpl in *;
    try discriminate; [reflexivity|].
  inversion Hs as [|? ? Hn Hs']; subst.
  rewrite IH by (assumption || lia).
  unfold lax.dilated_source. rewrite dilate_dim_one by lia.
  replace (0 + 1) with 1 by lia. rewrite Z.mod_1_r, Z.div_1_r.
  cbn [Z.eqb]. rewrite andb_true_r.
  destruct ((0 <=? x - lo) && (x - lo <? n)); [|reflexivity].
  destruct (in_bounds s (map2 Z.sub c (map fst padding))); reflexivity.
Qed.

Lemma expanded_in_bounds (s : list Z) (padding : list (Z * Z)) (c : list Z) :
  Forall (fun '(lo, hi) => 0 <= lo /\ 0 <= hi) padding ->
  Forall (fun d => 0 <= d) s ->
  length padding = length s -> length c = length s ->
  in_bounds s (map2 Z.sub c (map fst padding)) = true ->
  in_bounds
    (map2 (fun '(l, h, i) d => l + h + core.dilate_dim d (i + 1))
          (map (fun '(lo, hi) => (lo, hi, 0)) padding) s) c = true.
Proof.
  revert padding c; induction s as [|n s IH];
    intros [|[lo hi] padding] [|x c] Hp Hs Hl Hc; simpl in *;
    try discriminate; auto.
  inversion Hp as [|? ? Hh Hp']; subst. simpl in Hh.
  inversion Hs as [|? ? Hn Hs']; subst.
  rewrite dilate_dim_one by lia.
  rewrite !andb_true_iff, Z.leb_le, Z.ltb_lt, Z.leb_le, Z.ltb_lt.
  intros [[H0 H1] Hr]. repeat split; try lia.
  apply IH; (assumption || lia).
Qed.

Lemma shifted_index_eqb (starts p i : list Z) :
  length p = length starts -> length i = length starts ->
  index_eqb p (map2 Z.add starts (map2 Z.mul i (map (fun _ => 1) starts)))
  = index_eqb (map2 Z.sub p starts) i.
Proof.
  revert p i; induction starts as [|lo starts IH];
    intros [|x p] [|y i] Hp Hi; simpl in *; try discriminate;
    [reflexivity|].
  rewrite IH by lia. f_equal.
  destruct (x =? lo + y * 1) eqn:E1, (x - lo =? y) eqn:E2; try reflexivity.
  - apply Z.eqb_eq in E1. apply Z.eqb_neq in E2. lia.
  - apply Z.eqb_neq in E1. apply Z.eqb_eq in E2. lia.
Qed.

Section expand_padding_equivalence.
Context {T : Type} `{Dtype T}.
Variables (operand source : array T).
Variable select_prim : lax.comparison_primitive.
Variables (wd ws : list Z) (padding : list (Z * Z)).

Let sel := lax.bind_comparison select_prim.
Let ident := select_identity select_prim.
Let expanded := expanded_operand operand select_prim padding.
Let starts := map fst padding.
Let zero_padding := map (fun _ : Z * Z => (0, 0)) padding.

Hypothesis padding_rank : length padding = length (shape operand).
Hypothesis padding_nonneg :
  Forall (fun '(lo, hi) => 0 <= lo /\ 0 <= hi) padding.
Hypothesis shape_nonneg : Forall (fun d => 0 <= d) (shape operand).
Hypothesis strides_rank : length ws = length (shape operand).
Hypothesis identity_loses :
  forall q, in_bounds (shape operand) q = true ->
            sel ident (get operand q) = false /\
            sel (get operand q) ident = true.

Lemma select_step_related (j k : list Z) (st_d st_e : option (list Z * T)) :
  length j = length (shape operand) -> length k = length (shape operand) ->
  select_related operand ident starts st_d st_e ->
  select_related operand ident starts
    (mhlo.select_step operand sel ws padding j st_d k)
    (mhlo.select_step expanded sel ws zero_padding j st_e k).
Proof.
  intros Hj Hk Hrel. unfold mhlo.select_step.
  set (c := map2 Z.add (map2 Z.mul j ws) k).
  assert (Hc : length c = length (shape operand)).
  { subst c. rewrite !map2_length; rewrite ?map2_length; lia. }
  subst zero_padding. rewrite sub_zero_padding by lia.
  fold starts.
  assert (Hget : get expanded c =
                 if in_bounds (shape operand) (map2 Z.sub c starts)
                 then get operand (map2 Z.sub c starts) else ident).
  { subst expanded. unfold expanded_operand. cbn [get].
    rewrite expanded_source_index by assumption. fold starts.
    destruct (in_bounds (shape operand) (map2 Z.sub c starts)); reflexivity. }
  assert (Hls : length starts = length (shape operand)).
  { subst starts. rewrite length_map. exact padding_rank. }
  destruct (in_bounds (shape operand) (map2 Z.sub c starts)) eqn:Ein.
  - assert (Eexp : in_bounds (shape expanded) c = true).
    { subst expanded. unfold expanded_operand. cbn [shape].
      apply expanded_in_bounds; assumption. }
    rewrite Eexp, Hget.
    destruct st_e as [[p' v']|]; simpl in Hrel.
    + destruct Hrel as [Hlp Hrel].
      destruct (in_bounds (shape operand) (map2 Z.sub p' starts)) eqn:Ep.
      * destruct Hrel as [-> Hv].
        destruct (sel v' (get operand (map2 Z.sub c starts))).
        -- simpl. rewrite Ep. auto.
        -- simpl. rewrite Ein. split; [lia|auto].
      * destruct Hrel as [-> ->].
        destruct (identity_loses _ Ein) as [Hlose _]. rewrite Hlose.
        simpl. rewrite Ein. split; [lia|auto].
    + subst st_d. simpl. rewrite Ein. split; [lia|auto].
  - destruct (in_bounds (shape expanded) c) eqn:Eexp; [|exact Hrel].
    rewrite Hget.
    destruct st_e as [[p' v']|]; simpl in Hrel.
    + destruct Hrel as [Hlp Hrel].
      destruct (in_bounds (shape operand) (map2 Z.sub p' starts)) eqn:Ep.
      * destruct Hrel as [-> Hv].
        destruct (identity_loses _ Ep) as [_ Hkeep].
        rewrite Hv, Hkeep. simpl. rewrite Ep. rewrite <- Hv. auto.
      * destruct Hrel as [-> ->].
        destruct (sel ident ident).
        -- simpl. rewrite Ep. auto.
        -- simpl. rewrite Ein. split; [lia|auto].
    + subst st_d. simpl. rewrite Ein. split; [lia|auto].
Qed.

Lemma selected_related (j : list Z) :
  length j = length (shape operand) ->
  length wd = length (shape operand) ->
  select_related operand ident starts
    (mhlo.selected operand sel wd ws padding j)
    (mhlo.selected expanded sel wd ws zero_padding j).
Proof.
  intros Hj Hwd. unfold mhlo.selected.
  assert (Hks : forall k, In k (indices wd) ->
                          length k = length (shape operand)).
  { intros k Hk. rewrite (indices_length _ _ Hk). exact Hwd. }
  assert (Hinit : select_related operand ident starts None None)
    by reflexivity.
  revert Hks Hinit. generalize (@None (list Z * T)) at 1 3.
  generalize (@None (list Z * T)).
  induction (indices wd) as [|k ks IH]; intros st_e st_d Hks Hrel;
    simpl; [exact Hrel|].
  apply IH.
  - intros k' Hk'. apply Hks. right. exact Hk'.
  - apply select_step_related; try assumption.
    apply Hks. left. reflexivity.
Qed.

Lemma scatter_step_agrees (i j : list Z) (scatter : T -> T -> T) (acc : T) :
  in_bounds (shape operand) i = true ->
  length j = length (shape operand) ->
  length wd = length (shape operand) ->
  match mhlo.selected operand sel wd ws padding j with
  | Some (p, _) =>
      if index_eqb p i then scatter acc (get source j) else acc
  | None => acc
  end =
  match mhlo.selected expanded sel wd ws zero_padding j with
  | Some (p, _) =>
      if index_eqb p
           (map2 Z.add starts (map2 Z.mul i (map (fun _ => 1) starts)))
      then scatter acc (get source j) else acc
  | None => acc
  end.
Proof.
  intros Hi Hj Hwd.
  pose proof (selected_related j Hj Hwd) as Hrel.
  assert (Hls : length starts = length (shape operand)).
  { subst starts. rewrite length_map. exact padding_rank. }
  pose proof (in_bounds_length _ _ Hi) as Hli.
  destruct (mhlo.selected expanded sel wd ws zero_padding j)
    as [[p' v']|]; simpl in Hrel.
  - destruct Hrel as [Hlp Hrel].
    rewrite shifted_index_eqb by lia.
    destruct (in_bounds (shape operand) (map2 Z.sub p' starts)) eqn:Ep.
    + destruct Hrel as [-> _]. reflexivity.
    + destruct Hrel as [-> _].
      destruct (index_eqb (map2 Z.sub p' starts) i) eqn:E; [|reflexivity].
      apply index_eqb_eq in E. rewrite E in Ep. congruence.
  - rewrite Hrel. reflexivity.
Qed.

End expand_padding_equivalence.

Lemma indices_in_bounds (s idx : list Z) :
  In idx (indices s) -> in_bounds s idx = true.
Proof.
  revert idx; induction s as [|n s IH]; intros idx Hin; simpl in Hin.
  - destruct Hin as [<-|[]]. reflexivity.
  - apply in_flat_map in Hin. destruct Hin as (i & Hi & Hin).
    apply in_map_iff in Hin. destruct Hin as (rest & <- & Hrest).
    unfold range in Hi. apply in_map_iff in Hi.
    destruct Hi as (k & <- & Hk). apply in_seq in Hk.
    simpl. rewrite (IH _ Hrest), andb_true_r.
    apply andb_true_iff. split; [apply Z.leb_le|apply Z.ltb_lt]; lia.
Qed.

Lemma array_eq_to_list {T : Type} (a b : array T) :
  array_eq a b -> to_list a = to_list b.
Proof.
  intros [Hs Hg]. unfold to_list. rewrite <- Hs.
  apply map_ext_in. intros idx Hin. apply Hg, indices_in_bounds, Hin.
Qed.

(** Where the two lowerings do agree: on geometry on which both are
    defined (non-negative padding and window entries, one rank) and an
    operand whose every element is selected over the select identity and
    never loses to it (for >= with identity -infinity: no element is
    -infinity or NaN), the direct-padding lowering and the
    expand-then-slice lowering of select_and_scatter_add return the same
    array, element for element in row-major order. *)
Lemma select_and_scatter_add_lowerings_agree
        {T : Type} `{Dtype T} (source operand : array T)
        (select_prim : lax.comparison_primitive) (wd ws : list Z)
        (padding : list (Z * Z)) :
  Forall (fun d => 0 <= d) wd -> Forall (fun d => 0 <= d) ws ->
  length wd = length (shape operand) ->
  length ws = length (shape operand) ->
  length (shape source) = length (shape operand) ->
  length padding = length (shape operand) ->
  Forall (fun '(lo, hi) => 0 <= lo /\ 0 <= hi) padding ->
  Forall (fun d => 0 <= d) (shape operand) ->
  (forall q, in_bounds (shape operand) q = true ->
     lax.bind_comparison select_prim (select_identity select_prim)
       (get operand q) = false /\
     lax.bind_comparison select_prim (get operand q)
       (select_identity select_prim) = true) ->
  exists direct expand,
    _select_and_scatter_add_impl source operand select_prim wd ws padding
      false = Ok direct /\
    _select_and_scatter_add_impl source operand select_prim wd ws padding
      true = Ok expand /\
    array_eq direct expand /\
    to_list direct = to_list expand.
Proof.
  intros Hwd Hws Lwd Lws Lsrc Lpad Hpad Hshape Hdom.
  rewrite select_and_scatter_add_direct_Ok by (assumption || lia).
  rewrite select_and_scatter_add_expand_Ok by (assumption || lia).
  eexists _, _. split; [reflexivity|]. split; [reflexivity|].
  match goal with
  | |- ?P /\ _ => assert (Heq : P); [|split; [exact Heq|]]
  end; [|apply array_eq_to_list, Heq].
  split; [reflexivity|].
  intros i Hi. cbn [shape get mhlo.SelectAndScatterOp] in *.
  apply fold_left_ext_in. intros acc j Hj.
  apply indices_length in Hj.
  rewrite starts_as_fst.
  apply (scatter_step_agrees operand source select_prim wd ws padding
           Lpad Hpad Hshape Lws Hdom i j); (assumption || lia).
Qed.

(** The two lowerings on the float32 operand [1,5,2,4], padded by one
    slot on each side, with windows of 2 at stride 2 and the source
    [10,20,30]. *)
Lemma select_and_scatter_add_lowerings_agree_witness :
  let operand := of_list (float32.of_Z 0) (map float32.of_Z [1; 5; 2; 4]) in
  let source := of_list (float32.of_Z 0) (map float32.of_Z [10; 20; 30]) in
  exists direct expand,
    _select_and_scatter_add_impl source operand lax.ge_p [2] [2] [(1, 1)]
      false = Ok direct /\
    _select_and_scatter_add_impl source operand lax.ge_p [2] [2] [(1, 1)]
      true = Ok expand /\
    array_eq direct expand /\
    to_list direct = to_list expand.
Proof.
  cbv zeta.
  apply (select_and_scatter_add_lowerings_agree
           (of_list (float32.of_Z 0) (map float32.of_Z [10; 20; 30]))
           (of_list (float32.of_Z 0) (map float32.of_Z [1; 5; 2; 4]))
           lax.ge_p [2] [2] [(1, 1)]);
    try reflexivity; try (repeat constructor; simpl; lia).
  intros [|i [|i' q]] Hq; simpl in Hq; try discriminate;
    try (rewrite andb_false_r in Hq; discriminate).
  rewrite andb_true_r, andb_true_iff, Z.leb_le, Z.ltb_lt in Hq.
  assert (Hi : i = 0 \/ i = 1 \/ i = 2 \/ i = 3) by lia.
  destruct Hi as [->|[->|[->| ->]]]; vm_compute; split; reflexivity.
Defined.

(** C7. The two lowerings differ on float32 with predicate >=: for the
    operand [-infinity] with one slot of low padding, a window of 2 and
    the source [1], both lowerings are defined; the direct one routes the
    source to the operand's element and returns [1], the expanding one
    (lines 591-598) fills the padding slot with -infinity, which comes
    first in the window and ties, so that the source is routed to the
    padding slot and sliced away: it returns [0]. *)
Lemma select_and_scatter_add_lowerings_differ :
  let operand := of_list (S754_zero false) [S754_infinity true] in
  let source := of_list (S754_zero false) [float32.of_Z 1] in
  result_map to_list
    (_select_and_scatter_add_impl source operand lax.ge_p [2] [1] [(1, 0)]
       false)
  = Ok [float32.of_Z 1] /\
  result_map to_list
    (_select_and_scatter_add_impl source operand lax.ge_p [2] [1] [(1, 0)]
       true)
  = Ok [S754_zero false] /\
  float32.of_Z 1 <> S754_zero false.
Proof. vm_compute. repeat split; try reflexivity. discriminate. Qed.

(** * Further properties of the file *)

(** ** What the shape rule accepts and how it fails *)

Lemma check_shapelike_cases (non_zero : bool) (l : list Z) :
  (Forall (fun d => (if non_zero then 1 else 0) <= d) l /\
   lax._check_shapelike non_zero l = Ok tt) \/
  (~ Forall (fun d => (if non_zero then 1 else 0) <= d) l /\
   lax._check_shapelike non_zero l = Raise TypeError).
Proof.
  destruct (lax._check_shapelike non_zero l) as [[]|e] eqn:E.
  - left. split; [|reflexivity]. eapply check_shapelike_inv. exact E.
  - right. unfold lax._check_shapelike in E.
    destruct (forallb _ l) eqn:Ef; [discriminate|].
    injection E as <-. split; [|reflexivity].
    intros HF. apply (check_shapelike_Ok non_zero) in HF.
    unfold lax._check_shapelike in HF. rewrite Ef in HF. discriminate.
Qed.

Lemma safe_map3_length_mismatch {A B C D : Type} (f : A -> B -> C -> D)
      (xs : list A) (ys : list B) (zs : list C) :
  ~ (length xs = length ys /\ length xs = length zs) ->
  util.safe_map3 (fun x y z => Ok (f x y z)) xs ys zs
  = Raise AssertionError.
Proof.
  revert ys zs; induction xs as [|x xs IH]; intros [|y ys] [|z zs] Hl;
    simpl in *; try reflexivity.
  - exfalso. apply Hl. split; reflexivity.
  - rewrite IH; [reflexivity|]. intros [H1 H2]. apply Hl. split; lia.
Qed.

Lemma positive_cases (l : list Z) :
  (Forall (fun d => 1 <= d) l /\ forallb (fun d => 0 <? d) l = true) \/
  (~ Forall (fun d => 1 <= d) l /\ forallb (fun d => 0 <? d) l = false).
Proof.
  destruct (forallb (fun d => 0 <? d) l) eqn:E.
  - left. split; [|reflexivity]. apply Forall_forall. intros x Hx.
    rewrite forallb_forall in E. specialize (E x Hx).
    apply Z.ltb_lt in E. lia.
  - right. split; [|reflexivity]. intros HF.
    rewrite (forallb_positive l HF) in E. discriminate.
Qed.

Lemma dilate_shape_Ok (s dilation : list Z) :
  Forall (fun d => 1 <= d) dilation -> length dilation = length s ->
  exists out, lax._dilate_shape s dilation = Ok out /\
              length out = length s.
Proof.
  intros Hpos Hlen. rewrite dilate_shape_positive by assumption.
  destruct (safe_map2_total core.dilate_dim s dilation)
    as (out & E & L & _); [lia|].
  exists out. split; assumption.
Qed.

Lemma dilate_shape_raises_TypeError (s dilation : list Z) :
  ~ Forall (fun d => 1 <= d) dilation ->
  lax._dilate_shape s dilation = Raise TypeError.
Proof.
  intros Hn. unfold lax._dilate_shape.
  destruct (positive_cases dilation) as [[HF _]|[_ ->]];
    [contradiction|reflexivity].
Qed.

Lemma common_shape_rule_cases (s wd ws : list Z) (padding : list (Z * Z))
      (bd wdil : list Z) :
  (~ checked_geometry s wd ws bd wdil ->
   _common_reduce_window_shape_rule s wd ws padding bd wdil
   = Raise TypeError) /\
  (checked_geometry s wd ws bd wdil -> length padding <> length s ->
   _common_reduce_window_shape_rule s wd ws padding bd wdil
   = Raise AssertionError) /\
  (checked_geometry s wd ws bd wdil -> length padding = length s ->
   exists out,
     _common_reduce_window_shape_rule s wd ws padding bd wdil = Ok out /\
     length out = length s).
Proof.
  unfold checked_geometry, _common_reduce_window_shape_rule.
  destruct (check_shapelike_cases true wd) as [[F1 ->]|[F1 ->]];
    [|repeat split; try reflexivity; intros (? & _); contradiction].
  destruct (check_shapelike_cases true ws) as [[F2 ->]|[F2 ->]];
    [|repeat split; try reflexivity; intros (_ & ? & _); contradiction].
  destruct (check_shapelike_cases false bd) as [[F3 ->]|[F3 ->]].
  2:{ repeat split; try reflexivity; intros (_ & _ & F & _); exfalso;
        apply F3; (eapply Forall_impl; [|exact F]); simpl; intros; lia. }
  destruct (check_shapelike_cases false wdil) as [[F4 ->]|[F4 ->]].
  2:{ repeat split; try reflexivity; intros (_ & _ & _ & F & _); exfalso;
        apply F4; (eapply Forall_impl; [|exact F]); simpl; intros; lia. }
  cbn [bind].
  destruct (length s =? length wd)%nat eqn:E1; cbn [negb];
    [apply Nat.eqb_eq in E1
    |apply Nat.eqb_neq in E1; repeat split; try reflexivity;
     intros (_ & _ & _ & _ & ? & _); contradiction].
  destruct (length ws =? length wd)%nat eqn:E2; cbn [negb];
    [apply Nat.eqb_eq in E2
    |apply Nat.eqb_neq in E2; repeat split; try reflexivity;
     intros (_ & _ & _ & _ & _ & ? & _); contradiction].
  destruct (length bd =? length wd)%nat eqn:E3; cbn [negb];
    [apply Nat.eqb_eq in E3
    |apply Nat.eqb_neq in E3; repeat split; try reflexivity;
     intros (_ & _ & _ & _ & _ & _ & ? & _); contradiction].
  destruct (length wdil =? length wd)%nat eqn:E4; cbn [negb];
    [apply Nat.eqb_eq in E4
    |apply Nat.eqb_neq in E4; repeat split; try reflexivity;
     intros (_ & _ & _ & _ & _ & _ & _ & ?); contradiction].
  destruct (positive_cases bd) as [[P3 _]|[P3 _]].
  2:{ unfold reduce_window_shape_tuple.
      rewrite (dilate_shape_raises_TypeError s bd P3).
      repeat split; try reflexivity;
        intros (_ & _ & ? & _); contradiction. }
  destruct (dilate_shape_Ok s bd P3) as (os & Eos & Los); [lia|].
  destruct (positive_cases wdil) as [[P4 _]|[P4 _]].
  2:{ unfold reduce_window_shape_tuple.
      rewrite Eos. cbn [bind].
      rewrite (dilate_shape_raises_TypeError wd wdil P4).
      repeat split; try reflexivity;
        intros (_ & _ & _ & ? & _); contradiction. }
  split; [intros Hn; exfalso; apply Hn; repeat split; assumption|].
  split.
  - intros _ Hp.
    unfold reduce_window_shape_tuple.
    destruct (dilate_shape_Ok wd wdil P4) as (wd' & Ewd & Lwd); [lia|].
    rewrite Eos. cbn [bind]. rewrite Ewd. cbn [bind].
    pose proof (unzip2_length padding) as [Llo Lhi].
    destruct (util.unzip2 padding) as [pads_lo pads_hi].
    simpl in Llo, Lhi. unfold core.sum_shapes.
    rewrite safe_map3_length_mismatch; [reflexivity|]. lia.
  - intros _ Hp.
    destruct (reduce_window_shape_tuple_formula s wd ws padding bd wdil)
      as (out & Eout & Lout & _); try lia; try assumption.
    { intros i Hi H0. exfalso.
      rewrite Forall_forall in F2.
      assert (Hin : In (nth i ws 1) ws) by (apply nth_In; lia).
      specialize (F2 _ Hin). simpl in F2. lia. }
    exists out. split; assumption.
Qed.

Lemma checked_geometry_dec (s wd ws bd wdil : list Z) :
  checked_geometry s wd ws bd wdil \/ ~ checked_geometry s wd ws bd wdil.
Proof.
  unfold checked_geometry.
  assert (D : forall l, Forall (fun d => 1 <= d) l \/
                        ~ Forall (fun d => 1 <= d) l).
  { intros l. destruct (positive_cases l) as [[? _]|[? _]]; auto. }
  destruct (D wd); [|right; tauto].
  destruct (D ws); [|right; tauto].
  destruct (D bd); [|right; tauto].
  destruct (D wdil); [|right; tauto].
  destruct (Nat.eq_dec (length s) (length wd)); [|right; tauto].
  destruct (Nat.eq_dec (length ws) (length wd)); [|right; tauto].
  destruct (Nat.eq_dec (length bd) (length wd)); [|right; tauto].
  destruct (Nat.eq_dec (length wdil) (length wd)); [|right; tauto].
  left. tauto.
Qed.

(** X1. [_common_reduce_window_shape_rule] returns a shape exactly for the
    geometries that pass its checks and those of [lax._dilate_shape]
    (window dimensions, strides and dilations of at least one, all of the
    operand's rank) and whose padding has one pair per dimension. *)
Theorem common_reduce_window_shape_rule_defined_iff
        (s wd ws : list Z) (padding : list (Z * Z)) (bd wdil : list Z) :
  (exists out,
     _common_reduce_window_shape_rule s wd ws padding bd wdil = Ok out) <->
  (checked_geometry s wd ws bd wdil /\ length padding = length s).
Proof.
  destruct (common_shape_rule_cases s wd ws padding bd wdil)
    as (Hbad & Hpad & Hok).
  split.
  - intros (out & E).
    destruct (checked_geometry_dec s wd ws bd wdil) as [Hc|Hc];
      [|rewrite (Hbad Hc) in E; discriminate].
    split; [exact Hc|].
    destruct (Nat.eq_dec (length padding) (length s)) as [|Hne];
      [assumption|].
    rewrite (Hpad Hc Hne) in E. discriminate.
  - intros [Hc Hp]. destruct (Hok Hc Hp) as (out & E & _).
    exists out. exact E.
Qed.

Lemma common_shape_rule_raise_inv
      (s wd ws : list Z) (padding : list (Z * Z)) (bd wdil : list Z)
      (e : exception) :
  _common_reduce_window_shape_rule s wd ws padding bd wdil = Raise e ->
  (e = TypeError /\ ~ checked_geometry s wd ws bd wdil) \/
  (e = AssertionError /\ checked_geometry s wd ws bd wdil /\
   length padding <> length s).
Proof.
  intros E.
  destruct (common_shape_rule_cases s wd ws padding bd wdil)
    as (Hbad & Hpad & Hok).
  destruct (checked_geometry_dec s wd ws bd wdil) as [Hc|Hc].
  - right. destruct (Nat.eq_dec (length padding) (length s)) as [Hp|Hp].
    + destruct (Hok Hc Hp) as (out & E' & _). rewrite E' in E.
      discriminate.
    + rewrite (Hpad Hc Hp) in E. injection E as <-. auto.
  - left. rewrite (Hbad Hc) in E. injection E as <-. auto.
Qed.

(** X2. When [_common_reduce_window_shape_rule] raises, it raises
    TypeError, for a geometry that fails one of its checks or the
    positivity check of [lax._dilate_shape] on the dilations, or
    AssertionError, for a checked geometry whose padding has not one pair
    per dimension; the division by the strides never raises. *)
Theorem common_reduce_window_shape_rule_errors
        (s wd ws : list Z) (padding : list (Z * Z)) (bd wdil : list Z)
        (e : exception) :
  _common_reduce_window_shape_rule s wd ws padding bd wdil = Raise e ->
  (e = TypeError /\ ~ checked_geometry s wd ws bd wdil) \/
  (e = AssertionError /\ checked_geometry s wd ws bd wdil /\
   length padding <> length s).
Proof. apply common_shape_rule_raise_inv. Qed.

(** A stride of zero is refused with TypeError before anything is
    divided. *)
Lemma common_reduce_window_shape_rule_errors_witness :
  _common_reduce_window_shape_rule [4] [2] [0] [(0, 0)] [1] [1]
  = Raise TypeError /\
  ((TypeError = TypeError /\ ~ checked_geometry [4] [2] [0] [1] [1]) \/
   (TypeError = AssertionError /\ checked_geometry [4] [2] [0] [1] [1] /\
    length [(0, 0)] <> length [4])).
Proof.
  split; [reflexivity|].
  apply (common_reduce_window_shape_rule_errors [4] [2] [0] [(0, 0)]
           [1] [1] TypeError).
  reflexivity.
Defined.

(** ** Omitted dilations *)

Lemma dilate_shape_ones (s : list Z) :
  Forall (fun d => 0 <= d) s ->
  lax._dilate_shape s (ones (length s)) = Ok s.
Proof.
  intros Hs. unfold ones.
  rewrite dilate_shape_positive;
    [|apply Forall_forall; intros x Hx; apply repeat_spec in Hx; lia
     |apply repeat_length].
  induction Hs as [|d s Hd Hs IH]; simpl; [reflexivity|].
  rewrite IH. cbn [bind]. rewrite dilate_dim_one by exact Hd. reflexivity.
Qed.

(** X3. For an operand shape and window dimensions of one rank without
    negative entries, [reduce_window_shape_tuple] with both dilations
    omitted returns what it returns with the unit dilations that
    [reduce_window] substitutes for omitted ones. *)
Theorem reduce_window_shape_tuple_default_dilation
        (operand_shape window_dimensions window_strides : list Z)
        (padding : list (Z * Z)) :
  length operand_shape = length window_dimensions ->
  Forall (fun d => 0 <= d) operand_shape ->
  Forall (fun d => 0 <= d) window_dimensions ->
  reduce_window_shape_tuple operand_shape window_dimensions window_strides
    padding None None
  = reduce_window_shape_tuple operand_shape window_dimensions
      window_strides padding
      (Some (default_dilation None window_dimensions))
      (Some (default_dilation None window_dimensions)).
Proof.
  intros Hl Hs Hw. unfold reduce_window_shape_tuple, default_dilation.
  rewrite <- Hl at 1. rewrite (dilate_shape_ones _ Hs).
  rewrite (dilate_shape_ones _ Hw). reflexivity.
Qed.

Lemma reduce_window_shape_tuple_default_dilation_witness :
  reduce_window_shape_tuple [5; 7] [2; 3] [2; 1] [(1, 0); (0, 2)] None None
  = reduce_window_shape_tuple [5; 7] [2; 3] [2; 1] [(1, 0); (0, 2)]
      (Some [1; 1]) (Some [1; 1]).
Proof.
  apply (reduce_window_shape_tuple_default_dilation [5; 7] [2; 3] [2; 1]
           [(1, 0); (0, 2)]); [reflexivity| |];
    repeat constructor; lia.
Defined.

(** ** The argument checks and the errors of reduce_window *)

Section reduce_window_errors.
Context {T : Type} `{Dtype T}.

Lemma get_monoid_window_reducer_callable (effects : bool) (out_tree : nat)
      (f : list T -> list T -> list T) (xs : list (core.value T)) :
  _get_monoid_window_reducer (lax.callable effects out_tree f) xs = None.
Proof.
  unfold _get_monoid_window_reducer.
  destruct xs as [|x [|y rest]]; try reflexivity.
  destruct (core.get_aval x); [|reflexivity].
  destruct (length (shape val) =? 0)%nat; reflexivity.
Qed.


End reduce_window_errors.


(** ** The generic path of reduce_window *)

Section generic_path.
Context {T : Type} `{Dtype T}.

Lemma existsb_rank_scalars (inits : list (array T)) :
  Forall (fun v => shape v = []) inits ->
  existsb (fun v : list Z => negb (length v =? 0)%nat) (map shape inits)
  = false.
Proof.
  induction 1 as [|v l Hv Hl IH]; simpl; [reflexivity|].
  rewrite Hv, IH. reflexivity.
Qed.

Lemma existsb_rank_not_scalar (inits : list (array T)) :
  Exists (fun v => shape v <> []) inits ->
  existsb (fun v : list Z => negb (length v =? 0)%nat) (map shape inits)
  = true.
Proof.
  induction 1 as [v l Hv|v l Hl IH]; simpl.
  - destruct (shape v); [congruence|reflexivity].
  - rewrite IH. apply orb_true_r.
Qed.

Lemma reduce_window_p_bind_split (ops inits : list (array T))
      (jaxpr : lax.jaxpr T) (wd ws : list Z) (padding : list (Z * Z))
      (bd wdil : list Z) :
  length inits = length ops ->
  reduce_window_p_bind (ops ++ inits) jaxpr wd ws padding bd wdil
  = (avals_out <-
       (if existsb (fun v : list Z => negb (length v =? 0)%nat)
                   (map shape inits)
        then Raise TypeError
        else
          match map shape ops with
          | [] => Raise IndexError
          | operand0 :: _ =>
              out_shape <- _common_reduce_window_shape_rule operand0 wd ws
                             padding bd wdil ;;
              Ok (map (fun _ => out_shape) (map shape ops))
          end) ;;
     if lax.effects jaxpr then Raise NotImplementedError
     else Ok (mhlo.ReduceWindowOp avals_out ops
                (map (fun v => get v []) inits) wd ws bd wdil padding
                (lax.eval_jaxpr jaxpr))).
Proof.
  intros Hlen.
  assert (Hhalf : (length (ops ++ inits) / 2 = length ops)%nat).
  { rewrite length_app. apply half_of_double. exact Hlen. }
  assert (E1 : firstn (length ops) (map shape ops ++ map shape inits)
               = map shape ops).
  { rewrite <- (length_map shape ops). apply firstn_length_app. }
  assert (E2 : skipn (length ops) (map shape ops ++ map shape inits)
               = map shape inits).
  { rewrite <- (length_map shape ops). apply skipn_length_app. }
  unfold reduce_window_p_bind, _reduce_window_abstract_eval_rule,
    _generic_reduce_window_lower.
  rewrite length_map, Hhalf, map_app, E1, E2.
  rewrite firstn_length_app, skipn_length_app. reflexivity.
Qed.

(** X5. Given a callable combiner without effects that returns one value
    per operand, initial values of rank 0 and a geometry the shape rule
    accepts for the first operand, [reduce_window] takes the generic path
    and returns one array per operand, each of the shape the shape rule
    infers from the first operand. *)
Theorem reduce_window_generic_outputs
        (operand : list (array T)) (op0 : array T)
        (init_value : list (core.value T))
        (f : list T -> list T -> list T) (wd ws : list Z)
        (padding : list (Z * Z)) (bd wdil out_shape : list Z) :
  hd_error operand = Some op0 ->
  length init_value = length operand ->
  Forall (fun v => shape (core.runtime v) = []) init_value ->
  _common_reduce_window_shape_rule (shape op0) wd ws padding bd wdil
  = Ok out_shape ->
  exists outs,
    reduce_window operand init_value
      (lax.callable false (length operand) f) wd ws padding (Some bd)
      (Some wdil) = Ok outs /\
    length outs = length operand /\
    Forall (fun out => shape out = out_shape) outs.
Proof.
  intros Hhd Hlen Hrank Hshape.
  assert (Hne : operand <> []) by (destruct operand; discriminate).
  rewrite reduce_window_unfold by (auto || congruence).
  rewrite get_monoid_window_reducer_callable.
  unfold lax._variadic_reduction_jaxpr. cbn beta iota delta [bind].
  rewrite Nat.eqb_refl. cbn [negb default_dilation].
  rewrite (reduce_window_p_bind_Ok operand (map core.runtime init_value)
             op0 _ wd ws padding bd wdil out_shape);
    try assumption; try reflexivity.
  2:{ rewrite length_map. exact Hlen. }
  2:{ apply Forall_map. exact Hrank. }
  eexists. split; [reflexivity|].
  split; [rewrite length_map, length_seq; reflexivity|].
  apply Forall_map, Forall_forall. intros n _. reflexivity.
Qed.

(** X6. [reduce_window] raises TypeError when an initial value is not of
    rank 0, whatever the window geometry: such a value keeps the fast path
    closed, and the abstract evaluation of the generic primitive refuses
    it before it looks at the geometry. *)
Theorem reduce_window_rejects_init_rank
        (operand : list (array T)) (init_value : list (core.value T))
        (computation : lax.computation T) (wd ws : list Z)
        (padding : list (Z * Z)) (bd wdil : option (list Z)) :
  operand <> [] -> length operand = length init_value ->
  Exists (fun v => shape (core.runtime v) <> []) init_value ->
  (forall effects out_tree f,
      computation = lax.callable effects out_tree f ->
      out_tree = length operand) ->
  reduce_window operand init_value computation wd ws padding bd wdil
  = Raise TypeError.
Proof.
  intros Hne Hlen Hex Hcall.
  rewrite reduce_window_unfold by assumption.
  destruct (_get_monoid_window_reducer computation init_value) as [r|]
    eqn:Er.
  { exfalso. apply get_monoid_window_reducer_iff in Er.
    destruct Er as (x & -> & _ & Hs & _).
    inversion Hex as [? ? Hx|? ? Hx]; subst; [contradiction|].
    inversion Hx. }
  assert (Hbind : forall jaxpr,
             reduce_window_p_bind (operand ++ map core.runtime init_value)
               jaxpr wd ws padding (default_dilation bd wd)
               (default_dilation wdil wd) = Raise TypeError).
  { intros jaxpr. rewrite reduce_window_p_bind_split
      by (rewrite length_map; auto).
    rewrite existsb_rank_not_scalar; [reflexivity|].
    apply Exists_map. exact Hex. }
  destruct computation as [| | |effects out_tree f];
    unfold lax._variadic_reduction_jaxpr;
    try (destruct (length init_value =? 1)%nat eqn:E1; [|reflexivity];
         apply Nat.eqb_eq in E1; cbn beta iota delta [bind];
         rewrite Hlen, E1; simpl; apply Hbind).
  cbn beta iota delta [bind].
  rewrite (Hcall _ _ _ eq_refl), Nat.eqb_refl. cbn [negb]. apply Hbind.
Qed.

(** X7. A callable combiner with effects is refused with
    NotImplementedError by the lowering of the generic primitive, and only
    there: a geometry the shape rule refuses raises the shape rule's error
    first. *)
Theorem reduce_window_effectful_combiner
        (operand : list (array T)) (op0 : array T)
        (init_value : list (core.value T))
        (f : list T -> list T -> list T) (wd ws : list Z)
        (padding : list (Z * Z)) (bd wdil : list Z) :
  hd_error operand = Some op0 ->
  length init_value = length operand ->
  Forall (fun v => shape (core.runtime v) = []) init_value ->
  reduce_window operand init_value
    (lax.callable true (length operand) f) wd ws padding (Some bd)
    (Some wdil)
  = match _common_reduce_window_shape_rule (shape op0) wd ws padding bd
            wdil with
    | Ok _ => Raise NotImplementedError
    | Raise e => Raise e
    end.
Proof.
  intros Hhd Hlen Hrank.
  assert (Hne : operand <> []) by (destruct operand; discriminate).
  rewrite reduce_window_unfold by (auto || congruence).
  rewrite get_monoid_window_reducer_callable.
  unfold lax._variadic_reduction_jaxpr. cbn beta iota delta [bind].
  rewrite Nat.eqb_refl. cbn [negb default_dilation].
  rewrite reduce_window_p_bind_split by (rewrite length_map; auto).
  rewrite existsb_rank_scalars by (apply Forall_map; exact Hrank).
  destruct operand as [|x rest]; [discriminate|].
  simpl in Hhd. injection Hhd as ->. cbn [map].
  destruct (_common_reduce_window_shape_rule (shape op0) wd ws padding bd
              wdil); reflexivity.
Qed.

End generic_path.

(** Two float32 operands reduced pairwise by a combiner that keeps the pair
    with the larger first component. *)
Lemma reduce_window_generic_outputs_witness :
  let x := of_list (float32.of_Z 0) (map float32.of_Z [1; 5; 2; 4]) in
  let y := of_list (float32.of_Z 0) (map float32.of_Z [10; 20; 30; 40]) in
  let f := fun a b : list spec_float =>
             match a, b with
             | [ka; va], [kb; vb] =>
                 if SFleb kb ka then [ka; va] else [kb; vb]
             | _, _ => []
             end in
  let init := [core.mk_value true (scalar (S754_infinity true));
               core.mk_value true (scalar (S754_zero false))] in
  exists outs,
    reduce_window [x; y] init (lax.callable false 2 f) [2] [2] [(0, 0)]
      (Some [1]) (Some [1]) = Ok outs /\
    length outs = 2%nat /\
    Forall (fun out => shape out = [2]) outs.
Proof.
  cbv zeta.
  apply (reduce_window_generic_outputs
           [of_list (float32.of_Z 0) (map float32.of_Z [1; 5; 2; 4]);
            of_list (float32.of_Z 0) (map float32.of_Z [10; 20; 30; 40])]
           (of_list (float32.of_Z 0) (map float32.of_Z [1; 5; 2; 4])));
    try reflexivity.
  repeat constructor.
Defined.

(** A rank-1 initial value with the combiner [lax.add]. *)
Lemma reduce_window_rejects_init_rank_witness :
  reduce_window [of_list (float32.of_Z 0) (map float32.of_Z [1; 5; 2; 4])]
    [core.mk_value true (of_list (float32.of_Z 0) [float32.of_Z 0])]
    lax.add [2] [2] [(0, 0)] None None
  = Raise TypeError.
Proof.
  apply (reduce_window_rejects_init_rank
           [of_list (float32.of_Z 0) (map float32.of_Z [1; 5; 2; 4])]
           [core.mk_value true (of_list (float32.of_Z 0) [float32.of_Z 0])]
           lax.add [2] [2] [(0, 0)] None None).
  - discriminate.
  - reflexivity.
  - constructor. simpl. discriminate.
  - intros effects out_tree f Hc. discriminate.
Defined.

(** An effectful combiner on a geometry the shape rule accepts. *)
Lemma reduce_window_effectful_combiner_witness :
  reduce_window [of_list (float32.of_Z 0) (map float32.of_Z [1; 5; 2; 4])]
    [core.mk_value true (scalar (float32.of_Z 0))]
    (lax.callable true 1 (fun a _ => a)) [2] [2] [(0, 0)] (Some [1])
    (Some [1])
  = Raise NotImplementedError.
Proof.
  apply (reduce_window_effectful_combiner
           [of_list (float32.of_Z 0) (map float32.of_Z [1; 5; 2; 4])]
           (of_list (float32.of_Z 0) (map float32.of_Z [1; 5; 2; 4]))
           [core.mk_value true (scalar (float32.of_Z 0))]
           (fun a _ => a) [2] [2] [(0, 0)] [1] [1]).
  - reflexivity.
  - reflexivity.
  - repeat constructor.
Defined.

(** ** select_and_gather_add: when it is defined and what it returns *)

Lemma fold_left_invariant {A B : Type} (P : A -> Prop) (f : A -> B -> A)
      (l : list B) (a : A) :
  P a -> (forall acc x, In x l -> P acc -> P (f acc x)) ->
  P (fold_left f l a).
Proof.
  revert a; induction l as [|x l IH]; intros a Ha Hstep; simpl;
    [exact Ha|].
  apply IH.
  - apply Hstep; [left; reflexivity|exact Ha].
  - intros acc y Hy. apply Hstep. right. exact Hy.
Qed.

Lemma fold_left_related {A A' B : Type} (R : A -> A' -> Prop)
      (f : A -> B -> A) (f' : A' -> B -> A') (l : list B) (a : A) (a' : A') :
  R a a' -> (forall acc acc' x, R acc acc' -> R (f acc x) (f' acc' x)) ->
  R (fold_left f l a) (fold_left f' l a').
Proof.
  revert a a'; induction l as [|x l IH]; intros a a' Ha Hstep; simpl;
    [exact Ha|].
  apply IH; [apply Hstep; exact Ha|exact Hstep].
Qed.

Lemma dilated_source_in_range (n lo d p q : Z) :
  lax.dilated_source n lo d p = Some q -> 0 <= q < n.
Proof.
  unfold lax.dilated_source, core.dilate_dim.
  destruct ((0 <=? p - lo) && (p - lo <? (if 0 <? n then 1 + d * (n - 1)
                                          else 0))
            && (((p - lo) mod d) =? 0)) eqn:E; [|discriminate].
  intros Hq. injection Hq as <-.
  apply andb_true_iff in E. destruct E as [E E3].
  apply andb_true_iff in E. destruct E as [E1 E2].
  apply Z.leb_le in E1. apply Z.ltb_lt in E2. apply Z.eqb_eq in E3.
  destruct (0 <? n) eqn:En; [apply Z.ltb_lt in En|lia].
  destruct (Z.lt_trichotomy d 0) as [Hd|[Hd|Hd]].
  - assert (n = 1) by nia. assert (p - lo = 0) by nia.
    replace (p - lo) with 0 by lia. rewrite Z.div_0_l by lia. lia.
  - subst d. rewrite Z.div_0_r. lia.
  - split; [apply Z.div_pos; lia|].
    apply Z.div_lt_upper_bound; nia.
Qed.

Lemma source_index_in_bounds (s : list Z) (c : list (Z * Z)) (p q : list Z) :
  lax.source_index s c p = Some q -> in_bounds s q = true.
Proof.
  revert c p q; induction s as [|n s IH]; intros [|[lo d] c] [|x p] q;
    simpl; try discriminate.
  - intros Hq. injection Hq as <-. reflexivity.
  - destruct (lax.dilated_source n lo d x) as [y|] eqn:Ey; [|discriminate].
    destruct (lax.source_index s c p) as [ys|] eqn:Eys; [|discriminate].
    intros Hq. injection Hq as <-. simpl.
    apply dilated_source_in_range in Ey. rewrite (IH _ _ _ Eys).
    rewrite andb_true_r. apply andb_true_iff.
    split; [apply Z.leb_le|apply Z.ltb_lt]; lia.
Qed.

Lemma common_shape_rule_Ok_inv (s wd ws : list Z) (padding : list (Z * Z))
      (bd wdil out : list Z) :
  _common_reduce_window_shape_rule s wd ws padding bd wdil = Ok out ->
  checked_geometry s wd ws bd wdil /\ length padding = length s.
Proof.
  intros E.
  destruct (common_shape_rule_cases s wd ws padding bd wdil)
    as (Hbad & Hpad & _).
  destruct (checked_geometry_dec s wd ws bd wdil) as [Hc|Hc];
    [|rewrite (Hbad Hc) in E; discriminate].
  split; [exact Hc|].
  destruct (Nat.eq_dec (length padding) (length s)) as [|Hne];
    [assumption|].
  rewrite (Hpad Hc Hne) in E. discriminate.
Qed.

(** Rewrites the computation bound first in the goal with an equation
    that holds for it up to computation. *)
Ltac rewrite_bound Hb :=
  match goal with
  | |- bind ?X _ = _ =>
      match type of Hb with
      | _ = ?R =>
          let Hb' := fresh "Hb" in
          assert (Hb' : X = R) by exact Hb; rewrite Hb'
      end
  end.

Section select_and_gather.
Context {T : Type} `{Dtype T}.

Lemma is_ge_or_le_cases (select_prim : lax.comparison_primitive) :
  is_ge_or_le select_prim
  = (lax.comparison_eqb select_prim lax.ge_p
     || lax.comparison_eqb select_prim lax.le_p).
Proof. destruct select_prim; reflexivity. Qed.

Lemma variadic_reducewindow_Ok (tangents operand : array T)
      (select_prim : lax.comparison_primitive) (wd ws : list Z)
      (padding : list (Z * Z)) (bd wdil out_shape : list Z) :
  is_ge_or_le select_prim = true ->
  _common_reduce_window_shape_rule (shape operand) wd ws padding bd wdil
  = Ok out_shape ->
  _select_and_gather_add_using_variadic_reducewindow tangents operand
    select_prim wd ws padding bd wdil
  = Ok (mk_array out_shape
          (fun j => nth 1 (mhlo.reduce_at [operand; tangents]
                             [select_init select_prim; zero] wd ws bd wdil
                             padding (variadic_reducer select_prim) j)
                        zero)).
Proof.
  intros Hsel Hshape.
  unfold _select_and_gather_add_using_variadic_reducewindow.
  rewrite <- is_ge_or_le_cases, Hsel. cbn [negb].
  rewrite reduce_window_unfold by (reflexivity || discriminate).
  rewrite get_monoid_window_reducer_callable.
  unfold lax._variadic_reduction_jaxpr. cbn beta iota delta [bind].
  cbn [length Nat.eqb negb default_dilation].
  pose proof (reduce_window_p_bind_Ok [operand; tangents]
                [scalar (select_init select_prim); scalar zero] operand
                (lax.mk_jaxpr false (variadic_reducer select_prim))
                wd ws padding bd wdil out_shape eq_refl eq_refl
                ltac:(repeat constructor) eq_refl Hshape) as Hb.
  rewrite_bound Hb. reflexivity.
Qed.

Lemma select_and_gather_add_Ok (tangents operand : array T)
      (select_prim : lax.comparison_primitive) (wd ws : list Z)
      (padding : list (Z * Z)) (bd wdil out_shape : list Z) :
  is_ge_or_le select_prim = true ->
  shape tangents = shape operand ->
  _common_reduce_window_shape_rule (shape operand) wd ws padding bd wdil
  = Ok out_shape ->
  _select_and_gather_add tangents operand select_prim wd ws padding bd wdil
  = Ok (mk_array out_shape
          (fun j => nth 1 (mhlo.reduce_at [operand; tangents]
                             [select_init select_prim; zero] wd ws bd wdil
                             padding (variadic_reducer select_prim) j)
                        zero)).
Proof.
  intros Hsel Hts Hshape.
  unfold _select_and_gather_add, _select_and_gather_add_shape_rule.
  rewrite Hts, index_eqb_refl. cbn [negb]. rewrite Hshape. cbn [bind].
  rewrite (variadic_reducewindow_Ok _ _ _ _ _ _ _ _ _ Hsel Hshape).
  reflexivity.
Qed.

(** X8. [_select_and_gather_add] returns an array exactly when tangents
    and operand have one shape, the select predicate is >= or <=, and the
    geometry passes the checks of the shape rule (window dimensions,
    strides and dilations of at least one, all of the operand's rank)
    with one padding pair per dimension. *)
Theorem select_and_gather_add_defined_iff
        (tangents operand : array T)
        (select_prim : lax.comparison_primitive) (wd ws : list Z)
        (padding : list (Z * Z)) (bd wdil : list Z) :
  (exists out,
     _select_and_gather_add tangents operand select_prim wd ws padding
       bd wdil = Ok out) <->
  (shape tangents = shape operand /\
   (select_prim = lax.ge_p \/ select_prim = lax.le_p) /\
   checked_geometry (shape operand) wd ws bd wdil /\
   length padding = length (shape operand)).
Proof.
  split.
  - intros (out & E).
    unfold _select_and_gather_add, _select_and_gather_add_shape_rule in E.
    destruct (index_eqb (shape tangents) (shape operand)) eqn:Es;
      cbn [negb bind] in E; [|discriminate].
    apply index_eqb_eq in Es.
    destruct (_common_reduce_window_shape_rule (shape operand) wd ws
                padding bd wdil) as [out_shape|e] eqn:Er;
      cbn [bind] in E; [|discriminate].
    apply common_shape_rule_Ok_inv in Er. destruct Er as [Hc Hp].
    unfold _select_and_gather_add_using_variadic_reducewindow in E.
    destruct select_prim; simpl in E; try discriminate; auto 6.
  - intros (Hts & Hsel & Hc & Hp).
    destruct (common_shape_rule_cases (shape operand) wd ws padding bd
                wdil) as (_ & _ & Hok).
    destruct (Hok Hc Hp) as (out_shape & Er & _).
    eexists. apply select_and_gather_add_Ok; [|exact Hts|exact Er].
    destruct Hsel as [-> | ->]; reflexivity.
Qed.

Lemma in_bounds_indices (s q : list Z) :
  in_bounds s q = true -> In q (indices s).
Proof.
  revert q; induction s as [|n s IH]; intros [|i q]; simpl;
    try discriminate.
  - intros _. left. reflexivity.
  - rewrite !andb_true_iff, Z.leb_le, Z.ltb_lt. intros [[H0 Hn] Hq].
    apply in_flat_map. exists i. split.
    + unfold range. apply in_map_iff. exists (Z.to_nat i).
      split; [lia|]. apply in_seq. lia.
    + apply in_map, IH, Hq.
Qed.

(** Folding the reducer of the variadic lowering over key-tangent pairs,
    under a predicate that is total and transitive on the keys, ends at
    one of the pairs, and its key is selected over every key. *)
Lemma variadic_reducer_fold (select_prim : lax.comparison_primitive)
      (V : T -> Prop) :
  (forall a b, V a -> V b ->
     lax.bind_comparison select_prim a b = true \/
     lax.bind_comparison select_prim b a = true) ->
  (forall a b c, V a -> V b -> V c ->
     lax.bind_comparison select_prim a b = true ->
     lax.bind_comparison select_prim b c = true ->
     lax.bind_comparison select_prim a c = true) ->
  forall (es : list (list T)) (k0 v0 : T),
    V k0 ->
    Forall (fun e => exists k v, e = [k; v] /\ V k) es ->
    exists k v,
      fold_left (variadic_reducer select_prim) es [k0; v0] = [k; v] /\
      V k /\
      ([k; v] = [k0; v0] \/ In [k; v] es) /\
      lax.bind_comparison select_prim k k0 = true /\
      forall k' v', In [k'; v'] es ->
        lax.bind_comparison select_prim k k' = true.
Proof.
  intros Htotal Htrans es.
  induction es as [|e es IH]; intros k0 v0 Hk0 Hes.
  - exists k0, v0. split; [reflexivity|]. split; [exact Hk0|].
    split; [left; reflexivity|]. split.
    + destruct (Htotal k0 k0 Hk0 Hk0); assumption.
    + intros k' v' [].
  - inversion Hes as [|? ? (k1 & v1 & -> & Hk1) Hes']; subst.
    cbn [fold_left variadic_reducer].
    destruct (lax.bind_comparison select_prim k0 k1) eqn:Esel.
    + destruct (IH k0 v0 Hk0 Hes') as (k & v & Ef & Hk & Hin & Hd0 & Hd).
      exists k, v. split; [exact Ef|]. split; [exact Hk|]. split.
      { destruct Hin as [Hin|Hin]; [left; exact Hin|right; right; exact Hin]. }
      split; [exact Hd0|].
      intros k' v' [Heq|Hin'].
      * injection Heq as <- <-.
        apply (Htrans k k0 k1); assumption.
      * apply (Hd k' v' Hin').
    + destruct (IH k1 v1 Hk1 Hes') as (k & v & Ef & Hk & Hin & Hd1 & Hd).
      exists k, v. split; [exact Ef|]. split; [exact Hk|]. split.
      { right. destruct Hin as [Hin|Hin]; [left; symmetry; exact Hin|].
        right. exact Hin. }
      split.
      * apply (Htrans k k1 k0); try assumption.
        destruct (Htotal k0 k1 Hk0 Hk1) as [E|E]; [congruence|exact E].
      * intros k' v' [Heq|Hin'].
        -- injection Heq as <- <-. exact Hd1.
        -- apply (Hd k' v' Hin').
Qed.

(** X9. On a geometry it accepts, and for a select predicate (>= or <=)
    that is total and transitive on the operand's elements and the initial
    key (no NaN among them), [_select_and_gather_add] returns an array of
    the shape the shape rule infers; each of its elements is the tangent at
    a position that the element's window covers and whose operand element
    is selected over the operand element at every position the window
    covers and over the initial key, or else it is the zero the reduction
    starts from, and then the initial key is selected over the operand
    element at every position the window covers. *)
Theorem select_and_gather_add_selects_tangent
        (tangents operand : array T)
        (select_prim : lax.comparison_primitive) (wd ws : list Z)
        (padding : list (Z * Z)) (bd wdil out_shape : list Z) :
  is_ge_or_le select_prim = true ->
  shape tangents = shape operand ->
  _common_reduce_window_shape_rule (shape operand) wd ws padding bd wdil
  = Ok out_shape ->
  let keys := select_init select_prim :: to_list operand in
  (forall a b, In a keys -> In b keys ->
     lax.bind_comparison select_prim a b = true \/
     lax.bind_comparison select_prim b a = true) ->
  (forall a b c, In a keys -> In b keys -> In c keys ->
     lax.bind_comparison select_prim a b = true ->
     lax.bind_comparison select_prim b c = true ->
     lax.bind_comparison select_prim a c = true) ->
  exists out,
    _select_and_gather_add tangents operand select_prim wd ws padding
      bd wdil = Ok out /\
    shape out = out_shape /\
    forall j,
      let covers q :=
        exists k,
          In k (indices wd) /\
          lax.source_index (shape operand) (base_layout padding bd)
            (mhlo.window_position j ws k wdil) = Some q in
      (exists q,
         covers q /\ in_bounds (shape operand) q = true /\
         get out j = get tangents q /\
         lax.bind_comparison select_prim (get operand q)
           (select_init select_prim) = true /\
         forall q', covers q' ->
           lax.bind_comparison select_prim (get operand q) (get operand q')
           = true) \/
      (get out j = zero /\
       forall q', covers q' ->
         lax.bind_comparison select_prim (select_init select_prim)
           (get operand q') = true).
Proof.
  intros Hsel Hts Hshape keys Htotal Htrans.
  rewrite (select_and_gather_add_Ok _ _ _ _ _ _ _ _ _ Hsel Hts Hshape).
  eexists. split; [reflexivity|]. split; [reflexivity|].
  intros j covers. cbn [get]. unfold mhlo.reduce_at.
  set (g := fun k =>
              mhlo.window_elems [operand; tangents]
                [select_init select_prim; zero] padding bd
                (mhlo.window_position j ws k wdil)).
  change (fold_left _ (indices wd) [select_init select_prim; zero])
    with (fold_left (fun acc k => variadic_reducer select_prim acc (g k))
            (indices wd) [select_init select_prim; zero]).
  rewrite <- (fold_left_map (variadic_reducer select_prim) g).
  assert (Hkey : forall q, in_bounds (shape operand) q = true ->
                           In (get operand q) keys).
  { intros q Hq. right. unfold to_list. apply in_map.
    apply in_bounds_indices. exact Hq. }
  assert (Hg : forall k,
             (g k = [select_init select_prim; zero] /\
              lax.source_index (shape operand) (base_layout padding bd)
                (mhlo.window_position j ws k wdil) = None) \/
             exists q,
               lax.source_index (shape operand) (base_layout padding bd)
                 (mhlo.window_position j ws k wdil) = Some q /\
               in_bounds (shape operand) q = true /\
               g k = [get operand q; get tangents q]).
  { intros k. subst g. cbv beta. unfold mhlo.window_elems.
    fold (base_layout padding bd).
    destruct (lax.source_index (shape operand) (base_layout padding bd)
                (mhlo.window_position j ws k wdil)) as [q|] eqn:Eq.
    - right. exists q. split; [reflexivity|].
      split; [eapply source_index_in_bounds; exact Eq|reflexivity].
    - left. split; reflexivity. }
  destruct (variadic_reducer_fold select_prim (fun a => In a keys)
              Htotal Htrans (map g (indices wd))
              (select_init select_prim) zero)
    as (k & v & Ef & Hk & Hin & Hd0 & Hd).
  { left. reflexivity. }
  { apply Forall_map, Forall_forall. intros x _.
    destruct (Hg x) as [[-> _]|(q & _ & Hq & ->)].
    - eexists _, _. split; [reflexivity|]. left. reflexivity.
    - eexists _, _. split; [reflexivity|]. apply Hkey, Hq. }
  rewrite Ef. cbn [nth].
  assert (Hdom : forall q', covers q' ->
                   lax.bind_comparison select_prim k (get operand q')
                   = true).
  { intros q' (k' & Hk' & Eq').
    apply (Hd (get operand q') (get tangents q')).
    apply in_map_iff. exists k'. split; [|exact Hk'].
    destruct (Hg k') as [[_ En]|(q & Eq & _ & ->)]; [congruence|].
    rewrite Eq in Eq'. injection Eq' as ->. reflexivity. }
  assert (Hzero : [k; v] = [select_init select_prim; zero] ->
                  v = zero /\
                  forall q', covers q' ->
                    lax.bind_comparison select_prim
                      (select_init select_prim) (get operand q') = true).
  { intros E. injection E as <- <-. split; [reflexivity|exact Hdom]. }
  destruct Hin as [Hin|Hin]; [right; apply Hzero, Hin|].
  apply in_map_iff in Hin. destruct Hin as (k' & Ek' & Hk').
  destruct (Hg k') as [[Einit _]|(q & Eq & Hq & Epair)].
  - right. apply Hzero. rewrite <- Ek'. exact Einit.
  - left. rewrite Epair in Ek'. injection Ek' as <- <-.
    exists q. split; [exists k'; split; assumption|].
    split; [exact Hq|]. split; [reflexivity|].
    split; [exact Hd0|exact Hdom].
Qed.

End select_and_gather.

(** Max-pooling tangents of the float32 operand [1,5,2,4], whose elements
    and the initial key -infinity the predicate >= orders. *)
Lemma select_and_gather_add_selects_tangent_witness :
  let operand := of_list (float32.of_Z 0) (map float32.of_Z [1; 5; 2; 4]) in
  let tangents :=
    of_list (float32.of_Z 0) (map float32.of_Z [10; 20; 30; 40]) in
  exists out,
    _select_and_gather_add tangents operand lax.ge_p [2] [2] [(0, 0)]
      [1] [1] = Ok out /\
    shape out = [2] /\
    forall j,
      let covers q :=
        exists k,
          In k (indices [2]) /\
          lax.source_index (shape operand) (base_layout [(0, 0)] [1])
            (mhlo.window_position j [2] k [1]) = Some q in
      (exists q,
         covers q /\ in_bounds (shape operand) q = true /\
         get out j = get tangents q /\
         lax.bind_comparison lax.ge_p (get operand q)
           (select_init lax.ge_p) = true /\
         forall q', covers q' ->
           lax.bind_comparison lax.ge_p (get operand q) (get operand q')
           = true) \/
      (get out j = zero /\
       forall q', covers q' ->
         lax.bind_comparison lax.ge_p (select_init lax.ge_p)
           (get operand q') = true).
Proof.
  cbv zeta.
  apply (select_and_gather_add_selects_tangent
           (of_list (float32.of_Z 0) (map float32.of_Z [10; 20; 30; 40]))
           (of_list (float32.of_Z 0) (map float32.of_Z [1; 5; 2; 4]))
           lax.ge_p [2] [2] [(0, 0)] [1] [1] [2]);
    try reflexivity.
  - intros a b Ha Hb.
    cbn [to_list of_list shape indices map length] in Ha, Hb.
    vm_compute in Ha, Hb.
    repeat (destruct Ha as [<-|Ha]; [|]); try contradiction;
      repeat (destruct Hb as [<-|Hb]; [|]); try contradiction;
      vm_compute; auto.
  - intros a b c Ha Hb Hc.
    vm_compute in Ha, Hb, Hc.
    repeat (destruct Ha as [<-|Ha]; [|]); try contradiction;
      repeat (destruct Hb as [<-|Hb]; [|]); try contradiction;
      repeat (destruct Hc as [<-|Hc]; [|]); try contradiction;
      vm_compute; intros; congruence.
Defined.

(** ** The lowering of select_and_gather_add by packed words *)

Lemma unpack_value (nbits a b : Z) :
  0 < nbits -> 0 <= a < 2 ^ nbits -> 0 <= b < 2 ^ nbits ->
  double_word.fst nbits (double_word.pack nbits a b) = a /\
  double_word.snd nbits (double_word.pack nbits a b) = b.
Proof.
  intros Hn Ha Hb.
  rewrite pack_value by assumption.
  pose proof (pow2_pos nbits ltac:(lia)) as Hp.
  unfold double_word.fst, double_word.snd, double_word.ShiftRightLogicalOp,
    double_word.ConvertOp, double_word.BitcastConvertOp.
  assert (Hlt : (nbits <? nbits * 2) = true) by (apply Z.ltb_lt; lia).
  rewrite Hlt. split.
  - rewrite Z.shiftr_lor, Z.shiftr_shiftl_l by lia.
    rewrite Z.sub_diag, Z.shiftl_0_r.
    rewrite (Z.shiftr_div_pow2 b) by lia.
    rewrite (Z.div_small b) by lia.
    rewrite Z.lor_0_r. apply Z.mod_small; lia.
  - rewrite <- Z.land_ones by lia.
    rewrite Z.land_lor_distr_l, !Z.land_ones by lia.
    rewrite Z.shiftl_mul_pow2 by lia.
    rewrite Z.mod_mul by lia.
    rewrite Z.lor_0_l. apply Z.mod_small; lia.
Qed.

Section packed_words.
Context {T : Type} `{Dtype T} `{FloatBits T}.

Lemma wide_word_unpack (a b : T) :
  0 < finfo_bits -> exact_bits a -> exact_bits b ->
  wide_word.fst (wide_word.pack a b) = a /\
  wide_word.snd (wide_word.pack a b) = b.
Proof.
  intros Hn [Ea Ra] [Eb Rb].
  unfold wide_word.fst, wide_word.snd, wide_word.pack.
  destruct (unpack_value finfo_bits (to_bits a) (to_bits b) Hn Ra Rb)
    as [-> ->].
  split; assumption.
Qed.

(** X10. Where a word of twice the dtype's width is available, and on
    scalars whose bit patterns are exact, the lowering by packed words
    emits no warning and returns the array the variadic lowering returns:
    the same shape and, at every index, the same element. *)
Theorem packed_lowering_agrees_with_variadic
        (tangents operand : array T)
        (select_prim : lax.comparison_primitive) (wd ws : list Z)
        (padding : list (Z * Z)) (bd wdil out_aval : list Z)
        (max_bits : Z) :
  0 < finfo_bits -> finfo_bits * 2 <= max_bits ->
  is_ge_or_le select_prim = true ->
  _select_and_gather_add_shape_rule tangents operand wd ws padding bd wdil
  = Ok out_aval ->
  exact_bits (select_init select_prim) -> exact_bits zero ->
  (forall q, in_bounds (shape operand) q = true ->
     exact_bits (get operand q) /\ exact_bits (get tangents q)) ->
  exists packed variadic,
    _select_and_gather_add_lowering out_aval tangents operand select_prim
      wd ws padding bd wdil max_bits = ([], Ok packed) /\
    _select_and_gather_add tangents operand select_prim wd ws padding bd
      wdil = Ok variadic /\
    shape packed = shape variadic /\
    forall j, get packed j = get variadic j.
Proof.
  intros Hn Hmax Hsel Hrule Hinit Hzero Helems.
  unfold _select_and_gather_add_shape_rule in Hrule.
  destruct (index_eqb (shape tangents) (shape operand)) eqn:Es;
    cbn [negb] in Hrule; [|discriminate].
  apply index_eqb_eq in Es.
  rewrite (select_and_gather_add_Ok _ _ _ _ _ _ _ _ _ Hsel Es Hrule).
  unfold _select_and_gather_add_lowering,
    double_word.double_word_reduction.
  assert (E1 : (finfo_bits <=? max_bits) = true) by (apply Z.leb_le; lia).
  assert (E2 : (finfo_bits * 2 <=? max_bits) = true)
    by (apply Z.leb_le; lia).
  rewrite E1, E2. cbn [negb]. rewrite <- is_ge_or_le_cases, Hsel.
  cbn [negb].
  assert (Hwhich : (if lax.comparison_eqb select_prim lax.ge_p
                    then lax.ge_p else lax.le_p) = select_prim).
  { destruct select_prim; try reflexivity; discriminate. }
  rewrite Hwhich. fold (select_init select_prim).
  eexists _, _. split; [reflexivity|]. split; [reflexivity|].
  split; [reflexivity|].
  intros j. cbn [get shape]. unfold mhlo.reduce_at.
  set (R := fun (accP : list Z) (accV : list T) =>
              exists k v, exact_bits k /\ exact_bits v /\
                          accP = [wide_word.pack k v] /\ accV = [k; v]).
  match goal with
  | |- wide_word.snd (nth 0 (fold_left ?f ?l ?a) 0)
       = nth 1 (fold_left ?f' ?l ?a') zero =>
      assert (HR : R (fold_left f l a) (fold_left f' l a'))
  end.
  { apply fold_left_related.
    - exists (select_init select_prim), zero. auto.
    - intros accP accV k (k1 & v1 & Hk1 & Hv1 & -> & ->).
      unfold mhlo.window_elems. cbn [shape].
      destruct (lax.source_index (shape operand) _ _) as [q|] eqn:Eq.
      + apply source_index_in_bounds in Eq.
        destruct (Helems q Eq) as [Hk2 Hv2]. cbn [map get].
        cbn [lax.scalar_region variadic_reducer].
        destruct (wide_word_unpack k1 v1 Hn Hk1 Hv1) as [-> _].
        destruct (wide_word_unpack (get operand q) (get tangents q) Hn
                    Hk2 Hv2) as [-> _].
        destruct (lax.bind_comparison select_prim k1 (get operand q)).
        * exists k1, v1. auto.
        * exists (get operand q), (get tangents q). auto.
      + cbn [lax.scalar_region variadic_reducer].
        destruct (wide_word_unpack k1 v1 Hn Hk1 Hv1) as [-> _].
        destruct (wide_word_unpack (select_init select_prim) zero Hn
                    Hinit Hzero) as [-> _].
        destruct (lax.bind_comparison select_prim k1
                    (select_init select_prim)).
        * exists k1, v1. auto.
        * exists (select_init select_prim), zero. auto. }
  destruct HR as (k & v & Hk & Hv & -> & ->). cbn [nth].
  apply (wide_word_unpack k v Hn Hk Hv).
Qed.

(** X11. The lowering by packed words warns exactly when it falls back to
    words of the dtype's own width, that is when the dtype fits the
    widest word but twice its width does not; it raises AssertionError
    when the dtype does not fit at all. *)
Theorem packed_lowering_warns_iff_reduced_precision
        (tangents operand : array T)
        (select_prim : lax.comparison_primitive) (wd ws : list Z)
        (padding : list (Z * Z)) (bd wdil out_aval : list Z)
        (max_bits : Z) :
  let r := _select_and_gather_add_lowering out_aval tangents operand
             select_prim wd ws padding bd wdil max_bits in
  (fst r = [UserWarning] <->
   finfo_bits <= max_bits < finfo_bits * 2) /\
  (fst r = [] <-> ~ finfo_bits <= max_bits < finfo_bits * 2) /\
  (max_bits < finfo_bits -> r = ([], Raise AssertionError)).
Proof.
  cbv zeta. unfold _select_and_gather_add_lowering,
    double_word.double_word_reduction.
  destruct (finfo_bits <=? max_bits) eqn:E1; cbn [negb].
  - apply Z.leb_le in E1.
    destruct (finfo_bits * 2 <=? max_bits) eqn:E2.
    + apply Z.leb_le in E2.
      destruct (negb _); cbn [fst];
        (split; [split; [discriminate|lia]|]);
        (split; [split; [lia|reflexivity]|lia]).
    + apply Z.leb_gt in E2.
      destruct (negb _); cbn [fst];
        (split; [split; [lia|reflexivity]|]);
        (split; [split; [discriminate|lia]|lia]).
  - apply Z.leb_gt in E1. cbn [fst].
    split; [split; [discriminate|lia]|].
    split; [split; [lia|reflexivity]|reflexivity].
Qed.

End packed_words.

(** ** The packing of the reduced-precision strategy *)

Lemma testbit_low_zero (a r n : Z) :
  0 <= n < r -> a mod 2 ^ r = 0 -> Z.testbit a n = false.
Proof.
  intros Hn Ha. rewrite <- (Z.mod_pow2_bits_low a r n) by lia.
  rewrite Ha. apply Z.testbit_0_l.
Qed.

Lemma testbit_high_zero (a w n : Z) :
  0 <= a < 2 ^ w -> 0 <= w <= n -> Z.testbit a n = false.
Proof.
  intros Ha Hn. rewrite <- (Z.mod_small a (2 ^ w)) by lia.
  apply Z.mod_pow2_bits_high. lia.
Qed.

Lemma half_word_bits (r a b : Z) :
  0 < r -> 0 <= a < 2 ^ (2 * r) -> 0 <= b < 2 ^ (2 * r) ->
  a mod 2 ^ r = 0 -> b mod 2 ^ r = 0 ->
  Z.land (Z.lor a (Z.shiftr b r)) (Z.shiftl (Z.shiftl 1 r - 1) r) = a /\
  Z.shiftl (Z.lor a (Z.shiftr b r)) r mod 2 ^ (2 * r) = b.
Proof.
  intros Hr Ha Hb Ha0 Hb0.
  assert (Hones : Z.shiftl 1 r - 1 = Z.ones r).
  { unfold Z.ones. lia. }
  rewrite Hones. split; apply Z.bits_inj'; intros n Hn.
  - rewrite Z.land_spec, Z.lor_spec, Z.shiftr_spec, Z.shiftl_spec by lia.
    destruct (Z.lt_ge_cases n r) as [Hlt|Hge].
    + rewrite (Z.testbit_neg_r _ (n - r)) by lia.
      rewrite andb_false_r. symmetry.
      apply (testbit_low_zero a r n); [lia|assumption].
    + destruct (Z.lt_ge_cases n (2 * r)) as [Hlt2|Hge2].
      * rewrite Z.ones_spec_low by lia. rewrite andb_true_r.
        rewrite (testbit_high_zero b (2 * r) (n + r)) by lia.
        apply orb_false_r.
      * rewrite Z.ones_spec_high by lia. rewrite andb_false_r.
        symmetry. apply (testbit_high_zero a (2 * r) n); lia.
  - destruct (Z.lt_ge_cases n (2 * r)) as [Hlt2|Hge2].
    + rewrite Z.mod_pow2_bits_low by lia.
      rewrite Z.shiftl_spec by lia.
      destruct (Z.lt_ge_cases n r) as [Hlt|Hge].
      * rewrite Z.testbit_neg_r by lia. symmetry.
        apply (testbit_low_zero b r n); [lia|assumption].
      * rewrite Z.lor_spec, Z.shiftr_spec by lia.
        rewrite (testbit_low_zero a r (n - r)) by (lia || assumption).
        replace (n - r + r) with n by lia. reflexivity.
    + rewrite Z.mod_pow2_bits_high by lia. symmetry.
      apply (testbit_high_zero b (2 * r) n); lia.
Qed.

Section half_words.
Context {T : Type} `{FloatBits T}.

(** X12. In the reduced-precision strategy, for a dtype of even width,
    unpacking a packed word gives back both scalars as the precision
    reduction left them, provided the reduction cleared the low half of
    their bit patterns: [fst (pack a b)] is the reduced [a] and
    [snd (pack a b)] the reduced [b]. *)
Theorem half_word_pack_roundtrip (a b : T) :
  let ra := reduce_precision a finfo_nexp half_word.nmant in
  let rb := reduce_precision b finfo_nexp half_word.nmant in
  0 < half_word.r_nbits -> finfo_bits = 2 * half_word.r_nbits ->
  exact_bits ra -> exact_bits rb ->
  to_bits ra mod 2 ^ half_word.r_nbits = 0 ->
  to_bits rb mod 2 ^ half_word.r_nbits = 0 ->
  half_word.fst (half_word.pack a b) = ra /\
  half_word.snd (half_word.pack a b) = rb.
Proof.
  intros ra rb Hr Hbits [Ea Ra] [Eb Rb] Ha0 Hb0.
  unfold half_word.fst, half_word.snd, half_word.pack, half_word.AndOp,
    double_word.OrOp, double_word.ShiftRightLogicalOp,
    double_word.ShiftLeftOp.
  fold ra rb.
  assert (Hlt : (half_word.r_nbits <? finfo_bits) = true)
    by (apply Z.ltb_lt; lia).
  rewrite Hlt. rewrite Hbits in Ra, Rb |- *.
  destruct (half_word_bits half_word.r_nbits (to_bits ra) (to_bits rb)
              Hr Ra Rb Ha0 Hb0) as [-> ->].
  split; assumption.
Qed.

End half_words.

(** The float32 scalars 1000001 and 7, whose reductions to 7 fraction
    bits are 999424 and 7. *)
Lemma half_word_pack_roundtrip_witness :
  half_word.fst (half_word.pack (float32.of_Z 1000001) (float32.of_Z 7))
  = reduce_precision (float32.of_Z 1000001) finfo_nexp
      half_word.nmant /\
  half_word.snd (half_word.pack (float32.of_Z 1000001) (float32.of_Z 7))
  = reduce_precision (float32.of_Z 7) finfo_nexp half_word.nmant.
Proof.
  apply (half_word_pack_roundtrip (float32.of_Z 1000001) (float32.of_Z 7));
    try reflexivity;
    split; try reflexivity; vm_compute; split; congruence.
Defined.

(** The packed lowering of the max-pooling tangents of the float32 operand
    [1,5,2,4] with 64-bit words. *)
Lemma packed_lowering_agrees_with_variadic_witness :
  let operand := of_list (float32.of_Z 0) (map float32.of_Z [1; 5; 2; 4]) in
  let tangents :=
    of_list (float32.of_Z 0) (map float32.of_Z [10; 20; 30; 40]) in
  exists packed variadic,
    _select_and_gather_add_lowering [2] tangents operand lax.ge_p [2] [2]
      [(0, 0)] [1] [1] 64 = ([], Ok packed) /\
    _select_and_gather_add tangents operand lax.ge_p [2] [2] [(0, 0)] [1]
      [1] = Ok variadic /\
    shape packed = shape variadic /\
    forall j, get packed j = get variadic j.
Proof.
  cbv zeta.
  apply (packed_lowering_agrees_with_variadic
           (of_list (float32.of_Z 0) (map float32.of_Z [10; 20; 30; 40]))
           (of_list (float32.of_Z 0) (map float32.of_Z [1; 5; 2; 4]))
           lax.ge_p [2] [2] [(0, 0)] [1] [1] [2] 64);
    try reflexivity;
    try (split; [reflexivity|vm_compute; split; congruence]).
  intros [|i [|i' q]] Hq; simpl in Hq; try discriminate;
    try (rewrite andb_false_r in Hq; discriminate).
  rewrite andb_true_r, andb_true_iff, Z.leb_le, Z.ltb_lt in Hq.
  assert (Hi : i = 0 \/ i = 1 \/ i = 2 \/ i = 3) by lia.
  destruct Hi as [->|[->|[->| ->]]];
    (split; (split; [reflexivity|vm_compute; split; congruence])).
Defined.

(** ** The windowed product *)

Section windowed_product.
Context {T : Type} `{Dtype T} `{Multiplicative T}.

(** X13. [_reduce_window_prod] is [reduce_window] with the combiner
    multiplication and the initial value 1, which never takes the fast
    path; on a geometry the shape rule accepts it returns the array of the
    inferred shape whose element [j] is the product, from 1, of the
    entries of window [j], padding slots counting as 1. *)
Theorem reduce_window_prod_is_generic_product
        (operand : array T) (wd ws : list Z) (padding : list (Z * Z))
        (bd wdil : option (list Z)) :
  (forall is_concrete,
      _reduce_window_prod operand wd ws padding bd wdil
      = (outs <- reduce_window [operand]
                   [core.mk_value is_concrete (scalar one)]
                   (lax.callable false 1 (lax.scalar_region smul))
                   wd ws padding bd wdil ;;
         match outs with
         | [out] => Ok out
         | _ => Raise ValueError
         end)) /\
  (forall out_shape,
      _common_reduce_window_shape_rule (shape operand) wd ws padding
        (default_dilation bd wd) (default_dilation wdil wd) = Ok out_shape ->
      _reduce_window_prod operand wd ws padding bd wdil
      = Ok (mk_array out_shape
              (fun j => nth 0 (mhlo.reduce_at [operand] [one] wd ws
                                 (default_dilation bd wd)
                                 (default_dilation wdil wd) padding
                                 (lax.scalar_region smul) j) zero))).
Proof.
  split.
  - intros is_concrete.
    rewrite reduce_window_unfold by (reflexivity || discriminate).
    rewrite get_monoid_window_reducer_callable. reflexivity.
  - intros out_shape Hshape. unfold _reduce_window_prod, _reduction_jaxpr.
    pose proof (reduce_window_p_bind_Ok [operand] [scalar one] operand
                  (lax.mk_jaxpr false (lax.scalar_region smul)) wd ws
                  padding _ _ out_shape eq_refl eq_refl
                  ltac:(repeat constructor) eq_refl Hshape) as Hb.
    rewrite_bound Hb. reflexivity.
Qed.

End windowed_product.

(** The products of the windows of 2 at stride 2 of the float32 operand
    [1,5,2,4]. *)
Lemma reduce_window_prod_is_generic_product_witness :
  let operand := of_list (float32.of_Z 0) (map float32.of_Z [1; 5; 2; 4]) in
  _reduce_window_prod operand [2] [2] [(0, 0)] None None
  = Ok (mk_array [2]
          (fun j => nth 0 (mhlo.reduce_at [operand] [one] [2] [2]
                             (default_dilation None [2])
                             (default_dilation None [2]) [(0, 0)]
                             (lax.scalar_region smul) j) zero)) /\
  result_map to_list
    (_reduce_window_prod operand [2] [2] [(0, 0)] None None)
  = Ok (map float32.of_Z [5; 8]).
Proof.
  cbv zeta. split; [|vm_compute; reflexivity].
  apply (proj2 (reduce_window_prod_is_generic_product
                  (of_list (float32.of_Z 0) (map float32.of_Z [1; 5; 2; 4]))
                  [2] [2] [(0, 0)] None None) [2]).
  reflexivity.
Defined.

(** ** The differentiation rules of select_and_scatter_add and the
    forward rule of select_and_gather_add *)

Section differentiation_rules.
Context {T : Type} `{Dtype T}.
Variable pf : bool.

(** X14. The reverse-mode rule of select_and_scatter_add asserts that
    the source is the undefined input and the operand a known value.  A
    symbolic zero cotangent then gives the symbolic zero of the source,
    whatever the geometry; any other cotangent is handed to
    [_select_and_gather_add] with the same predicate, window dimensions,
    strides and padding and unit dilations: TypeError when its shape is
    not the operand's, and on an accepted geometry a cotangent for the
    source of the shape the shape rule infers. *)
Theorem select_and_scatter_add_transpose_routing
        (t : ad.cotangent T) (source operand : ad.primal T)
        (select_prim : lax.comparison_primitive) (wd ws : list Z)
        (padding : list (Z * Z)) :
  let rule := _select_and_scatter_add_transpose t source operand
                select_prim wd ws padding in
  let ones := ones (length wd) in
  (ad.is_undefined_primal source = false \/
   ad.is_undefined_primal operand = true ->
   rule = Raise AssertionError) /\
  (forall source_aval x,
      source = ad.UndefinedPrimal source_aval -> operand = ad.Primal x ->
      (forall aval, t = ad.Zero aval ->
                    rule = Ok [Some (ad.Zero source_aval); None]) /\
      (forall ct, t = ad.Cotangent ct ->
         rule = (source_t <- _select_and_gather_add ct x select_prim wd
                               ws padding ones ones ;;
                 Ok [Some (ad.Cotangent source_t); None]) /\
         (shape ct <> shape x -> rule = Raise TypeError) /\
         (forall out_shape,
             shape ct = shape x -> is_ge_or_le select_prim = true ->
             _common_reduce_window_shape_rule (shape x) wd ws padding
               ones ones = Ok out_shape ->
             exists source_t,
               rule = Ok [Some (ad.Cotangent source_t); None] /\
               shape source_t = out_shape))).
Proof.
  cbv zeta. unfold _select_and_scatter_add_transpose. split.
  - intros [Hs|Ho].
    + destruct source; [discriminate|reflexivity].
    + destruct source, operand; try reflexivity; discriminate.
  - intros source_aval x -> ->. split.
    + intros aval ->. reflexivity.
    + intros ct ->. split; [reflexivity|]. split.
      * intros Hne. unfold _select_and_gather_add,
          _select_and_gather_add_shape_rule.
        destruct (index_eqb (shape ct) (shape x)) eqn:E;
          [apply index_eqb_eq in E; contradiction|reflexivity].
      * intros out_shape Hs Hsel Hrule.
        rewrite (select_and_gather_add_Ok _ _ _ _ _ _ _ _ _ Hsel Hs Hrule).
        eexists. split; reflexivity.
Qed.

(** X15. On a geometry on which select_and_scatter_add is defined, its
    primal output has the shape its shape rule promises, the operand's,
    and its forward rule returns that output together with a tangent of
    the same shape: the symbolic zero of that shape for a symbolic zero
    source tangent, and otherwise select_and_scatter_add of the source
    tangent over the same operand; the tangent of the operand is not
    looked at. *)
Theorem select_and_scatter_add_jvp_tangent
        (source operand : array T) (g_operand : ad.cotangent T)
        (select_prim : lax.comparison_primitive) (wd ws : list Z)
        (padding : list (Z * Z)) :
  Forall (fun d => 0 <= d) wd -> Forall (fun d => 0 <= d) ws ->
  length wd = length ws ->
  Forall (fun d => 0 <= d) (shape operand) ->
  (pf = true ->
   length padding = length (shape operand) /\
   Forall (fun '(lo, hi) => 0 <= lo /\ 0 <= hi) padding) ->
  exists val_out,
    _select_and_scatter_add pf source operand select_prim wd ws padding
    = Ok val_out /\
    shape val_out = _select_and_scatter_add_shape_rule source operand /\
    (forall aval,
        _select_and_scatter_add_jvp pf (source, operand)
          (ad.Zero aval, g_operand) select_prim wd ws padding
        = Ok (val_out, ad.Zero (shape operand))) /\
    (forall g_source,
        exists tangent_out,
          _select_and_scatter_add pf g_source operand select_prim wd ws
            padding = Ok tangent_out /\
          shape tangent_out = shape operand /\
          _select_and_scatter_add_jvp pf (source, operand)
            (ad.Cotangent g_source, g_operand) select_prim wd ws padding
          = Ok (val_out, ad.Cotangent tangent_out)).
Proof.
  intros Hwd Hws Hl Hs Hp.
  destruct (select_and_scatter_add_Ok pf source operand select_prim wd ws
              padding Hwd Hws Hl Hs Hp) as (val_out & Ev & Sv).
  exists val_out. split; [exact Ev|]. split; [exact Sv|]. split.
  - intros aval. unfold _select_and_scatter_add_jvp. rewrite Ev.
    cbn [bind]. rewrite Sv. reflexivity.
  - intros g_source.
    destruct (select_and_scatter_add_Ok pf g_source operand select_prim
                wd ws padding Hwd Hws Hl Hs Hp) as (tangent_out & Et & St).
    exists tangent_out. split; [exact Et|]. split; [exact St|].
    unfold _select_and_scatter_add_jvp. rewrite Ev. cbn [bind].
    rewrite Et. reflexivity.
Qed.

(** X16. On a geometry select_and_gather_add accepts, its forward rule
    returns the primal output together with a tangent of the output's
    shape: the symbolic zero of that shape for a symbolic zero tangent of
    the first argument, select_and_gather_add of that tangent over the
    same operand when it has the operand's shape, and TypeError when it
    has another shape; the tangent of the operand is not looked at. *)
Theorem select_and_gather_add_jvp_tangent
        (source operand : array T) (g_operand : ad.cotangent T)
        (select_prim : lax.comparison_primitive) (wd ws : list Z)
        (padding : list (Z * Z)) (bd wdil out_shape : list Z) :
  is_ge_or_le select_prim = true ->
  shape source = shape operand ->
  _common_reduce_window_shape_rule (shape operand) wd ws padding bd wdil
  = Ok out_shape ->
  exists val_out,
    _select_and_gather_add source operand select_prim wd ws padding bd
      wdil = Ok val_out /\
    shape val_out = out_shape /\
    (forall aval,
        _select_and_gather_add_jvp (source, operand)
          (ad.Zero aval, g_operand) select_prim wd ws padding bd wdil
        = Ok (val_out, ad.Zero out_shape)) /\
    (forall g_source,
        shape g_source = shape operand ->
        exists tangent_out,
          _select_and_gather_add g_source operand select_prim wd ws
            padding bd wdil = Ok tangent_out /\
          shape tangent_out = out_shape /\
          _select_and_gather_add_jvp (source, operand)
            (ad.Cotangent g_source, g_operand) select_prim wd ws padding
            bd wdil
          = Ok (val_out, ad.Cotangent tangent_out)) /\
    (forall g_source,
        shape g_source <> shape operand ->
        _select_and_gather_add_jvp (source, operand)
          (ad.Cotangent g_source, g_operand) select_prim wd ws padding
          bd wdil
        = Raise TypeError).
Proof.
  intros Hsel Hs Hrule.
  pose proof (select_and_gather_add_Ok source operand select_prim wd ws
                padding bd wdil out_shape Hsel Hs Hrule) as Ev.
  eexists. split; [exact Ev|]. split; [reflexivity|].
  unfold _select_and_gather_add_jvp. rewrite Ev. cbn [bind shape].
  split; [reflexivity|]. split.
  - intros g_source Hg.
    pose proof (select_and_gather_add_Ok g_source operand select_prim wd
                  ws padding bd wdil out_shape Hsel Hg Hrule) as Et.
    eexists. split; [exact Et|]. split; [reflexivity|].
    rewrite Et. reflexivity.
  - intros g_source Hne.
    unfold _select_and_gather_add, _select_and_gather_add_shape_rule.
    destruct (index_eqb (shape g_source) (shape operand)) eqn:E;
      [apply index_eqb_eq in E; contradiction|reflexivity].
Qed.

End differentiation_rules.

(** ** The batching rule of select_and_gather_add *)

Section gather_batching.
Context {T : Type} `{Dtype T}.

Lemma bdim_at_front_shape (x : array T) (bdim : option nat) (size t : Z) :
  tl (shape (batching.bdim_at_front x bdim size))
  = shape (unbatched t x bdim).
Proof. destruct bdim; reflexivity. Qed.

Lemma first_batch_size_front (t x : array T) (t_bdim x_bdim : option nat)
      (size : Z) :
  first_batch_size [(t, t_bdim); (x, x_bdim)] = Ok size ->
  shape (batching.bdim_at_front t t_bdim size)
  = shape (batching.bdim_at_front x x_bdim size) ->
  shape (batching.bdim_at_front x x_bdim size)
  = size :: shape (unbatched 0 x x_bdim).
Proof.
  intros Hsize Hshapes.
  assert (Ht : exists rest,
             shape (batching.bdim_at_front t t_bdim size) = size :: rest).
  { destruct t_bdim as [bt|]; cbn; [|eexists; reflexivity].
    simpl in Hsize.
    destruct (nth_error (shape t) bt) as [m|] eqn:E; [|discriminate].
    injection Hsize as <-. rewrite (nth_error_nth _ _ 0 E).
    eexists; reflexivity. }
  destruct Ht as (rest & Ht). rewrite Ht in Hshapes.
  rewrite <- (bdim_at_front_shape x x_bdim size 0), <- Hshapes.
  reflexivity.
Qed.

(** X17. The batching rule of select_and_gather_add brings the batch
    axes of tangents and operand to the front, prepends the degenerate
    window entry and binds the primitive once, with the output batched at
    axis 0; on an accepted geometry the sub-array of the output at each
    position of the batch axis is the output of the unbatched primitive on
    the arguments' sub-arrays at that position. *)
Theorem select_and_gather_add_batching_rule_stacks
        (t x : array T) (t_bdim x_bdim : option nat)
        (select_prim : lax.comparison_primitive) (wd ws : list Z)
        (padding : list (Z * Z)) (bd wdil : list Z) (size : Z) :
  is_ge_or_le select_prim = true ->
  first_batch_size [(t, t_bdim); (x, x_bdim)] = Ok size -> 0 <= size ->
  shape (batching.bdim_at_front t t_bdim size)
  = shape (batching.bdim_at_front x x_bdim size) ->
  checked_geometry (shape (unbatched 0 x x_bdim)) wd ws bd wdil ->
  length padding = length (shape (unbatched 0 x x_bdim)) ->
  exists out,
    _select_and_gather_add_batching_rule (t, x) (t_bdim, x_bdim)
      select_prim wd ws padding bd wdil = Ok (out, 0%nat) /\
    _select_and_gather_add (batching.bdim_at_front t t_bdim size)
      (batching.bdim_at_front x x_bdim size) select_prim (1 :: wd)
      (1 :: ws) ((0, 0) :: padding) (1 :: bd) (1 :: wdil) = Ok out /\
    forall i, 0 <= i < size ->
      exists u,
        _select_and_gather_add (unbatched i t t_bdim)
          (unbatched i x x_bdim) select_prim wd ws padding bd wdil
        = Ok u /\
        array_eq (take 0 i out) u.
Proof.
  intros Hsel Hsize Hnn Hshapes Hc Hp.
  set (s := shape (unbatched 0 x x_bdim)) in *.
  destruct Hc as (Hw & Hs & Hbd & Hk & L0 & L2 & L4 & L5).
  destruct (common_shape_rule_batched 0 size s wd ws padding bd wdil)
    as (out_shape & Hu & Hbatched & Lout); try assumption; try lia.
  rewrite !insert_at_zero in Hbatched.
  pose proof (first_batch_size_front t x t_bdim x_bdim size Hsize Hshapes)
    as Hfront.
  fold s in Hfront. rewrite <- Hfront in Hbatched.
  pose proof (select_and_gather_add_Ok _ _ select_prim _ _ _ _ _ _ Hsel
                Hshapes Hbatched) as Hout.
  eexists. split; [|split; [exact Hout|]].
  - unfold _select_and_gather_add_batching_rule. rewrite Hsize.
    cbn [bind]. rewrite Hout. reflexivity.
  - intros i Hi.
    assert (Hxs : shape (unbatched i x x_bdim) = s).
    { subst s. rewrite <- !(bdim_at_front_shape x x_bdim size).
      reflexivity. }
    assert (Hts : shape (unbatched i t t_bdim)
                  = shape (unbatched i x x_bdim)).
    { rewrite <- (bdim_at_front_shape t t_bdim size),
        <- (bdim_at_front_shape x x_bdim size), Hshapes. reflexivity. }
    rewrite <- Hxs in Hu.
    pose proof (select_and_gather_add_Ok _ _ select_prim _ _ _ _ _ _ Hsel
                  Hts Hu) as Hunb.
    eexists. split; [exact Hunb|]. split.
    + reflexivity.
    + intros j Hj. cbn [take shape get remove_at firstn skipn app] in *.
      apply in_bounds_length in Hj. f_equal.
      change (1 :: wd) with (insert_at 0 1 wd).
      change (1 :: ws) with (insert_at 0 1 ws).
      change (1 :: bd) with (insert_at 0 1 bd).
      change (1 :: wdil) with (insert_at 0 1 wdil).
      change ((0, 0) :: padding) with (insert_at 0 (0, 0) padding).
      apply (reduce_at_batched 0 size i
               [batching.bdim_at_front x x_bdim size;
                batching.bdim_at_front t t_bdim size]
               [unbatched i x x_bdim; unbatched i t t_bdim]);
        try lia.
      * cbn [batch_related]. split.
        -- rewrite Hfront, Hxs. reflexivity.
        -- intros q.
           apply (bdim_at_front_related size i [x; t] [x_bdim; t_bdim] q).
      * intros o Ho. simpl in Ho. injection Ho as <-. rewrite Hxs. lia.
Qed.

End gather_batching.

(** ** The batching rule of select_and_scatter_add *)

Lemma fold_left_flat_map {A B C : Type} (f : A -> B -> A) (g : C -> list B)
      (l : list C) (a : A) :
  fold_left f (flat_map g l) a
  = fold_left (fun acc x => fold_left f (g x) acc) l a.
Proof.
  revert a; induction l as [|x l IH]; intros a; simpl; [reflexivity|].
  rewrite fold_left_app. apply IH.
Qed.

Lemma fold_left_identity {A B : Type} (f : A -> B -> A) (l : list B)
      (a : A) :
  (forall acc x, In x l -> f acc x = acc) -> fold_left f l a = a.
Proof.
  induction l as [|x l IH]; intros Hf; simpl; [reflexivity|].
  rewrite Hf by (left; reflexivity).
  apply IH. intros; apply Hf; right; assumption.
Qed.

Lemma fold_left_single {A : Type} (h : Z -> A -> A) (l : list Z) (t : Z)
      (a : A) :
  NoDup l -> In t l ->
  (forall t' acc, In t' l -> t' <> t -> h t' acc = acc) ->
  fold_left (fun acc t' => h t' acc) l a = h t a.
Proof.
  intros Hnd. revert a. induction Hnd as [|x l Hx Hnd IH]; intros a Hin Hh.
  - destruct Hin.
  - simpl. destruct (Z.eq_dec x t) as [->|Hne].
    + apply fold_left_identity. intros acc t' Ht'.
      apply Hh; [right; exact Ht'|]. intros ->. contradiction.
    + rewrite Hh by (auto || left; reflexivity).
      apply IH.
      * destruct Hin as [Hin|Hin]; [contradiction|exact Hin].
      * intros t' acc Ht'. apply Hh. right. exact Ht'.
Qed.

Lemma in_range (t n : Z) : In t (range n) <-> 0 <= t < n.
Proof.
  unfold range. rewrite in_map_iff. split.
  - intros (k & <- & Hk). apply in_seq in Hk. lia.
  - intros Ht. exists (Z.to_nat t). split; [lia|].
    apply in_seq. lia.
Qed.

Lemma range_NoDup (n : Z) : NoDup (range n).
Proof.
  unfold range. generalize (seq_NoDup (Z.to_nat n) 0).
  induction 1 as [|x l Hx Hnd IH]; simpl; constructor; [|exact IH].
  rewrite in_map_iff. intros (y & Hy & Hin).
  apply Nat2Z.inj in Hy. subst y. contradiction.
Qed.

Section scatter_batching.
Context {T : Type} `{Dtype T}.

Lemma selected_batched (op' opt : array T) (select : T -> T -> bool)
      (wd ws : list Z) (padding : list (Z * Z)) (size t : Z) (j : list Z) :
  shape op' = size :: shape opt ->
  (forall q, get op' (t :: q) = get opt q) ->
  0 <= t < size ->
  mhlo.selected op' select (1 :: wd) (1 :: ws) ((0, 0) :: padding) (t :: j)
  = option_map (fun '(p, v) => (t :: p, v))
               (mhlo.selected opt select wd ws padding j).
Proof.
  intros Hshape Hget Ht. unfold mhlo.selected.
  change (1 :: wd) with (insert_at 0 1 wd).
  rewrite indices_insert_one, fold_left_map.
  apply (fold_left_related
           (fun st' st => st' = option_map (fun '(p, v) => (t :: p, v)) st)).
  - reflexivity.
  - intros st' st k ->. rewrite insert_at_zero. unfold mhlo.select_step.
    cbn [map2 map fst]. rewrite Hshape. cbn [in_bounds].
    replace (t * 1 + 0 - 0) with t by lia.
    assert (E1 : (0 <=? t) = true) by (apply Z.leb_le; lia).
    assert (E2 : (t <? size) = true) by (apply Z.ltb_lt; lia).
    rewrite E1, E2. cbn [andb]. rewrite Hget.
    destruct (in_bounds (shape opt) _); [|reflexivity].
    destruct st as [[p u]|]; cbn [option_map]; [|reflexivity].
    destruct (select u _); reflexivity.
Qed.

Lemma scatter_batched (op' src' : array T) (opf srcf : Z -> array T)
      (so ss : list Z) (init : T) (select : T -> T -> bool)
      (scatter : T -> T -> T) (wd ws : list Z) (padding : list (Z * Z))
      (size t : Z) (i : list Z) :
  shape op' = size :: so -> shape src' = size :: ss ->
  (forall t', 0 <= t' < size ->
     shape (opf t') = so /\ forall q, get op' (t' :: q) = get (opf t') q) ->
  shape (srcf t) = ss ->
  (forall q, get src' (t :: q) = get (srcf t) q) ->
  0 <= t < size ->
  get (mhlo.SelectAndScatterOp op' src' init select scatter (1 :: wd)
         (1 :: ws) ((0, 0) :: padding)) (t :: i)
  = get (mhlo.SelectAndScatterOp (opf t) (srcf t) init select scatter wd
           ws padding) i.
Proof.
  intros Hop Hsrc Hopf Hss Hsrcf Ht.
  cbn [get mhlo.SelectAndScatterOp]. rewrite Hsrc, Hss.
  cbn [indices]. rewrite fold_left_flat_map.
  rewrite (fold_left_single
             (fun t' acc =>
                fold_left
                  (fun acc j =>
                     match mhlo.selected op' select (1 :: wd) (1 :: ws)
                             ((0, 0) :: padding) j with
                     | Some (p, _) =>
                         if index_eqb p (t :: i)
                         then scatter acc (get src' j) else acc
                     | None => acc
                     end)
                  (map (cons t') (indices ss)) acc)
             (range size) t init (range_NoDup size));
    [|apply in_range; exact Ht|].
  - rewrite fold_left_map. apply fold_left_ext_in. intros acc j _.
    destruct (Hopf t Ht) as [Hs Hg].
    rewrite (selected_batched op' (opf t) select wd ws padding size t j)
      by (assumption || (rewrite Hop, Hs; reflexivity)).
    destruct (mhlo.selected (opf t) select wd ws padding j) as [[p u]|];
      cbn [option_map]; [|reflexivity].
    cbn [index_eqb]. rewrite Z.eqb_refl. cbn [andb]. rewrite Hsrcf.
    reflexivity.
  - intros t' acc Hin Hne. apply in_range in Hin.
    rewrite fold_left_map. apply fold_left_identity. intros acc' j _.
    destruct (Hopf t' Hin) as [Hs Hg].
    rewrite (selected_batched op' (opf t') select wd ws padding size t' j)
      by (assumption || (rewrite Hop, Hs; reflexivity)).
    destruct (mhlo.selected (opf t') select wd ws padding j) as [[p u]|];
      cbn [option_map]; [|reflexivity].
    cbn [index_eqb].
    assert (E : (t' =? t) = false) by (apply Z.eqb_neq; exact Hne).
    rewrite E. reflexivity.
Qed.

Lemma bdim_at_front_unbatched (x : array T) (bdim : option nat)
      (size t : Z) :
  (forall b, bdim = Some b -> nth b (shape x) 0 = size) ->
  shape (batching.bdim_at_front x bdim size)
  = size :: shape (unbatched t x bdim) /\
  forall q, get (batching.bdim_at_front x bdim size) (t :: q)
            = get (unbatched t x bdim) q.
Proof.
  intros Hb. destruct bdim as [b|]; cbn.
  - rewrite (Hb b eq_refl). split; reflexivity.
  - split; reflexivity.
Qed.

Lemma expanded_operand_batched (op' opt : array T)
      (select_prim : lax.comparison_primitive) (padding : list (Z * Z))
      (size t : Z) :
  shape op' = size :: shape opt ->
  (forall q, get op' (t :: q) = get opt q) ->
  0 <= t < size ->
  shape (expanded_operand op' select_prim ((0, 0) :: padding))
  = size :: shape (expanded_operand opt select_prim padding) /\
  forall q, get (expanded_operand op' select_prim ((0, 0) :: padding))
                (t :: q)
            = get (expanded_operand opt select_prim padding) q.
Proof.
  intros Hshape Hget Ht. unfold expanded_operand. cbn [shape get].
  rewrite Hshape. cbn [map map2 lax.source_index]. split.
  - rewrite dilate_dim_one by lia. f_equal.
  - intros q. unfold lax.dilated_source.
    rewrite dilate_dim_one by lia.
    replace (t - 0) with t by lia.
    assert (E1 : (0 <=? t) = true) by (apply Z.leb_le; lia).
    assert (E2 : (t <? size) = true) by (apply Z.ltb_lt; lia).
    rewrite E1, E2, Z.mod_1_r, Z.div_1_r. cbn [andb Z.eqb].
    destruct (lax.source_index (shape opt) _ q) as [qs|];
      [apply Hget|reflexivity].
Qed.

Variable pf : bool.

(** X18. The batching rule of select_and_scatter_add brings the batch
    axes of source and operand to the front, prepends the degenerate
    window entry and binds the primitive once, with the output batched at
    axis 0; under either lowering of the primitive, the sub-array of the
    output at each position of the batch axis is the output of the
    unbatched primitive on the arguments' sub-arrays at that position. *)
Theorem select_and_scatter_add_batch_rule_stacks
        (source operand : array T) (s_bdim o_bdim : option nat)
        (select_prim : lax.comparison_primitive) (wd ws : list Z)
        (padding : list (Z * Z)) (size : Z) :
  first_batch_size [(source, s_bdim); (operand, o_bdim)] = Ok size ->
  0 <= size ->
  (forall b, s_bdim = Some b -> nth b (shape source) 0 = size) ->
  (forall b, o_bdim = Some b -> nth b (shape operand) 0 = size) ->
  Forall (fun d => 0 <= d) wd -> Forall (fun d => 0 <= d) ws ->
  length wd = length ws ->
  Forall (fun d => 0 <= d) (shape (unbatched 0 operand o_bdim)) ->
  (pf = true ->
   length padding = length (shape (unbatched 0 operand o_bdim)) /\
   Forall (fun '(lo, hi) => 0 <= lo /\ 0 <= hi) padding) ->
  exists out,
    _select_and_scatter_add_batch_rule pf (source, operand)
      (s_bdim, o_bdim) select_prim wd ws padding = Ok (out, 0%nat) /\
    _select_and_scatter_add pf
      (batching.bdim_at_front source s_bdim size)
      (batching.bdim_at_front operand o_bdim size) select_prim (1 :: wd)
      (1 :: ws) ((0, 0) :: padding) = Ok out /\
    forall i, 0 <= i < size ->
      exists u,
        _select_and_scatter_add pf (unbatched i source s_bdim)
          (unbatched i operand o_bdim) select_prim wd ws padding = Ok u /\
        array_eq (take 0 i out) u.
Proof.
  intros Hsize Hnn Hsb Hob Hwd Hws Hl Hs Hp.
  set (src' := batching.bdim_at_front source s_bdim size).
  set (op' := batching.bdim_at_front operand o_bdim size).
  set (so := shape (unbatched 0 operand o_bdim)) in *.
  assert (Hso : forall t, shape (unbatched t operand o_bdim) = so).
  { intros t. subst so. destruct o_bdim; reflexivity. }
  assert (Hss : forall t, shape (unbatched t source s_bdim)
                          = shape (unbatched 0 source s_bdim)).
  { intros t. destruct s_bdim; reflexivity. }
  assert (Hop' : shape op' = size :: so).
  { subst op' so.
    apply (bdim_at_front_unbatched operand o_bdim size 0 Hob). }
  assert (Hsrc' : shape src' = size :: shape (unbatched 0 source s_bdim)).
  { subst src'.
    apply (bdim_at_front_unbatched source s_bdim size 0 Hsb). }
  assert (Hwd' : Forall (fun d => 0 <= d) (1 :: wd))
    by (constructor; [lia|assumption]).
  assert (Hws' : Forall (fun d => 0 <= d) (1 :: ws))
    by (constructor; [lia|assumption]).
  assert (Hl' : length (1 :: wd) = length (1 :: ws)) by (simpl; lia).
  assert (Hopf : forall t', 0 <= t' < size ->
            shape (unbatched t' operand o_bdim) = so /\
            forall q, get op' (t' :: q)
                      = get (unbatched t' operand o_bdim) q).
  { intros t' _. split; [apply Hso|].
    apply (bdim_at_front_unbatched operand o_bdim size t' Hob). }
  assert (Hsrcf : forall t q, get src' (t :: q)
                              = get (unbatched t source s_bdim) q).
  { intros t. apply (bdim_at_front_unbatched source s_bdim size t Hsb). }
  unfold _select_and_scatter_add_batch_rule. rewrite Hsize. cbn [bind].
  fold src' op'. unfold _select_and_scatter_add. destruct pf.
  - destruct (Hp eq_refl) as [Hpl Hpp].
    assert (Hpl' : length ((0, 0) :: padding) = length (shape op'))
      by (rewrite Hop'; simpl; lia).
    assert (Hpp' : Forall (fun '(lo, hi) => 0 <= lo /\ 0 <= hi)
                          ((0, 0) :: padding))
      by (constructor; [lia|assumption]).
    assert (Hs' : Forall (fun d => 0 <= d) (shape op'))
      by (rewrite Hop'; constructor; assumption).
    rewrite (select_and_scatter_add_expand_Ok src' op' select_prim
               (1 :: wd) (1 :: ws) ((0, 0) :: padding) Hwd' Hws' Hl'
               Hpl' Hpp' Hs').
    eexists. split; [reflexivity|]. split; [reflexivity|].
    intros i Hi.
    rewrite (select_and_scatter_add_expand_Ok
               (unbatched i source s_bdim) (unbatched i operand o_bdim)
               select_prim wd ws padding Hwd Hws Hl)
      by (rewrite ?Hso; assumption).
    eexists. split; [reflexivity|]. split.
    + cbn [take shape remove_at firstn skipn app]. rewrite Hop', Hso.
      reflexivity.
    + intros j _. cbn [take get insert_at firstn skipn app map map2].
      replace (0 + i * 1) with i by lia.
      apply (scatter_batched
               (expanded_operand op' select_prim ((0, 0) :: padding))
               src'
               (fun t => expanded_operand (unbatched t operand o_bdim)
                           select_prim padding)
               (fun t => unbatched t source s_bdim)
               (shape (expanded_operand (unbatched i operand o_bdim)
                         select_prim padding))
               (shape (unbatched 0 source s_bdim))) with (size := size);
        try assumption; try apply Hss; try apply Hsrcf.
      * apply (expanded_operand_batched op'
                 (unbatched i operand o_bdim) select_prim padding size i);
          [rewrite Hop', Hso; reflexivity|apply Hopf; exact Hi|exact Hi].
      * intros t' Ht'.
        destruct (expanded_operand_batched op'
                    (unbatched t' operand o_bdim) select_prim padding
                    size t') as [_ Hg];
          [rewrite Hop', Hso; reflexivity|apply Hopf; exact Ht'
          |exact Ht'|].
        split; [|exact Hg].
        unfold expanded_operand. cbn [shape]. rewrite !Hso. reflexivity.
  - rewrite (select_and_scatter_add_direct_Ok src' op' select_prim
               (1 :: wd) (1 :: ws) ((0, 0) :: padding) Hwd' Hws' Hl').
    eexists. split; [reflexivity|]. split; [reflexivity|].
    intros i Hi.
    rewrite (select_and_scatter_add_direct_Ok
               (unbatched i source s_bdim) (unbatched i operand o_bdim)
               select_prim wd ws padding Hwd Hws Hl).
    eexists. split; [reflexivity|]. split.
    + cbn [take shape remove_at firstn skipn app]. rewrite Hop', Hso.
      reflexivity.
    + intros j _. cbn [take get insert_at firstn skipn app].
      apply (scatter_batched op' src'
               (fun t => unbatched t operand o_bdim)
               (fun t => unbatched t source s_bdim) so
               (shape (unbatched 0 source s_bdim))) with (size := size);
        try assumption; try apply Hss; try apply Hsrcf.
Qed.

End scatter_batching.

(** ** The specialized reducers *)

Section specialized_reducers.
Context {T : Type} `{Dtype T}.


(** X20. On a dtype that is not a number dtype, [_reduce_window_sum]
    raises TypeError whatever the geometry, and so does [reduce_window]
    with the combiner [lax.add] and a concrete scalar initial value equal
    to 0, which takes the fast path to it. *)
Theorem reduce_window_sum_rejects_non_number
        (operand : array T) (wd ws : list Z) (padding : list (Z * Z))
        (bd wdil : option (list Z)) :
  is_number = false ->
  _reduce_window_sum operand wd ws padding bd wdil = Raise TypeError /\
  (forall init,
      core.is_concrete init = true -> shape (core.runtime init) = [] ->
      eqv (get (core.runtime init) []) zero = true ->
      reduce_window [operand] [init] lax.add wd ws padding bd wdil
      = Raise TypeError).
Proof.
  intros Hnum.
  assert (Hsum : forall bd' wdil',
             reduce_window_sum_p_bind operand wd ws padding bd' wdil'
             = Raise TypeError).
  { intros bd' wdil'.
    unfold reduce_window_sum_p_bind, _reduce_window_sum_shape_rule.
    rewrite Hnum. reflexivity. }
  split.
  - unfold _reduce_window_sum. apply Hsum.
  - intros init Hc Hs Hz.
    rewrite reduce_window_unfold by (reflexivity || discriminate).
    assert (Er : _get_monoid_window_reducer lax.add [init]
                 = Some use_reduce_window_sum).
    { apply get_monoid_window_reducer_iff. exists init.
      repeat split; try assumption. left. auto. }
    rewrite Er. cbn [specialized_bind]. rewrite Hsum. reflexivity.
Qed.

End specialized_reducers.

(** Windowed sums of a bool operand. *)
Lemma reduce_window_sum_rejects_non_number_witness :
  let operand := of_list false [true; false; true; true] in
  @_reduce_window_sum bool bool_dtype.dtype operand [2] [2] [(0, 0)] None
    None = Raise TypeError /\
  @reduce_window bool bool_dtype.dtype [operand]
    [core.mk_value true (scalar false)] lax.add [2] [2] [(0, 0)] None None
  = Raise TypeError.
Proof.
  cbv zeta.
  destruct (@reduce_window_sum_rejects_non_number bool bool_dtype.dtype
              (of_list false [true; false; true; true]) [2] [2] [(0, 0)]
              None None eq_refl) as [Hsum Hrw].
  split; [exact Hsum|].
  apply Hrw; reflexivity.
Defined.

(** ** Batching rules without a batched argument *)

Lemma firstn_of_repeat {A : Type} (x : A) (n m : nat) :
  firstn n (repeat x m) = repeat x (Nat.min n m).
Proof.
  revert m; induction n as [|n IH]; intros [|m]; simpl; try reflexivity.
  rewrite IH. reflexivity.
Qed.

Lemma skipn_of_repeat {A : Type} (x : A) (n m : nat) :
  skipn n (repeat x m) = repeat x (m - n).
Proof.
  revert m; induction n as [|n IH]; intros [|m]; simpl; try reflexivity.
  apply IH.
Qed.

Section missing_batch_axis.
Context {T : Type} `{Dtype T}.
Variable pf : bool.

Lemma first_batch_size_none (xs : list (array T)) :
  first_batch_size (map2 (fun x ax => (x, ax)) xs
                      (repeat (@None nat) (length xs)))
  = Raise StopIteration.
Proof. induction xs as [|x xs IH]; simpl; [reflexivity|exact IH]. Qed.

(** X21. The batching rules that read the batch size off the first
    batched argument raise StopIteration when no argument carries a batch
    axis, before any shape is checked: those of select_and_scatter_add and
    select_and_gather_add, and the generic rule of reduce_window. *)
Theorem batching_rules_need_a_batch_axis
        (select_prim : lax.comparison_primitive) (wd ws : list Z)
        (padding : list (Z * Z)) (bd wdil : list Z) :
  (forall source operand,
      _select_and_scatter_add_batch_rule pf (source, operand) (None, None)
        select_prim wd ws padding = Raise StopIteration) /\
  (forall t x,
      _select_and_gather_add_batching_rule (t, x) (None, None) select_prim
        wd ws padding bd wdil = Raise StopIteration) /\
  (forall (batched_args : list (array T)) (jaxpr : lax.jaxpr T),
      _generic_reduce_window_batch_rule batched_args
        (repeat None (length batched_args)) jaxpr wd ws padding bd wdil
      = Raise StopIteration).
Proof.
  split; [reflexivity|]. split; [reflexivity|].
  intros batched_args jaxpr. unfold _generic_reduce_window_batch_rule.
  set (n := (length batched_args / 2)%nat).
  assert (Hn : (n <= length batched_args)%nat).
  { subst n. apply Nat.Div0.div_le_upper_bound. lia. }
  assert (E1 : firstn n (repeat (@None nat) (length batched_args))
               = repeat None (length (firstn n batched_args))).
  { rewrite firstn_of_repeat, length_firstn. reflexivity. }
  assert (E2 : existsb is_some
                 (skipn n (repeat (@None nat) (length batched_args)))
               = false).
  { rewrite skipn_of_repeat.
    induction (length batched_args - n)%nat; simpl; auto. }
  rewrite E1, E2.
  rewrite (safe_map2_Ok (fun x ax => (x, ax)))
    by (rewrite repeat_length; reflexivity).
  cbn [bind]. rewrite first_batch_size_none. reflexivity.
Qed.

End missing_batch_axis.

(** ** The rules at concrete arguments *)

(** The reverse-mode rule of select_and_scatter_add on the float32 operand
    [1,5,2,4] and a cotangent of its shape. *)
Lemma select_and_scatter_add_transpose_routing_witness :
  let operand := of_list (float32.of_Z 0) (map float32.of_Z [1; 5; 2; 4]) in
  let ct := of_list (float32.of_Z 0) (map float32.of_Z [10; 20; 30; 40]) in
  exists source_t,
    _select_and_scatter_add_transpose (ad.Cotangent ct)
      (ad.UndefinedPrimal [2]) (ad.Primal operand) lax.ge_p [2] [2]
      [(0, 0)] = Ok [Some (ad.Cotangent source_t); None] /\
    shape source_t = [2].
Proof.
  cbv zeta.
  destruct (select_and_scatter_add_transpose_routing
              (ad.Cotangent
                 (of_list (float32.of_Z 0)
                    (map float32.of_Z [10; 20; 30; 40])))
              (ad.UndefinedPrimal [2])
              (ad.Primal
                 (of_list (float32.of_Z 0) (map float32.of_Z [1; 5; 2; 4])))
              lax.ge_p [2] [2] [(0, 0)]) as [_ Hr].
  destruct (Hr [2] _ eq_refl eq_refl) as [_ Hc].
  destruct (Hc _ eq_refl) as (_ & _ & Hok).
  apply (Hok [2]); reflexivity.
Defined.

(** The forward rule of select_and_scatter_add under the direct lowering,
    on the float32 operand [1,5,2,4] and the source [10,20]. *)
Lemma select_and_scatter_add_jvp_tangent_witness :
  let operand := of_list (float32.of_Z 0) (map float32.of_Z [1; 5; 2; 4]) in
  let source := of_list (float32.of_Z 0) (map float32.of_Z [10; 20]) in
  exists val_out,
    _select_and_scatter_add false source operand lax.ge_p [2] [2] [(0, 0)]
    = Ok val_out /\
    shape val_out = _select_and_scatter_add_shape_rule source operand /\
    (forall aval,
        _select_and_scatter_add_jvp false (source, operand)
          (ad.Zero aval, ad.Zero [4]) lax.ge_p [2] [2] [(0, 0)]
        = Ok (val_out, ad.Zero (shape operand))) /\
    (forall g_source,
        exists tangent_out,
          _select_and_scatter_add false g_source operand lax.ge_p [2] [2]
            [(0, 0)] = Ok tangent_out /\
          shape tangent_out = shape operand /\
          _select_and_scatter_add_jvp false (source, operand)
            (ad.Cotangent g_source, ad.Zero [4]) lax.ge_p [2] [2] [(0, 0)]
          = Ok (val_out, ad.Cotangent tangent_out)).
Proof.
  cbv zeta.
  apply (select_and_scatter_add_jvp_tangent false
           (of_list (float32.of_Z 0) (map float32.of_Z [10; 20]))
           (of_list (float32.of_Z 0) (map float32.of_Z [1; 5; 2; 4]))
           (ad.Zero [4]) lax.ge_p [2] [2] [(0, 0)]);
    try reflexivity; try discriminate; repeat constructor; lia.
Defined.

(** The forward rule of select_and_gather_add on the float32 operand
    [1,5,2,4] and the tangents [10,20,30,40]. *)
Lemma select_and_gather_add_jvp_tangent_witness :
  let operand := of_list (float32.of_Z 0) (map float32.of_Z [1; 5; 2; 4]) in
  let source :=
    of_list (float32.of_Z 0) (map float32.of_Z [10; 20; 30; 40]) in
  exists val_out,
    _select_and_gather_add source operand lax.ge_p [2] [2] [(0, 0)] [1]
      [1] = Ok val_out /\
    shape val_out = [2] /\
    (forall aval,
        _select_and_gather_add_jvp (source, operand)
          (ad.Zero aval, ad.Zero [4]) lax.ge_p [2] [2] [(0, 0)] [1] [1]
        = Ok (val_out, ad.Zero [2])) /\
    (forall g_source,
        shape g_source = shape operand ->
        exists tangent_out,
          _select_and_gather_add g_source operand lax.ge_p [2] [2]
            [(0, 0)] [1] [1] = Ok tangent_out /\
          shape tangent_out = [2] /\
          _select_and_gather_add_jvp (source, operand)
            (ad.Cotangent g_source, ad.Zero [4]) lax.ge_p [2] [2] [(0, 0)]
            [1] [1]
          = Ok (val_out, ad.Cotangent tangent_out)) /\
    (forall g_source,
        shape g_source <> shape operand ->
        _select_and_gather_add_jvp (source, operand)
          (ad.Cotangent g_source, ad.Zero [4]) lax.ge_p [2] [2] [(0, 0)]
          [1] [1]
        = Raise TypeError).
Proof.
  cbv zeta.
  apply (select_and_gather_add_jvp_tangent
           (of_list (float32.of_Z 0) (map float32.of_Z [10; 20; 30; 40]))
           (of_list (float32.of_Z 0) (map float32.of_Z [1; 5; 2; 4]))
           (ad.Zero [4]) lax.ge_p [2] [2] [(0, 0)] [1] [1] [2]);
    reflexivity.
Defined.

(** The batching rule of select_and_gather_add on two float32 arrays of
    shape [2,4] batched at axis 0. *)
Lemma select_and_gather_add_batching_rule_stacks_witness :
  let x := mk_array [2; 4]
             (fun idx => match idx with
                         | [i; j] => float32.of_Z ((j - 2 * i) * (j - 1))
                         | _ => float32.of_Z 0
                         end) in
  let t := mk_array [2; 4]
             (fun idx => match idx with
                         | [i; j] => float32.of_Z (10 * i + j)
                         | _ => float32.of_Z 0
                         end) in
  exists out,
    _select_and_gather_add_batching_rule (t, x) (Some 0%nat, Some 0%nat)
      lax.ge_p [2] [2] [(0, 0)] [1] [1] = Ok (out, 0%nat) /\
    _select_and_gather_add (batching.bdim_at_front t (Some 0%nat) 2)
      (batching.bdim_at_front x (Some 0%nat) 2) lax.ge_p [1; 2] [1; 2]
      [(0, 0); (0, 0)] [1; 1] [1; 1] = Ok out /\
    forall i, 0 <= i < 2 ->
      exists u,
        _select_and_gather_add (unbatched i t (Some 0%nat))
          (unbatched i x (Some 0%nat)) lax.ge_p [2] [2] [(0, 0)] [1] [1]
        = Ok u /\
        array_eq (take 0 i out) u.
Proof.
  cbv zeta.
  apply (select_and_gather_add_batching_rule_stacks
           (mk_array [2; 4]
              (fun idx => match idx with
                          | [i; j] => float32.of_Z (10 * i + j)
                          | _ => float32.of_Z 0
                          end))
           (mk_array [2; 4]
              (fun idx => match idx with
                          | [i; j] => float32.of_Z ((j - 2 * i) * (j - 1))
                          | _ => float32.of_Z 0
                          end))
           (Some 0%nat) (Some 0%nat) lax.ge_p [2] [2] [(0, 0)] [1] [1] 2);
    try reflexivity; try lia.
  unfold checked_geometry. simpl.
  repeat match goal with |- _ /\ _ => split end;
    try reflexivity; repeat constructor; lia.
Defined.

(** The batching rule of select_and_scatter_add under the expanding
    lowering, on a float32 source of shape [2,2] and operand of shape
    [2,4] batched at axis 0, with one slot of padding on each side. *)
Lemma select_and_scatter_add_batch_rule_stacks_witness :
  let operand := mk_array [2; 4]
                   (fun idx => match idx with
                               | [i; j] =>
                                   float32.of_Z ((j - 2 * i) * (j - 1))
                               | _ => float32.of_Z 0
                               end) in
  let source := mk_array [2; 3]
                  (fun idx => match idx with
                              | [i; j] => float32.of_Z (10 * i + j + 1)
                              | _ => float32.of_Z 0
                              end) in
  exists out,
    _select_and_scatter_add_batch_rule true (source, operand)
      (Some 0%nat, Some 0%nat) lax.ge_p [2] [2] [(1, 1)] = Ok (out, 0%nat) /\
    _select_and_scatter_add true
      (batching.bdim_at_front source (Some 0%nat) 2)
      (batching.bdim_at_front operand (Some 0%nat) 2) lax.ge_p [1; 2]
      [1; 2] [(0, 0); (1, 1)] = Ok out /\
    forall i, 0 <= i < 2 ->
      exists u,
        _select_and_scatter_add true (unbatched i source (Some 0%nat))
          (unbatched i operand (Some 0%nat)) lax.ge_p [2] [2] [(1, 1)]
        = Ok u /\
        array_eq (take 0 i out) u.
Proof.
  cbv zeta.
  apply (select_and_scatter_add_batch_rule_stacks true
           (mk_array [2; 3]
              (fun idx => match idx with
                          | [i; j] => float32.of_Z (10 * i + j + 1)
                          | _ => float32.of_Z 0
                          end))
           (mk_array [2; 4]
              (fun idx => match idx with
                          | [i; j] => float32.of_Z ((j - 2 * i) * (j - 1))
                          | _ => float32.of_Z 0
                          end))
           (Some 0%nat) (Some 0%nat) lax.ge_p [2] [2] [(1, 1)] 2);
    try reflexivity; try lia;
    try (intros b Hb; injection Hb as <-; reflexivity);
    try (repeat constructor; simpl; lia).
Defined.

(** ** Windows of stride one *)

(** X22. For an operand shape without negative extents and window
    dimensions of at least one, with unit strides and, in every dimension,
    low and high padding that add up to the window dimension minus one,
    [reduce_window_shape_tuple] without dilations returns the operand's
    shape. *)
Theorem reduce_window_shape_tuple_stride_one
        (operand_shape window_dimensions : list Z)
        (padding : list (Z * Z)) :
  length window_dimensions = length operand_shape ->
  Forall (fun d => 0 <= d) operand_shape ->
  Forall (fun w => 1 <= w) window_dimensions ->
  Forall2 (fun w '(lo, hi) => lo + hi = w - 1) window_dimensions padding ->
  reduce_window_shape_tuple operand_shape window_dimensions
    (ones (length window_dimensions)) padding None None
  = Ok operand_shape.
Proof.
  intros Hl Hs Hw1 Hp. unfold reduce_window_shape_tuple. cbn [bind].
  revert operand_shape Hl Hs.
  induction Hp as [|w [lo hi] wd padding Hw Hp IH];
    intros [|d s] Hl Hs; simpl in Hl; try discriminate; [reflexivity|].
  inversion Hs as [|? ? Hd Hs']; subst.
  inversion Hw1 as [|? ? Hw0 Hw1']; subst.
  specialize (IH Hw1' s ltac:(lia) Hs').
  cbn [util.unzip2 length ones repeat].
  destruct (util.unzip2 padding) as [pads_lo pads_hi].
  unfold core.sum_shapes, core.stride_shape, ones in *.
  cbn [util.safe_map3 bind].
  destruct (util.safe_map3 (fun d l h => Ok (d + l + h)) s pads_lo pads_hi)
    as [padded|e]; cbn [bind] in *; [|discriminate].
  cbn [util.safe_map3]. rewrite IH.
  rewrite stride_dim_strided by (intros; lia). cbn [bind].
  f_equal. f_equal. unfold strided.
  destruct (d + lo + hi =? 0) eqn:E0; cbn [orb].
  - apply Z.eqb_eq in E0. lia.
  - destruct (d + lo + hi <? w) eqn:E1.
    + apply Z.ltb_lt in E1. lia.
    + rewrite Z.div_1_r. lia.
Qed.

Lemma reduce_window_shape_tuple_stride_one_witness :
  reduce_window_shape_tuple [5; 7] [2; 3] (ones (length [2; 3]))
    [(1, 0); (1, 1)] None None = Ok [5; 7].
Proof.
  apply (reduce_window_shape_tuple_stride_one [5; 7] [2; 3]
           [(1, 0); (1, 1)]); [reflexivity| | |];
    repeat constructor; lia.
Defined.
